(** * goose: migration ordering, version resolution and execution

    A shallow embedding of [migrate.go], [up.go] and [migration.go]:
    the version extractor, the in-process registry, the two sequencers,
    the version filters, the current-version scan and the execution of
    one migration, followed by the properties established about them. *)

From Stdlib Require Import ZArith Bool Ascii String Lia.
From stdpp Require Import base list sorting gmap strings.

Local Open Scope Z_scope.

(** ** Integers

    [int64] values are integers in the range below.  The engine only
    compares versions; the one place where an unsigned 64-bit value is
    multiplied and added (the decimal parser) writes its wrap-around out. *)

Definition int64_min : Z := - 2 ^ 63.
Definition int64_max : Z := 2 ^ 63 - 1.
Definition uint64_mod : Z := 2 ^ 64.
Definition uint64_max : Z := 2 ^ 64 - 1.

(** [MaxVersion], migrate.go line 21. *)
Definition MaxVersion : Z := 9223372036854775807.

(** ** Errors and panics *)

(** The two ways [strconv] parsing fails. *)
Inductive NumErrKind := ErrSyntax | ErrRange.

(** Go [error] values.  The two package-level sentinels are compared by
    identity in the source, so each is a constructor of its own.
    [ErrWrapf cause before operand] is the value of [errors.Wrapf] for
    the format that consists of [before] and the verb [%q], and
    [ErrErrorf before operand after] the value of [errors.Errorf] for
    the format [before], [%q], [after]; the operand is a string, and the
    text of both is rendered by [Error] below. *)
Inductive error :=
| ErrNoCurrentVersion
| ErrNoNextVersion
| ErrNew (msg : string)
| ErrWrap (cause : error) (msg : string)
| ErrWrapf (cause : error) (before operand : string)
| ErrErrorf (before operand after : string)
| ErrNum (fn : string) (num : string) (kind : NumErrKind)
| ErrDriver (msg : string).

Global Instance NumErrKind_eq_dec : EqDecision NumErrKind.
Proof. solve_decision. Defined.

Global Instance error_eq_dec : EqDecision error.
Proof. solve_decision. Defined.

(** A run-time panic: the two [panic] calls of the source, and the two
    the Go run time raises by itself. *)
Inductive panic :=
| PanicDuplicate (v : Z) (src1 src2 : string)
| PanicConflict (filename existing : string)
| PanicIndex
| PanicNilDeref.

Inductive result (A : Type) :=
| Ok (a : A)
| Panic (p : panic).

Arguments Ok {A} a.
Arguments Panic {A} p.

Definition rbind {A B : Type} (r : result A) (k : A → result B) : result B :=
  match r with
  | Ok a => k a
  | Panic p => Panic p
  end.

Notation "x ←! r ; k" := (rbind r (fun x => k))
  (at level 20, r at level 100, k at level 200, right associativity,
   format "x  ←!  r ;  '/' k").
Notation "' pat ←! r ; k" := (rbind r (fun pat => k))
  (at level 20, pat pattern, r at level 100, k at level 200,
   right associativity).

Definition is_duplicate_panic {A : Type} (r : result A) : bool :=
  match r with
  | Panic (PanicDuplicate _ _ _) => true
  | _ => false
  end.

(** ** Go standard library: strings, paths and decimal parsing

    These functions belong to the Go standard library and are modelled as
    it defines them on a Unix system.  A Go string is a byte sequence. *)

Module Go.

Definition slash : ascii := "/"%char.
Definition dot : ascii := "."%char.
Definition quote_char : ascii := "034"%char.

Definition to_bytes (s : string) : list ascii := list_ascii_of_string s.
Definition of_bytes (l : list ascii) : string := string_of_list_ascii l.

(** Drop the trailing bytes that satisfy [p]; the list is given reversed. *)
Fixpoint drop_while (p : ascii → bool) (l : list ascii) : list ascii :=
  match l with
  | [] => []
  | c :: l' => if p c then drop_while p l' else l
  end.

Fixpoint take_while (p : ascii → bool) (l : list ascii) : list ascii :=
  match l with
  | [] => []
  | c :: l' => if p c then c :: take_while p l' else []
  end.

Definition is_sep (c : ascii) : bool := Ascii.eqb c slash.

(** [filepath.Base]: strip trailing separators, keep what follows the
    last remaining separator; [.] for the empty path and [/] for a path
    of separators only. *)
Definition Base (path : string) : string :=
  match to_bytes path with
  | [] => "."%string
  | bs =>
      let stripped := drop_while is_sep (rev bs) in
      let last := rev (take_while (fun c => negb (is_sep c)) stripped) in
      match last with
      | [] => "/"%string
      | _ => of_bytes last
      end
  end.

(** [filepath.Ext]: scan backwards up to the last separator; the
    extension starts at the first dot met. *)
Fixpoint ext_scan (rbs : list ascii) (acc : list ascii) : list ascii :=
  match rbs with
  | [] => []
  | c :: rbs' =>
      if is_sep c then []
      else if Ascii.eqb c dot then c :: acc
      else ext_scan rbs' (c :: acc)
  end.

Definition Ext (path : string) : string :=
  of_bytes (ext_scan (rev (to_bytes path)) []).

(** [strings.Index]: the byte offset of the first occurrence of [sep],
    or [-1]. *)
Fixpoint is_prefix (p l : list ascii) : bool :=
  match p, l with
  | [], _ => true
  | _ :: _, [] => false
  | a :: p', b :: l' => Ascii.eqb a b && is_prefix p' l'
  end.

Fixpoint index_from (sep l : list ascii) : Z :=
  if is_prefix sep l then 0
  else match l with
       | [] => -1
       | _ :: l' => let r := index_from sep l' in
                    if r <? 0 then -1 else r + 1
       end.

Definition Index (s sep : string) : Z := index_from (to_bytes sep) (to_bytes s).

(** The slice expression [s[:n]] for [0 <= n <= len(s)]. *)
Definition slice_to (s : string) (n : Z) : string :=
  of_bytes (take (Z.to_nat n) (to_bytes s)).

Definition is_digit (c : ascii) : bool :=
  let n := Z.of_nat (nat_of_ascii c) in (48 <=? n) && (n <=? 57).

Definition digit_val (c : ascii) : Z := Z.of_nat (nat_of_ascii c) - 48.

(** [strconv.ParseUint(s, 10, 64)], the loop over the bytes: [n] is the
    unsigned 64-bit accumulator, [cutoff] the least number whose tenfold
    exceeds the largest value. *)
Definition cutoff10 : Z := uint64_max / 10 + 1.

Fixpoint parse_uint_loop (s0 : string) (bs : list ascii) (n : Z) : Z * option error :=
  match bs with
  | [] => (n, None)
  | c :: bs' =>
      if negb (is_digit c) then (0, Some (ErrNum "ParseUint" s0 ErrSyntax))
      else if cutoff10 <=? n then (uint64_max, Some (ErrNum "ParseUint" s0 ErrRange))
      else
        let n10 := (n * 10) mod uint64_mod in
        let n1 := (n10 + digit_val c) mod uint64_mod in
        if (n1 <? n10) || (uint64_max <? n1)
        then (uint64_max, Some (ErrNum "ParseUint" s0 ErrRange))
        else parse_uint_loop s0 bs' n1
  end.

Definition ParseUint (s : string) : Z * option error :=
  match to_bytes s with
  | [] => (0, Some (ErrNum "ParseUint" s ErrSyntax))
  | bs => parse_uint_loop s bs 0
  end.

(** [strconv.ParseInt(s, 10, 64)]: an optional sign, then [ParseUint];
    a value out of range comes back as the nearest bound together with a
    range error. *)
Definition ParseInt (s0 : string) : Z * option error :=
  match to_bytes s0 with
  | [] => (0, Some (ErrNum "ParseInt" s0 ErrSyntax))
  | c :: rest =>
      let neg := Ascii.eqb c "-"%char in
      let s := if Ascii.eqb c "+"%char then of_bytes rest
               else if neg then of_bytes rest else s0 in
      let '(un, err) := ParseUint s in
      match err with
      | Some (ErrNum _ _ ErrRange) | None =>
          let cutoff := 2 ^ 63 in
          if negb neg && (cutoff <=? un)
          then (cutoff - 1, Some (ErrNum "ParseInt" s0 ErrRange))
          else if neg && (cutoff <? un)
          then (- cutoff, Some (ErrNum "ParseInt" s0 ErrRange))
          else ((if neg then - un else un), None)
      | Some _ => (0, Some (ErrNum "ParseInt" s0 ErrSyntax))
      end
  end.

(** ** Quoting, [strconv.Quote]

    The verb [%q] of [fmt] renders a string operand with
    [strconv.Quote], and so does the text of a [strconv.NumError] for the
    number it could not parse. *)

Definition backslash : ascii := "092"%char.

(** A byte as a number, and the conversion [byte(x)] of a number. *)
Definition byte (c : ascii) : Z := Z.of_nat (nat_of_ascii c).
Definition of_byte (x : Z) : ascii := ascii_of_nat (Z.to_nat (x mod 256)).

Definition lowerhex (x : Z) : ascii :=
  nth (Z.to_nat x) (to_bytes "0123456789abcdef") "0"%char.

Definition RuneError : Z := 65533.
Definition RuneSelf : Z := 128.
Definition MaxRune : Z := 1114111.
Definition surrogateMin : Z := 55296.
Definition surrogateMax : Z := 57343.

(** A continuation byte within the accepted range. *)
Definition accepted (lo hi : Z) (c : ascii) : bool :=
  (lo <=? byte c) && (byte c <=? hi).

(** The table [first] of package [utf8]: for a leading byte of a
    multi-byte encoding, the size of the encoding and the range accepted
    for its second byte. *)
Definition first (s0 : Z) : option (nat * Z * Z) :=
  if (194 <=? s0) && (s0 <=? 223) then Some (2%nat, 128, 191)
  else if s0 =? 224 then Some (3%nat, 160, 191)
  else if (225 <=? s0) && (s0 <=? 236) then Some (3%nat, 128, 191)
  else if s0 =? 237 then Some (3%nat, 128, 159)
  else if (238 <=? s0) && (s0 <=? 239) then Some (3%nat, 128, 191)
  else if s0 =? 240 then Some (4%nat, 144, 191)
  else if (241 <=? s0) && (s0 <=? 243) then Some (4%nat, 128, 191)
  else if s0 =? 244 then Some (4%nat, 128, 143)
  else None.

(** [utf8.DecodeRuneInString]: the rune the text starts with and its
    width in bytes; [(RuneError, 1)] for an encoding that is invalid or
    cut short, [(RuneError, 0)] for the empty text. *)
Definition DecodeRuneInString (s : list ascii) : Z * nat :=
  match s with
  | [] => (RuneError, 0%nat)
  | c0 :: rest =>
      let s0 := byte c0 in
      if s0 <? RuneSelf then (s0, 1%nat)
      else
        match first s0 with
        | None => (RuneError, 1%nat)
        | Some (sz, lo, hi) =>
            if (length s <? sz)%nat then (RuneError, 1%nat)
            else
              match rest with
              | [] => (RuneError, 1%nat)
              | c1 :: rest1 =>
                  if negb (accepted lo hi c1) then (RuneError, 1%nat)
                  else if (sz <=? 2)%nat
                  then (Z.lor (Z.shiftl (Z.land s0 31) 6) (Z.land (byte c1) 63), 2%nat)
                  else
                    match rest1 with
                    | [] => (RuneError, 1%nat)
                    | c2 :: rest2 =>
                        if negb (accepted 128 191 c2) then (RuneError, 1%nat)
                        else if (sz <=? 3)%nat
                        then (Z.lor (Z.shiftl (Z.land s0 15) 12)
                                (Z.lor (Z.shiftl (Z.land (byte c1) 63) 6)
                                       (Z.land (byte c2) 63)), 3%nat)
                        else
                          match rest2 with
                          | [] => (RuneError, 1%nat)
                          | c3 :: _ =>
                              if negb (accepted 128 191 c3) then (RuneError, 1%nat)
                              else (Z.lor (Z.shiftl (Z.land s0 7) 18)
                                      (Z.lor (Z.shiftl (Z.land (byte c1) 63) 12)
                                         (Z.lor (Z.shiftl (Z.land (byte c2) 63) 6)
                                                (Z.land (byte c3) 63))), 4%nat)
                          end
                    end
              end
        end
  end.

(** [utf8.AppendRune], the bytes appended. *)
Definition AppendRune (r : Z) : list ascii :=
  if r <=? 127 then [of_byte r]
  else if r <=? 2047
  then [of_byte (Z.lor 192 (Z.shiftr r 6)); of_byte (Z.lor 128 (Z.land r 63))]
  else
    let three (r : Z) :=
      [of_byte (Z.lor 224 (Z.shiftr r 12));
       of_byte (Z.lor 128 (Z.land (Z.shiftr r 6) 63));
       of_byte (Z.lor 128 (Z.land r 63))] in
    if (MaxRune <? r) || ((surrogateMin <=? r) && (r <=? surrogateMax))
    then three RuneError
    else if r <=? 65535 then three r
    else [of_byte (Z.lor 240 (Z.shiftr r 18));
          of_byte (Z.lor 128 (Z.land (Z.shiftr r 12) 63));
          of_byte (Z.lor 128 (Z.land (Z.shiftr r 6) 63));
          of_byte (Z.lor 128 (Z.land r 63))].

Definition ValidRune (r : Z) : bool :=
  ((0 <=? r) && (r <? surrogateMin)) || ((surrogateMax <? r) && (r <=? MaxRune)).

(** The hexadecimal digits of [r] from bit [4 * n - 1] down. *)
Fixpoint hex_digits (n : nat) (r : Z) : list ascii :=
  match n with
  | O => []
  | S n' => lowerhex (Z.land (Z.shiftr r (4 * Z.of_nat n')) 15) :: hex_digits n' r
  end.

Section Quote.

(** The tables of printable runes of package [strconv], consulted for
    the runes above [0xFF]; they are data of the library and stay a
    parameter here. *)
Variable isPrintTables : Z → bool.

(** [strconv.IsPrint]. *)
Definition IsPrint (r : Z) : bool :=
  if r <=? 255 then
    if (32 <=? r) && (r <=? 126) then true
    else if (161 <=? r) && (r <=? 255) then negb (r =? 173)
    else false
  else isPrintTables r.

(** [appendEscapedRune] for the double quote as quote character, neither
    ASCII-only nor graphic-only (as of Go 1.19, where DEL is written
    with the escape for a byte). *)
Definition appendEscapedRune (r : Z) : list ascii :=
  if (r =? byte quote_char) || (r =? byte backslash) then [backslash; of_byte r]
  else if IsPrint r then AppendRune r
  else if r =? 7 then [backslash; "a"%char]
  else if r =? 8 then [backslash; "b"%char]
  else if r =? 12 then [backslash; "f"%char]
  else if r =? 10 then [backslash; "n"%char]
  else if r =? 13 then [backslash; "r"%char]
  else if r =? 9 then [backslash; "t"%char]
  else if r =? 11 then [backslash; "v"%char]
  else if (r <? 32) || (r =? 127)
  then [backslash; "x"%char; lowerhex (Z.shiftr (r mod 256) 4); lowerhex (Z.land (r mod 256) 15)]
  else
    let r := if ValidRune r then r else RuneError in
    if r <? 65536 then backslash :: "u"%char :: hex_digits 4 r
    else backslash :: "U"%char :: hex_digits 8 r.

(** The loop of [appendQuotedWith] over the text; [skip] counts the
    bytes of the rune just handled that are still to be stepped over. *)
Fixpoint quote_loop (s : list ascii) (skip : nat) : list ascii :=
  match s with
  | [] => []
  | c :: rest =>
      match skip with
      | S k => quote_loop rest k
      | O =>
          let '(r, width) :=
            if byte c <? RuneSelf then (byte c, 1%nat)
            else DecodeRuneInString (c :: rest) in
          (if (width =? 1)%nat && (r =? RuneError)
           then [backslash; "x"%char;
                 lowerhex (Z.shiftr (byte c) 4); lowerhex (Z.land (byte c) 15)]
           else appendEscapedRune r)
          ++ quote_loop rest (width - 1)
      end
  end.

Definition Quote (s : string) : string :=
  of_bytes (quote_char :: quote_loop (to_bytes s) 0 ++ [quote_char]).

End Quote.

End Go.

(** ** The version extractor, migration.go [NumericComponent] *)

Definition NumericComponent (name : string) : Z * option error :=
  let base := Go.Base name in
  let ext := Go.Ext base in
  if negb (bool_decide (ext = ".go"%string)) && negb (bool_decide (ext = ".sql"%string))
  then (0, Some (ErrNew "not a recognized migration file type"))
  else
    let idx := Go.Index base "_" in
    if idx <? 0 then (0, Some (ErrNew "no separator found"))
    else
      let '(n, e) := Go.ParseInt (Go.slice_to base idx) in
      match e with
      | None => if n <=? 0
                then (0, Some (ErrNew "migration IDs must be greater than zero"))
                else (n, e)
      | Some _ => (n, e)
      end.

(** ** The version filters, migrate.go lines 468-491 *)

Definition versionFilter (v current target : Z) : bool :=
  if current <? target then (current <? v) && (v <=? target)
  else if target <? current then (v <=? current) && (target <? v)
  else false.

Definition unappliedVersionFilter (v current target : Z) (applied : bool) : bool :=
  if negb applied then true
  else if current <? target then (current <? v) && (v <=? target)
  else false.

(** ** Data model, migration.go *)

Record MigrationRecord := mkRecord {
  ID : Z;
  VersionID : Z;
  TStamp : Z;
  IsApplied : bool
}.

(** The history table as the engine sees it: its rows in insertion order. *)
Abbreviation Table := (list MigrationRecord).

(** A Go migration function takes the open transaction and returns an
    error: it works on the transaction's view of the database and may fail. *)
Definition GoFn := Table → Table * option error.

Record Migration := mkMigration {
  Version : Z;
  Next : Z;
  Previous : Z;
  Source : string;
  Registered : bool;
  Applied : bool;
  UpFn : option GoFn;
  DownFn : option GoFn
}.

Definition set_Next (m : Migration) (v : Z) : Migration :=
  mkMigration (Version m) v (Previous m) (Source m) (Registered m) (Applied m)
              (UpFn m) (DownFn m).

Definition set_Previous (m : Migration) (v : Z) : Migration :=
  mkMigration (Version m) (Next m) v (Source m) (Registered m) (Applied m)
              (UpFn m) (DownFn m).

(** [Migrations] is a slice of pointers.  The store holds the pointed-to
    records; a pointer is an index into it, and two slices that hold the
    same pointer see each other's writes. *)
Abbreviation ptr := nat (only parsing).
Abbreviation Heap := (list Migration).
Abbreviation Migrations := (list nat).

Definition load (h : Heap) (p : ptr) : result Migration :=
  match h !! p with
  | Some m => Ok m
  | None => Panic PanicNilDeref
  end.

Definition store (h : Heap) (p : ptr) (f : Migration → Migration) : result Heap :=
  match h !! p with
  | Some m => Ok (<[p := f m]> h)
  | None => Panic PanicNilDeref
  end.

(** [ms[i]], with the run-time bounds check. *)
Definition at_index (ms : Migrations) (i : nat) : result ptr :=
  match ms !! i with
  | Some p => Ok p
  | None => Panic PanicIndex
  end.

(** ** [sort.Interface], migrate.go lines 30-37 *)

Definition Len (ms : Migrations) : nat := length ms.

Definition Swap (ms : Migrations) (i j : nat) : result Migrations :=
  pi ←! at_index ms i;
  pj ←! at_index ms j;
  Ok (<[j := pi]> (<[i := pj]> ms)).

Definition Less (h : Heap) (ms : Migrations) (i j : nat) : result bool :=
  pi ←! at_index ms i;
  mi ←! load h pi;
  pj ←! at_index ms j;
  mj ←! load h pj;
  if Version mi =? Version mj
  then Panic (PanicDuplicate (Version mi) (Source mi) (Source mj))
  else Ok (Version mi <? Version mj).

(** [sort.Sort] is the standard library's.  On slices of at most twelve
    elements it runs its insertion sort, transcribed here and used as the
    model at every length:
    [for i := a + 1; i < b; i++ { for j := i; j > a && Less(j, j-1); j-- { Swap(j, j-1) } }]. *)
Fixpoint insert_down (h : Heap) (ms : Migrations) (j : nat) : result Migrations :=
  match j with
  | O => Ok ms
  | S j' =>
      b ←! Less h ms j j';
      if b : bool then (ms' ←! Swap ms j j'; insert_down h ms' j') else Ok ms
  end.

Fixpoint insertion_from (h : Heap) (ms : Migrations) (i n : nat) : result Migrations :=
  match n with
  | O => Ok ms
  | S n' => ms' ←! insert_down h ms i; insertion_from h ms' (S i) n'
  end.

Definition sort_Sort (h : Heap) (ms : Migrations) : result Migrations :=
  insertion_from h ms 1 (Len ms - 1).

(** ** Navigation, migrate.go lines 39-94

    The methods [Next] and [Previous] of [Migrations] are [MNext] and
    [MPrevious] here, the plain names being those of the record fields. *)

(** The pair of a migration pointer and an error that the navigation
    methods return: the pointer or the error. *)
Fixpoint Current (h : Heap) (ms : Migrations) (current : Z) : result (ptr + error) :=
  match ms with
  | [] => Ok (inr ErrNoCurrentVersion)
  | p :: ms' =>
      m ←! load h p;
      if Version m =? current then Ok (inl p) else Current h ms' current
  end.

Definition MNext (h : Heap) (ms : Migrations) (current : Z) : result (ptr + error) :=
  if current =? 0 then (p ←! at_index ms 0; Ok (inl p))
  else
    r ←! Current h ms current;
    match r with
    | inr err => Ok (inr err)
    | inl cur =>
        mc ←! load h cur;
        if Next mc =? -1 then Ok (inr ErrNoNextVersion)
        else
          r' ←! Current h ms (Next mc);
          match r' with
          | inr err => Ok (inr err)
          | inl next => Ok (inl next)
          end
    end.

Definition MPrevious (h : Heap) (ms : Migrations) (current : Z) : result (ptr + error) :=
  r ←! Current h ms current;
  match r with
  | inr err => Ok (inr err)
  | inl cur =>
      mc ←! load h cur;
      if Previous mc =? -1 then Ok (inr ErrNoNextVersion)
      else
        r' ←! Current h ms (Previous mc);
        match r' with
        | inr err => Ok (inr err)
        | inl prev => Ok (inl prev)
        end
  end.

Definition Last (ms : Migrations) : ptr + error :=
  match last ms with
  | Some p => inl p
  | None => inr ErrNoNextVersion
  end.

(** ** Sequencers, migrate.go lines 396-466 *)

(** The applied-set, a Go [map[int64]bool]: an absent key reads [false]. *)
Definition applied_at (applied : gmap Z bool) (v : Z) : bool :=
  default false (applied !! v).

(** The partition loop, lines 404-413. *)
Fixpoint partition_applied (h : Heap) (applied : gmap Z bool) (ms : Migrations)
    (am um : Migrations) : result (Migrations * Migrations) :=
  match ms with
  | [] => Ok (am, um)
  | p :: ms' =>
      m ←! load h p;
      if applied_at applied (Version m)
      then partition_applied h applied ms' (am ++ [p]) um
      else partition_applied h applied ms' am (um ++ [p])
  end.

(** The linking loop shared by lines 415-422, 424-431 and 456-463:
    [for i, m := range ranged] with a body that indexes [indexed]:
    [prev := -1; if i > 0 { prev = indexed[i-1].Version; indexed[i-1].Next = m.Version };
     indexed[i].Previous = prev]. *)
Fixpoint connect_loop (indexed : Migrations) (h : Heap) (i : nat) (ranged : Migrations)
    : result Heap :=
  match ranged with
  | [] => Ok h
  | m :: ranged' =>
      '(prev, h1) ←!
        (if (0 <? i)%nat then
           q ←! at_index indexed (i - 1);
           mq ←! load h q;
           mm ←! load h m;
           h' ←! store h q (fun x => set_Next x (Version mm));
           Ok (Version mq, h')
         else Ok (-1, h));
      pi ←! at_index indexed i;
      h2 ←! store h1 pi (fun x => set_Previous x prev);
      connect_loop indexed h2 (S i) ranged'
  end.

Definition sortAndConnectMigrations (h : Heap) (migrations : Migrations)
    : result (Heap * Migrations) :=
  migrations ←! sort_Sort h migrations;
  h ←! connect_loop migrations h 0 migrations;
  Ok (h, migrations).

Definition sortAndConnectAllMigrations (h : Heap) (migrations : Migrations)
    (applied : gmap Z bool) : result (Heap * Migrations) :=
  migrations ←! sort_Sort h migrations;
  '(am, um) ←! partition_applied h applied migrations [] [];
  (* connect applied migrations: the body indexes [migrations] *)
  h ←! connect_loop migrations h 0 am;
  (* connect unapplied migrations: the body indexes [um] *)
  h ←! connect_loop um h 0 um;
  if (length am =? 0)%nat then Ok (h, um)
  else
    h ←! (if negb (length um =? 0)%nat then
            h ←! (if (length um =? 1)%nat
                  then (u0 ←! at_index um 0; store h u0 (fun x => set_Next x (-1)))
                  else Ok h);
            al ←! at_index am (length am - 1);
            u0 ←! at_index um 0;
            mu ←! load h u0;
            h ←! store h al (fun x => set_Next x (Version mu));
            mal ←! load h al;
            store h u0 (fun x => set_Previous x (Version mal))
          else Ok h);
    Ok (h, am ++ um).

(** ** The registry, migrate.go lines 23 and 259-268 *)

(** [registeredGoMigrations], a [map[int64]*Migration], together with the
    store its pointers refer to. *)
Record Registry := mkRegistry {
  reg_heap : Heap;
  reg_map : gmap Z ptr
}.

Definition AddNamedMigration (filename : string) (up down : option GoFn)
    (r : Registry) : result Registry :=
  let '(v, _) := NumericComponent filename in
  let migration := mkMigration v (-1) (-1) filename true false up down in
  let p := length (reg_heap r) in
  let h := reg_heap r ++ [migration] in
  match reg_map r !! v with
  | Some q =>
      existing ←! load h q;
      Panic (PanicConflict filename (Source existing))
  | None => Ok (mkRegistry h (<[v := p]> (reg_map r)))
  end.

(** ** The current-version scan, migrate.go lines 528-573 *)

(** What [rows.Scan] yields for one row. *)
Inductive ScanResult :=
| ScanOk (row : MigrationRecord)
| ScanErr (e : error).

(** What [dbVersionQuery] yields: an error, or the rows in the order the
    query returns them and the final value of [rows.Err()]. *)
Inductive QueryResult :=
| QueryErr (e : error)
| QueryRows (rows : list ScanResult) (rows_err : option error).

(** Lines 548-554, the search of [toSkip]. *)
Fixpoint in_skip (toSkip : list Z) (v : Z) : bool :=
  match toSkip with
  | [] => false
  | x :: rest => if x =? v then true else in_skip rest v
  end.

Fixpoint scan_rows (rows : list ScanResult) (rows_err : option error)
    (toSkip : list Z) : Z * option error :=
  match rows with
  | [] =>
      match rows_err with
      | Some err => (0, Some (ErrWrap err "failed to get next row"))
      | None => (0, Some ErrNoNextVersion)
      end
  | ScanErr err :: _ => (0, Some (ErrWrap err "failed to scan row"))
  | ScanOk row :: rest =>
      if in_skip toSkip (VersionID row) then scan_rows rest rows_err toSkip
      else if IsApplied row then (VersionID row, None)
      else scan_rows rest rows_err (toSkip ++ [VersionID row])
  end.

(** [createVersionTable] talks to the database only; its outcome is the
    argument [created]. *)
Definition EnsureDBVersion (q : QueryResult) (created : option error)
    : Z * option error :=
  match q with
  | QueryErr _ => (0, created)
  | QueryRows rows rows_err => scan_rows rows rows_err []
  end.

Definition GetDBVersion (q : QueryResult) (created : option error)
    : Z * option error :=
  match EnsureDBVersion q created with
  | (_, Some err) => (-1, Some err)
  | (version, None) => (version, None)
  end.

(** ** Executing one migration, migration.go lines 26-98 *)

(** The text of an error, as [Error()] returns it.  [tables] are the
    tables of printable runes that [strconv.Quote] consults. *)
Fixpoint Error (tables : Z → bool) (e : error) : string :=
  match e with
  | ErrNoCurrentVersion => "no current version found"
  | ErrNoNextVersion => "no next version found"
  | ErrNew msg => msg
  | ErrWrap cause msg => msg +:+ ": " +:+ Error tables cause
  | ErrWrapf cause before operand =>
      before +:+ Go.Quote tables operand +:+ ": " +:+ Error tables cause
  | ErrErrorf before operand after => before +:+ Go.Quote tables operand +:+ after
  | ErrNum fn num kind =>
      "strconv." +:+ fn +:+ ": parsing " +:+ Go.Quote tables num +:+ ": " +:+
      match kind with
      | ErrSyntax => "invalid syntax"
      | ErrRange => "value out of range"
      end
  | ErrDriver msg => msg
  end.

(** [strings.Contains]. *)
Definition contains (s sub : string) : bool := 0 <=? Go.Index s sub.

(** An error identifies a migration when its text shows the base name of
    the migration's source. *)
Definition names_source (tables : Z → bool) (e : error) (m : Migration) : bool :=
  contains (Error tables e) (Go.Base (Source m)).

(** The calls the engine issues to its collaborators, in order. *)
Inductive Event :=
| EvBegin
| EvCallFn (up : bool)
| EvInsertVersion (v : Z) (applied : bool)
| EvDeleteVersion (v : Z)
| EvCommit
| EvRollback
| EvRunSQL (source : string) (v : Z) (direction : bool).

Global Instance Event_eq_dec : EqDecision Event.
Proof. solve_decision. Defined.

(** The database: the committed history table, and the calls made so far. *)
Record World := mkWorld {
  committed : Table;
  events : list Event
}.

(** The collaborators that are not part of the engine: the outcome of
    each driver call of one execution, the effect of the dialect's two
    statements on the history table, and the SQL script runner. *)
Record Driver := mkDriver {
  begin_result : option error;
  exec_result : option error;
  commit_result : option error;
  insertVersionSQL : Z → bool → Table → Table;
  deleteVersionSQL : Z → Table → Table;
  runSQLMigration : Table → string → Z → bool → Table * option error
}.

Definition emit (w : World) (evs : list Event) : World :=
  mkWorld (committed w) (events w ++ evs).

(** The format of the error for an unregistered function, around its
    verb [%q]. *)
Definition unregistered_before : string := "failed to run Go migration ".
Definition unregistered_after : string :=
  ": Go functions must be registered and built into a custom binary (see https://github.com/lonja/goose/tree/master/examples/go-migrations)".

Definition run (d : Driver) (m : Migration) (w : World) (direction : bool)
    : World * option error :=
  let ext := Go.Ext (Source m) in
  if bool_decide (ext = ".sql"%string) then
    let '(t, r) := runSQLMigration d (committed w) (Source m) (Version m) direction in
    let w' := mkWorld t (events w ++ [EvRunSQL (Source m) (Version m) direction]) in
    match r with
    | Some err =>
        (w', Some (ErrWrapf err "failed to run SQL migration " (Go.Base (Source m))))
    | None => (w', None)
    end
  else if bool_decide (ext = ".go"%string) then
    if negb (Registered m)
    then (w, Some (ErrErrorf unregistered_before (Source m) unregistered_after))
    else
      let w := emit w [EvBegin] in
      match begin_result d with
      | Some err => (w, Some (ErrWrap err "failed to begin transaction"))
      | None =>
          let tx := committed w in
          let fn := if direction then UpFn m else DownFn m in
          let '(w, tx, fn_err) :=
            match fn with
            | Some f => let '(tx', r) := f tx in (emit w [EvCallFn direction], tx', r)
            | None => (w, tx, None)
            end in
          match fn_err with
          | Some err =>
              (emit w [EvRollback],
               Some (ErrWrapf err "failed to run Go migration " (Go.Base (Source m))))
          | None =>
              let '(w, tx') :=
                if direction
                then (emit w [EvInsertVersion (Version m) direction],
                      insertVersionSQL d (Version m) direction tx)
                else (emit w [EvDeleteVersion (Version m)],
                      deleteVersionSQL d (Version m) tx) in
              match exec_result d with
              | Some err =>
                  (emit w [EvRollback], Some (ErrWrap err "failed to execute transaction"))
              | None =>
                  match commit_result d with
                  | Some err =>
                      (emit w [EvCommit], Some (ErrWrap err "failed to commit transaction"))
                  | None => (mkWorld tx' (events w ++ [EvCommit]), None)
                  end
              end
          end
      end
  else (w, None).

Definition Up (d : Driver) (m : Migration) (w : World) : World * option error :=
  run d m w true.

Definition Down (d : Driver) (m : Migration) (w : World) : World * option error :=
  run d m w false.

(** Modelled from the spec: the dialect's statements, which are not part
    of these files.  [insertRecord(version, applied)] appends a record
    under a fresh row identifier, [deleteRecord(version)] removes the
    records of the version. *)
Definition next_id (t : Table) : Z := 1 + foldr Z.max 0 (map ID t).

Definition spec_insertVersion (v : Z) (applied : bool) (t : Table) : Table :=
  t ++ [mkRecord (next_id t) v 0 applied].

Definition spec_deleteVersion (v : Z) (t : Table) : Table :=
  filter (fun r => VersionID r ≠ v) t.

(** ** The applied-set scan, migrate.go lines 495-524 *)

(** The loop over the rows: [applied] and [failed] are the two maps of
    the source.  A row that does not scan ends the process ([log.Fatal]),
    which is the result [None]. *)
Fixpoint applied_scan (rows : list ScanResult) (applied failed : gmap Z bool)
    : option (gmap Z bool) :=
  match rows with
  | [] => Some applied
  | ScanErr _ :: _ => None
  | ScanOk row :: rest =>
      if IsApplied row && negb (applied_at failed (VersionID row))
      then applied_scan rest (<[VersionID row := true]> applied) failed
      else applied_scan rest applied (<[VersionID row := true]> failed)
  end.

(** [AppliedDBVersions]: the map and the error it returns, or [None]
    when the process is ended.  The value of [rows.Err()] is not read. *)
Definition AppliedDBVersions (q : QueryResult) (created : option error)
    : option (gmap Z bool * option error) :=
  match q with
  | QueryErr _ => Some (∅, created)
  | QueryRows rows _ =>
      match applied_scan rows ∅ ∅ with
      | Some applied => Some (applied, None)
      | None => None
      end
  end.

(** ** The history repairer, up.go lines 74-126 *)

(** How a call can end: it returns, the process is ended by [log.Fatal],
    or it panics. *)
Inductive outcome (A : Type) :=
| Returned (a : A)
| Exited
| Panicked (p : panic).

Arguments Returned {A} a.
Arguments Exited {A}.
Arguments Panicked {A} p.

(** The calls of the repairer.  [RUpdate id v a ts] is the statement
    that [swapRows] builds: set version, applied-flag and timestamp of
    the rows whose identifier is [id]. *)
Inductive RepairEvent :=
| RBegin
| RUpdate (id version : Z) (applied : bool) (tstamp : Z)
| RCommit
| RRollback.

(** The collaborators of one repair: the outcome of [db.Begin], of the
    n-th [tx.Exec] and of [tx.Commit], and what the database keeps of a
    timestamp that went through its RFC 3339 text. *)
Record RepairDriver := mkRepairDriver {
  rd_begin : option error;
  rd_exec : nat → option error;
  rd_commit : option error;
  rd_tstamp : Z → Z
}.

(** The transaction as the repairer sees it: the history table inside
    the transaction, the calls made, and the number of statements
    executed. *)
Record RepairState := mkRepairState {
  rs_table : Table;
  rs_log : list RepairEvent;
  rs_execs : nat
}.

(** The effect of the update statement on the table. *)
Definition update_row (rd : RepairDriver) (t : Table) (id v : Z) (applied : bool)
    (ts : Z) : Table :=
  (fun r => if decide (ID r = id) then mkRecord id v (rd_tstamp rd ts) applied else r) <$> t.

(** [tx.Exec] of one update statement.  Without a transaction ([db.Begin]
    failed and its error was not looked at) the call dereferences nil. *)
Definition exec_update (rd : RepairDriver) (st : RepairState) (row : MigrationRecord)
    : result (RepairState * option error) :=
  match rd_begin rd with
  | Some _ => Panic PanicNilDeref
  | None =>
      let log := rs_log st ++ [RUpdate (ID row) (VersionID row) (IsApplied row) (TStamp row)] in
      match rd_exec rd (rs_execs st) with
      | Some err => Ok (mkRepairState (rs_table st) log (S (rs_execs st)), Some err)
      | None =>
          Ok (mkRepairState
                (update_row rd (rs_table st) (ID row) (VersionID row) (IsApplied row)
                            (TStamp row))
                log (S (rs_execs st)),
              None)
      end
  end.

Definition set_ID (r : MigrationRecord) (id : Z) : MigrationRecord :=
  mkRecord id (VersionID r) (TStamp r) (IsApplied r).

(** [swapRows]: the two records exchange their identifiers, then each is
    written under its new identifier.  The records come back as the
    caller's pointers see them afterwards. *)
Definition swapRows (rd : RepairDriver) (st : RepairState) (row1 row2 : MigrationRecord)
    : result (RepairState * MigrationRecord * MigrationRecord * option error) :=
  let row1' := set_ID row1 (ID row2) in
  let row2' := set_ID row2 (ID row1) in
  '(st, err) ←! exec_update rd st row1';
  match err with
  | Some e => Ok (st, row1', row2', Some e)
  | None =>
      '(st, err) ←! exec_update rd st row2';
      Ok (st, row1', row2', err)
  end.

(** The loop of [fixUp] over the rows of the query; [prevRow] is [None]
    for the nil pointer.  The result is the state of the transaction and
    the error to return, if the loop ends by a return. *)
Fixpoint fixUp_loop (rd : RepairDriver) (rows : list ScanResult) (st : RepairState)
    (prevRow : option MigrationRecord) : outcome (RepairState * option (option error)) :=
  match rows with
  | [] => Returned (st, None)
  | ScanErr _ :: _ => Exited
  | ScanOk row :: rest =>
      match prevRow with
      | None => fixUp_loop rd rest st (Some row)
      | Some prev =>
          if (ID row <? ID prev) && (VersionID prev <? VersionID row) then
            match swapRows rd st prev row with
            | Panic p => Panicked p
            | Ok (st, prev', _, Some err) =>
                Returned (mkRepairState (rs_table st) (rs_log st ++ [RRollback]) (rs_execs st),
                          Some (Some err))
            | Ok (st, prev', _, None) => fixUp_loop rd rest st (Some prev')
            end
          else if (ID prev <? ID row) && (VersionID row <? VersionID prev) then
            match swapRows rd st prev row with
            | Panic p => Panicked p
            | Ok (st, _, row', Some err) =>
                Returned (mkRepairState (rs_table st) (rs_log st ++ [RRollback]) (rs_execs st),
                          Some (Some err))
            | Ok (st, _, row', None) => fixUp_loop rd rest st (Some row')
            end
          else fixUp_loop rd rest st (Some row)
      end
  end.

(** [fixUp] on the committed history table [t]: the committed table
    afterwards, the calls made, and the error returned. *)
Definition fixUp (rd : RepairDriver) (q : QueryResult) (t : Table)
    : outcome (Table * list RepairEvent * option error) :=
  match q with
  | QueryErr e => Returned (t, [], Some e)
  | QueryRows rows _ =>
      match fixUp_loop rd rows (mkRepairState t [RBegin] 0) None with
      | Exited => Exited
      | Panicked p => Panicked p
      | Returned (st, Some err) => Returned (t, rs_log st, err)
      | Returned (st, None) =>
          match rd_begin rd with
          | Some _ => Panicked PanicNilDeref
          | None =>
              match rd_commit rd with
              | Some e => Returned (t, rs_log st ++ [RCommit], Some e)
              | None => Returned (rs_table st, rs_log st ++ [RCommit], None)
              end
          end
      end
  end.

(** ** Collecting migrations, migrate.go lines 270-394 *)

(** What the file system shows of the migrations directory: whether
    [os.Stat] reports it missing, and the results of the two calls of
    [filepath.Glob]. *)
Record Dir := mkDir {
  dir_missing : bool;
  sql_glob : list string + error;
  go_glob : list string + error
}.

(** The record that the collectors create for a file. *)
Definition file_migration (v : Z) (file : string) : Migration :=
  mkMigration v (-1) (-1) file false false None None.

(** The loop over the script files: a name without a version ends the
    collection with its error. *)
Fixpoint collect_sql (keep : Z → bool) (files : list string) (h : Heap) (ms : Migrations)
    : (Heap * Migrations) + error :=
  match files with
  | [] => inl (h, ms)
  | file :: rest =>
      match NumericComponent file with
      | (_, Some err) => inr err
      | (v, None) =>
          if keep v
          then collect_sql keep rest (h ++ [file_migration v file]) (ms ++ [length h])
          else collect_sql keep rest h ms
      end
  end.

(** The loop over the registry; [order] lists its values in the order
    in which [range] visits the map. *)
Fixpoint collect_registered (keep : Z → bool) (order : list ptr) (h : Heap) (ms : Migrations)
    : result ((Heap * Migrations) + error) :=
  match order with
  | [] => Ok (inl (h, ms))
  | p :: rest =>
      m ←! load h p;
      match NumericComponent (Source m) with
      | (_, Some err) => Ok (inr err)
      | (v, None) =>
          if keep v
          then collect_registered keep rest h (ms ++ [p])
          else collect_registered keep rest h ms
      end
  end.

(** The loop over the Go files: a name without a version is skipped, and
    so is a version that the registry holds. *)
Fixpoint collect_go (keep : Z → bool) (reg : gmap Z ptr) (files : list string)
    (h : Heap) (ms : Migrations) : Heap * Migrations :=
  match files with
  | [] => (h, ms)
  | file :: rest =>
      match NumericComponent file with
      | (_, Some _) => collect_go keep reg rest h ms
      | (v, None) =>
          match reg !! v with
          | Some _ => collect_go keep reg rest h ms
          | None =>
              if keep v
              then collect_go keep reg rest (h ++ [file_migration v file]) (ms ++ [length h])
              else collect_go keep reg rest h ms
          end
      end
  end.

(** The body that [CollectMigrations] and [CollectAllMigrations] share;
    they differ in the filter and in the sequencer. *)
Definition collect (keep : Z → bool)
    (sequence : Heap → Migrations → result (Heap * Migrations))
    (dirpath : string) (dir : Dir) (r : Registry) (order : list ptr)
    : result ((Heap * Migrations) + error) :=
  if dir_missing dir
  then Ok (inr (ErrNew (dirpath +:+ " directory does not exists")))
  else
    match sql_glob dir with
    | inr err => Ok (inr err)
    | inl sqlMigrationFiles =>
        match collect_sql keep sqlMigrationFiles (reg_heap r) [] with
        | inr err => Ok (inr err)
        | inl (h, ms) =>
            c ←! collect_registered keep order h ms;
            match c with
            | inr err => Ok (inr err)
            | inl (h, ms) =>
                match go_glob dir with
                | inr err => Ok (inr err)
                | inl goMigrationFiles =>
                    let '(h, ms) := collect_go keep (reg_map r) goMigrationFiles h ms in
                    '(h, ms) ←! sequence h ms;
                    Ok (inl (h, ms))
                end
            end
        end
    end.

Definition CollectMigrations (dirpath : string) (dir : Dir) (r : Registry)
    (order : list ptr) (current target : Z) : result ((Heap * Migrations) + error) :=
  collect (fun v => versionFilter v current target) sortAndConnectMigrations
          dirpath dir r order.

Definition CollectAllMigrations (dirpath : string) (dir : Dir) (r : Registry)
    (order : list ptr) (applied : gmap Z bool) (current target : Z)
    : result ((Heap * Migrations) + error) :=
  collect (fun v => unappliedVersionFilter v current target (applied_at applied v))
          (fun h ms => sortAndConnectAllMigrations h ms applied)
          dirpath dir r order.

(** ** The apply loops, up.go lines 9-40 and 128-153 *)

(** The database as the loops reach it: the history query of the dialect
    and the effect of [createVersionTable] when that query fails. *)
Record Database := mkDatabase {
  db_query : World → QueryResult;
  db_create : World → World * option error
}.

(** [GetDBVersion(db)]: the version and error it returns, and the
    database afterwards. *)
Definition GetDBVersion_on (db : Database) (w : World) : World * (Z * option error) :=
  match db_query db w with
  | QueryErr e => let '(w', created) := db_create db w in (w', GetDBVersion (QueryErr e) created)
  | QueryRows rows rows_err => (w, GetDBVersion (QueryRows rows rows_err) None)
  end.

(** How the loop of [UpTo] ends: [Next] reported [ErrNoNextVersion], or
    some call failed. *)
Inductive LoopEnd :=
| NothingLeft
| Stopped (e : error).

(** The [for] loop of [UpTo] and [UpAll] over collected migrations.
    [ds n] holds the collaborators of the n-th execution; [None] means
    that the loop is still running when the fuel is used up. *)
Fixpoint apply_loop (fuel : nat) (db : Database) (ds : nat → Driver) (n : nat)
    (h : Heap) (ms : Migrations) (w : World) : option (result (World * LoopEnd)) :=
  match fuel with
  | O => None
  | S fuel' =>
      let '(w, (current, err)) := GetDBVersion_on db w in
      match err with
      | Some e => Some (Ok (w, Stopped e))
      | None =>
          match MNext h ms current with
          | Panic p => Some (Panic p)
          | Ok (inr e) =>
              Some (Ok (w, if decide (e = ErrNoNextVersion) then NothingLeft else Stopped e))
          | Ok (inl next) =>
              match load h next with
              | Panic p => Some (Panic p)
              | Ok m =>
                  let '(w', r) := Up (ds n) m w in
                  match r with
                  | Some e => Some (Ok (w', Stopped e))
                  | None => apply_loop fuel' db ds (S n) h ms w'
                  end
              end
          end
      end
  end.

(** [UpTo] once the migrations are collected. *)
Definition UpTo_collected (fuel : nat) (db : Database) (ds : nat → Driver)
    (h : Heap) (ms : Migrations) (w : World) : option (result (World * option error)) :=
  match apply_loop fuel db ds 0 h ms w with
  | None => None
  | Some (Panic p) => Some (Panic p)
  | Some (Ok (w', NothingLeft)) => Some (Ok (w', None))
  | Some (Ok (w', Stopped e)) => Some (Ok (w', Some e))
  end.

(** [UpTo]: collect between [minVersion] and [version], then loop.  The
    constant [minVersion] is declared outside these files. *)
Definition UpTo (minVersion : Z) (fuel : nat) (db : Database) (ds : nat → Driver)
    (dirpath : string) (dir : Dir) (r : Registry) (order : list ptr) (version : Z)
    (w : World) : option (result (World * option error)) :=
  match CollectMigrations dirpath dir r order minVersion version with
  | Panic p => Some (Panic p)
  | Ok (inr e) => Some (Ok (w, Some e))
  | Ok (inl (h, ms)) => UpTo_collected fuel db ds h ms w
  end.

(** [UpByOne] once the migrations are collected: one step, and the error
    of [Next] is returned whatever it is. *)
Definition UpByOne_collected (db : Database) (d : Driver) (h : Heap) (ms : Migrations)
    (w : World) : result (World * option error) :=
  let '(w, (currentVersion, err)) := GetDBVersion_on db w in
  match err with
  | Some e => Ok (w, Some e)
  | None =>
      next ←! MNext h ms currentVersion;
      match next with
      | inr e => Ok (w, Some e)
      | inl next =>
          m ←! load h next;
          Ok (Up d m w)
      end
  end.

Definition UpByOne (minVersion maxVersion : Z) (db : Database) (d : Driver)
    (dirpath : string) (dir : Dir) (r : Registry) (order : list ptr) (w : World)
    : result (World * option error) :=
  c ←! CollectMigrations dirpath dir r order minVersion maxVersion;
  match c with
  | inr e => Ok (w, Some e)
  | inl (h, ms) => UpByOne_collected db d h ms w
  end.

(** ** Specification-side notions used in the statements below *)

(** The maximal run of decimal digits a name starts with. *)
Definition leading_digits (s : string) : string :=
  Go.of_bytes (Go.take_while Go.is_digit (Go.to_bytes s)).

(** The number a run of decimal digits denotes. *)
Definition dec_value (bs : list ascii) : Z :=
  fold_left (fun n c => n * 10 + Go.digit_val c) bs 0.

Definition dec_from (n : Z) (bs : list ascii) : Z :=
  fold_left (fun n c => n * 10 + Go.digit_val c) bs n.

Definition all_digits (bs : list ascii) : Prop := Forall (fun c => Go.is_digit c = true) bs.

(** The version read through a pointer ([0] stands in for a pointer that
    refers to nothing), and the versions a slice points to, in slice
    order. *)
Definition vkey (h : Heap) (p : ptr) : Z :=
  match h !! p with
  | Some m => Version m
  | None => 0
  end.

Definition versions_of (h : Heap) (ms : Migrations) : list Z := vkey h <$> ms.

(** Every pointer of the slice refers to a record of the store. *)
Definition valid_ptrs (h : Heap) (ms : Migrations) : Prop :=
  Forall (fun p => is_Some (h !! p)) ms.

(** What the links of a record are, read through a pointer. *)
Definition links_of (h : Heap) (p : ptr) : option (Z * Z * Z) :=
  (fun m => (Version m, Previous m, Next m)) <$> h !! p.

(** The result of a sequencer as a reader sees it: for each element of
    the returned slice, in order, its version, previous and next. *)
Definition linked_view (r : result (Heap * Migrations)) : option (list (Z * Z * Z)) :=
  match r with
  | Ok (h, ms) => Some (omap (links_of h) ms)
  | Panic _ => None
  end.

(** The links of a simple path through the given versions: each element
    has the version before it as previous and the version after it as
    next, with [-1] at both ends. *)
Fixpoint chain_from (prev : Z) (vs : list Z) : list (Z * Z * Z) :=
  match vs with
  | [] => []
  | v :: rest =>
      (v, prev, match rest with [] => -1 | n :: _ => n end) :: chain_from v rest
  end.

Definition chain (vs : list Z) : list (Z * Z * Z) := chain_from (-1) vs.

(** A version has a rollback among the given records. *)
Definition rolled_back_in (pre : list MigrationRecord) (v : Z) : Prop :=
  ∃ r, r ∈ pre ∧ VersionID r = v ∧ IsApplied r = false.

(** Every applied record of [rows] is superseded: its version is in the
    skip-list already or has a rollback earlier in [rows]. *)
Definition all_superseded (skip : list Z) (rows : list MigrationRecord) : Prop :=
  ∀ pre1 r1 pre2, rows = pre1 ++ r1 :: pre2 → IsApplied r1 = true →
    VersionID r1 ∈ skip ∨ rolled_back_in pre1 (VersionID r1).

Definition underscore : ascii := "_"%char.

(** The text [lead] is a decimal integer literal for [n]: an optional
    sign, a non-empty run of digits, and a value within int64. *)
Definition int_literal (lead : list ascii) (n : Z) : Prop :=
  ∃ sign digits,
    lead = sign ++ digits ∧
    (sign = [] ∨ sign = ["+"%char] ∨ sign = ["-"%char]) ∧
    digits ≠ [] ∧ all_digits digits ∧
    n = (if decide (sign = ["-"%char]) then - dec_value digits else dec_value digits) ∧
    int64_min ≤ n ≤ int64_max.

(** The text starts with a run of decimal digits whose value exceeds the
    largest unsigned 64-bit number. *)
Definition digits_exceed (u : list ascii) : Prop :=
  ∃ digits tail, u = digits ++ tail ∧ all_digits digits ∧ uint64_max < dec_value digits.

(** The unsigned text [u] is out of range for the sign: it starts with
    digits whose value exceeds the largest unsigned 64-bit number, or it
    consists of digits whose value exceeds what the sign allows, 2^63-1
    without a minus sign and 2^63 with one. *)
Definition out_of_range (neg : bool) (u : list ascii) : Prop :=
  digits_exceed u ∨
  (all_digits u ∧ (if neg then 2 ^ 63 else int64_max) < dec_value u).

(** The text before the separator is out of range: below for [neg], a
    minus sign and unsigned text out of range for it; above otherwise,
    unsigned text out of range behind an optional plus sign. *)
Definition lead_out_of_range (neg : bool) (lead : list ascii) : Prop :=
  ∃ u, (if neg then lead = "-"%char :: u else lead = u ∨ lead = "+"%char :: u) ∧
       out_of_range neg u.

(** The nearest int64 bound on either side. *)
Definition int64_bound (neg : bool) : Z := if neg then int64_min else int64_max.

Definition recognised_ext (base : string) : Prop :=
  Go.Ext base = ".go"%string ∨ Go.Ext base = ".sql"%string.

Global Instance recognised_ext_dec (base : string) : Decision (recognised_ext base).
Proof. unfold recognised_ext. apply _. Defined.

(** Two stores of the same size whose records carry the same versions. *)
Definition same_versions (h h' : Heap) : Prop :=
  length h' = length h ∧ ∀ p : ptr, vkey h' p = vkey h p.

(** The applied and the unapplied pointers of a slice, in slice order. *)
Definition applied_part (h : Heap) (applied : gmap Z bool) (ms : Migrations) : Migrations :=
  filter (fun p => applied_at applied (vkey h p) = true) ms.

Definition unapplied_part (h : Heap) (applied : gmap Z bool) (ms : Migrations) : Migrations :=
  filter (fun p => applied_at applied (vkey h p) ≠ true) ms.

(** The parser's out-of-range error. *)
Definition is_range_error (e : error) : bool :=
  match e with
  | ErrNum _ _ ErrRange => true
  | _ => false
  end.

(** The first record of version [v] in [rows] has its applied-flag set. *)
Definition first_record_applied (rows : list MigrationRecord) (v : Z) : Prop :=
  ∃ pre r post, rows = pre ++ r :: post ∧ VersionID r = v ∧ IsApplied r = true ∧
                ∀ r', r' ∈ pre → VersionID r' ≠ v.

(** Every key of the registry points to a registered record of that
    version. *)
Definition registry_wf (r : Registry) : Prop :=
  ∀ v p, reg_map r !! v = Some p →
    ∃ m, reg_heap r !! p = Some m ∧ Version m = v ∧ Registered m = true.

(** The previous and next links read through a pointer ([0] stands in
    for a pointer that refers to nothing). *)
Definition pkey (h : Heap) (p : ptr) : Z :=
  match h !! p with
  | Some m => Previous m
  | None => 0
  end.

Definition nkey (h : Heap) (p : ptr) : Z :=
  match h !! p with
  | Some m => Next m
  | None => 0
  end.

(** Two records whose row identifiers and versions are not ordered
    against each other. *)
Definition consistent_pair (a b : MigrationRecord) : Prop :=
  ¬ (ID b < ID a ∧ VersionID a < VersionID b) ∧
  ¬ (ID a < ID b ∧ VersionID b < VersionID a).

(** Every record and its successor are a consistent pair. *)
Definition adjacent_consistent (rows : list MigrationRecord) : Prop :=
  ∀ i a b, rows !! i = Some a → rows !! S i = Some b → consistent_pair a b.

(** What a record says about its migration: version and applied-flag. *)
Definition payload (r : MigrationRecord) : Z * bool := (VersionID r, IsApplied r).

(** The table holds a record under the identifier of [r] with the
    payload of [r]. *)
Definition mirrors (t : Table) (r : MigrationRecord) : Prop :=
  ∃ r', r' ∈ t ∧ ID r' = ID r ∧ payload r' = payload r.

(** The table after the two statements of [swapRows] have run. *)
Definition swapped (rd : RepairDriver) (t : Table) (a b : MigrationRecord) : Table :=
  update_row rd
    (update_row rd t (ID b) (VersionID a) (IsApplied a) (TStamp a))
    (ID a) (VersionID b) (IsApplied b) (TStamp b).

(** The pointers are valid and every record they point to carries the
    version that its source yields. *)
Definition sources_agree (h : Heap) (order : list ptr) : Prop :=
  Forall (fun p => ∃ m, h !! p = Some m ∧ Version m = fst (NumericComponent (Source m))) order.

(** A file name from which a version can be extracted. *)
Definition parses (file : string) : Prop := snd (NumericComponent file) = None.

(** The versions for which the calls made insert an applied record, in
    the order of the calls. *)
Definition inserted (evs : list Event) : list Z :=
  omap (fun e => match e with EvInsertVersion v true => Some v | _ => None end) evs.

(** The history query answers with the rows of the table, newest row
    identifier first, and without error. *)
Definition query_newest_first (db : Database) : Prop :=
  ∀ w, ∃ rows, db_query db w = QueryRows (ScanOk <$> rows) None ∧
               rows ≡ₚ committed w ∧
               StronglySorted (fun a b => ID b ≤ ID a) rows.

(** The insert statement adds one record of the given version and flag
    under a row identifier above all those of the table. *)
Definition fresh_insert (d : Driver) : Prop :=
  ∀ v a t, ∃ r, insertVersionSQL d v a t ≡ₚ r :: t ∧
                VersionID r = v ∧ IsApplied r = a ∧ Forall (fun x => ID x < ID r) t.

(** Every call of the driver succeeds. *)
Definition driver_succeeds (d : Driver) : Prop :=
  begin_result d = None ∧ exec_result d = None ∧ commit_result d = None.

(** A registered Go migration whose forward function, if there is one,
    does not fail. *)
Definition runnable_go (m : Migration) : Prop :=
  Go.Ext (Source m) = ".go"%string ∧ Registered m = true ∧
  match UpFn m with
  | Some f => ∀ t, snd (f t) = None
  | None => True
  end.

(** Descending order of row identifiers, as a decidable relation. *)
Definition newer_first (a b : MigrationRecord) : Prop := ID b ≤ ID a.

Global Instance newer_first_dec : RelDecision newer_first.
Proof. intros a b. unfold newer_first. apply _. Defined.

(** Modelled from the spec: the dialect's history query, which is not
    part of these files; it returns the rows ordered descending by row
    identifier. *)
Definition spec_query (w : World) : QueryResult :=
  QueryRows (ScanOk <$> merge_sort newer_first (committed w)) None.

(** Text that [strconv.Quote] copies as it stands: printable ASCII
    characters other than the double quote and the backslash. *)
Definition plain_text (s : string) : Prop :=
  Forall (fun c => 32 ≤ Go.byte c ≤ 126 ∧ c ≠ Go.quote_char ∧ c ≠ Go.backslash)
         (Go.to_bytes s).

Global Instance plain_text_dec (s : string) : Decision (plain_text s).
Proof. unfold plain_text. apply _. Defined.

(** A file name whose base name has a recognised extension and, before
    its first underscore, a text out of range. *)
Definition name_out_of_range (neg : bool) (filename : string) : Prop :=
  recognised_ext (Go.Base filename) ∧
  ∃ lead rest, Go.to_bytes (Go.Base filename) = lead ++ underscore :: rest ∧
               (underscore ∉ lead) ∧ lead_out_of_range neg lead.

(** ** Concrete data for the examples *)

Module Sample.

Definition script (v : Z) (source : string) : Migration :=
  mkMigration v (-1) (-1) source false false None None.

(** Three script migrations as a collector creates them, in discovery
    order 2, 3, 1. *)
Definition heap3 : Heap :=
  [script 2 "2_b.sql"; script 3 "3_c.sql"; script 1 "1_a.sql"].

Definition slice3 : Migrations := [0; 1; 2]%nat.

(** Versions 1 and 3 are applied, version 2 is not. *)
Definition applied13 : gmap Z bool := {[ 1 := true; 3 := true ]}.

(** Versions 2 and 3 are applied, version 1 is not. *)
Definition applied23 : gmap Z bool := {[ 2 := true; 3 := true ]}.

(** Two script files that share version 3. *)
Definition heap_dup : Heap := [script 3 "3_c.sql"; script 3 "3_d.sql"].

Definition rolled_back_row : MigrationRecord := mkRecord 1 1 0 false.

Definition empty_registry : Registry := mkRegistry [] ∅.

(** A driver whose history write fails and whose other calls succeed. *)
Definition driver_exec_fails : Driver :=
  mkDriver None (Some (ErrDriver "boom")) None
           spec_insertVersion spec_deleteVersion (fun t _ _ _ => (t, None)).

Definition driver_ok : Driver :=
  mkDriver None None None
           spec_insertVersion spec_deleteVersion (fun t _ _ _ => (t, None)).

(** A driver whose script runner fails. *)
Definition driver_script_fails : Driver :=
  mkDriver None None None
           spec_insertVersion spec_deleteVersion
           (fun t _ _ _ => (t, Some (ErrDriver "syntax error"))).

Definition driver_commit_fails : Driver :=
  mkDriver None None (Some (ErrDriver "gone"))
           spec_insertVersion spec_deleteVersion (fun t _ _ _ => (t, None)).

Definition go_migration : Migration :=
  mkMigration 1 (-1) (-1) "001_a.go" true false
              (Some (fun t => (t, None))) (Some (fun t => (t, None))).

Definition readme : Migration :=
  mkMigration 4 (-1) (-1) "004_notes.txt" true false
              (Some (fun t => (t, Some (ErrNew "never called")))) None.

Definition world0 : World := mkWorld [mkRecord 1 0 0 true] [].

(** Tables of printable runes that list no rune above 0xFF; the names of
    the examples are ASCII text, for which the tables are not read. *)
Definition no_tables : Z → bool := fun _ => false.

(** A registered migration whose forward function fails. *)
Definition go_failing : Migration :=
  mkMigration 3 (-1) (-1) "db/3_c.go" true false
              (Some (fun t => (t, Some (ErrNew "boom")))) None.

(** The same with a backslash in the name of its source. *)
Definition go_failing_backslash : Migration :=
  mkMigration 3 (-1) (-1) "db/3_c\d.go" true false
              (Some (fun t => (t, Some (ErrNew "boom")))) None.

(** Versions 1, 2, 3 linked as one simple path, and the slice that
    holds them in ascending order. *)
Definition linked3 : Heap :=
  [mkMigration 2 3 1 "2_b.sql" false false None None;
   mkMigration 3 (-1) 2 "3_c.sql" false false None None;
   mkMigration 1 2 (-1) "1_a.sql" false false None None].

Definition sorted3 : Migrations := [2; 0; 1]%nat.

(** A repair in which every call succeeds and timestamps are kept. *)
Definition repair_ok : RepairDriver := mkRepairDriver None (fun _ => None) None (fun ts => ts).

(** Rows inserted out of version order: identifier 1 holds version 3,
    identifier 2 holds version 1. *)
Definition table_out_of_order : Table := [mkRecord 1 3 10 true; mkRecord 2 1 20 true].

Definition table_in_order : Table := [mkRecord 1 1 10 true; mkRecord 2 3 20 true].

(** A directory with two scripts and one Go file that carries no
    version. *)
Definition dir2 : Dir :=
  mkDir false (inl ["db/1_a.sql"; "db/2_b.sql"]) (inl ["db/helpers.go"]).

(** A directory in which one script has no version. *)
Definition dir_bad_script : Dir :=
  mkDir false (inl ["db/1_a.sql"; "db/readme.sql"; "db/2_b.sql"]) (inl []).

(** A registry that holds one function registered from a file without
    version. *)
Definition registry_unparsable : Registry :=
  mkRegistry [mkMigration 0 (-1) (-1) "helpers.go" true false None None] {[ 0 := 0%nat ]}.

(** A database whose history query answers with one applied record of
    the given version. *)
Definition db_at (v : Z) : Database :=
  mkDatabase (fun _ => QueryRows [ScanOk (mkRecord 1 v 0 true)] None)
             (fun w => (w, None)).

(** A database read through the query modelled from the spec. *)
Definition spec_db : Database := mkDatabase spec_query (fun w => (w, None)).

(** Two registered Go migrations, versions 1 and 2, linked as a path. *)
Definition go_linked2 : Heap :=
  [mkMigration 1 2 (-1) "db/1_a.go" true false (Some (fun t => (t, None))) None;
   mkMigration 2 (-1) 1 "db/2_b.go" true false None None].

Definition go_slice2 : Migrations := [0; 1]%nat.

End Sample.

(** * Properties *)

(** ** The version filters *)

(** C3: [versionFilter] selects exactly the half-open interval
    (current, target] when target > current and (target, current] when
    target < current, and nothing when the two bounds are equal. *)
Theorem versionFilter_intervals (v current target : Z) :
  (versionFilter v current target = true ↔
     (target > current ∧ current < v ∧ v ≤ target) ∨
     (target < current ∧ target < v ∧ v ≤ current)) ∧
  versionFilter v current current = false.
Proof.
  unfold versionFilter. split.
  - destruct (Z.ltb_spec current target), (Z.ltb_spec target current);
      rewrite ?andb_true_iff, ?Z.ltb_lt, ?Z.leb_le;
      (split; [try discriminate; lia | lia]).
  - by rewrite Z.ltb_irrefl.
Qed.

(** C6: [unappliedVersionFilter] keeps every unapplied version whatever
    the bounds; it keeps an applied version exactly when target > current
    and current < v <= target, so never when target <= current. *)
Theorem unappliedVersionFilter_spec (v current target : Z) :
  unappliedVersionFilter v current target false = true ∧
  (unappliedVersionFilter v current target true = true ↔
     target > current ∧ current < v ∧ v ≤ target) ∧
  (target ≤ current → unappliedVersionFilter v current target true = false).
Proof.
  unfold unappliedVersionFilter; simpl. split; [done|]. split.
  - destruct (Z.ltb_spec current target);
      rewrite ?andb_true_iff, ?Z.ltb_lt, ?Z.leb_le;
      (split; [try discriminate; lia | lia]).
  - intros H. destruct (Z.ltb_spec current target); [lia | done].
Qed.

Lemma unappliedVersionFilter_spec_witness :
  unappliedVersionFilter 5 7 3 true = false.
Proof.
  apply (proj2 (proj2 (unappliedVersionFilter_spec 5 7 3))). lia.
Defined.

(** ** Navigation *)

Lemma Current_absent (h : Heap) (ms : Migrations) (current : Z) :
  valid_ptrs h ms →
  current ∉ versions_of h ms →
  Current h ms current = Ok (inr ErrNoCurrentVersion).
Proof.
  induction ms as [|p ms IH]; intros Hv Hn; [done|].
  apply Forall_cons in Hv as [[m Hm] Hv].
  unfold versions_of in Hn. rewrite fmap_cons in Hn.
  apply not_elem_of_cons in Hn as [Hne Hn].
  unfold vkey in Hne. simpl. unfold load. rewrite Hm in *. simpl.
  destruct (Z.eqb_spec (Version m) current); [congruence|].
  by apply IH.
Qed.

(** C8: [Next(0)] returns element 0 of a non-empty slice whatever the
    store holds, panics with an index out of range on the empty slice,
    and for a non-zero version that no element carries returns the
    no-current-version error. *)
Theorem Next_zero_and_absent (h : Heap) (p : ptr) (ms : Migrations) (current : Z) :
  MNext h (p :: ms) 0 = Ok (inl p) ∧
  MNext h [] 0 = Panic PanicIndex ∧
  (current ≠ 0 → valid_ptrs h ms → current ∉ versions_of h ms →
   MNext h ms current = Ok (inr ErrNoCurrentVersion)).
Proof.
  split; [done|]. split; [done|].
  intros Hc Hv Hn. unfold MNext.
  destruct (Z.eqb_spec current 0); [done|].
  by rewrite Current_absent.
Qed.

Lemma Next_zero_and_absent_witness :
  MNext Sample.heap3 Sample.slice3 7 = Ok (inr ErrNoCurrentVersion).
Proof.
  apply (proj2 (proj2 (Next_zero_and_absent Sample.heap3 0%nat Sample.slice3 7))).
  - lia.
  - unfold valid_ptrs, Sample.slice3, Sample.heap3.
    repeat constructor; eexists; reflexivity.
  - unfold versions_of, Sample.slice3, Sample.heap3. simpl.
    unfold vkey. simpl. intros H. repeat (apply elem_of_cons in H as [H|H]; [discriminate H|]).
    by apply elem_of_nil in H.
Defined.

(** ** Executing a migration of an unrecognised kind *)

(** C9: a migration whose source has an extension other than [.sql] and
    [.go] is executed as a no-op: [run], [Up] and [Down] return no error,
    issue no call and leave the history table as it was. *)
Theorem run_unrecognised_kind (d : Driver) (m : Migration) (w : World) (direction : bool) :
  Go.Ext (Source m) ≠ ".sql"%string →
  Go.Ext (Source m) ≠ ".go"%string →
  run d m w direction = (w, None) ∧ Up d m w = (w, None) ∧ Down d m w = (w, None).
Proof.
  intros Hsql Hgo. unfold Up, Down, run.
  rewrite !bool_decide_eq_false_2 by done. done.
Qed.

Lemma run_unrecognised_kind_witness :
  run Sample.driver_ok Sample.readme Sample.world0 true = (Sample.world0, None) ∧
  Up Sample.driver_ok Sample.readme Sample.world0 = (Sample.world0, None) ∧
  Down Sample.driver_ok Sample.readme Sample.world0 = (Sample.world0, None).
Proof.
  apply (run_unrecognised_kind Sample.driver_ok Sample.readme Sample.world0 true).
  - vm_compute. discriminate.
  - vm_compute. discriminate.
Defined.

(** ** Sorting *)

Section Sorting.

Variable h : Heap.

Lemma load_valid (p : ptr) :
  is_Some (h !! p) → ∃ m, h !! p = Some m ∧ load h p = Ok m ∧ Version m = vkey h p.
Proof.
  intros [m Hm]. exists m. unfold load, vkey. by rewrite Hm.
Qed.

Lemma Less_eval (ms : Migrations) (i j : nat) (pi pj : ptr) :
  ms !! i = Some pi → ms !! j = Some pj →
  is_Some (h !! pi) → is_Some (h !! pj) →
  (vkey h pi = vkey h pj → is_duplicate_panic (Less h ms i j) = true) ∧
  (vkey h pi ≠ vkey h pj → Less h ms i j = Ok (vkey h pi <? vkey h pj)).
Proof.
  intros Hi Hj Hpi Hpj.
  destruct (load_valid pi Hpi) as (mi & _ & Hli & Hvi).
  destruct (load_valid pj Hpj) as (mj & _ & Hlj & Hvj).
  unfold Less, at_index. rewrite Hi, Hj. simpl. rewrite Hli. simpl.
  rewrite Hlj. simpl. rewrite Hvi, Hvj.
  destruct (Z.eqb_spec (vkey h pi) (vkey h pj)); split; intros; done.
Qed.

Lemma Swap_adjacent (pre post : Migrations) (y x : ptr) :
  Swap (pre ++ y :: x :: post) (S (length pre)) (length pre)
  = Ok (pre ++ x :: y :: post).
Proof.
  assert (Hx : (pre ++ y :: x :: post) !! S (length pre) = Some x).
  { rewrite lookup_app_r by lia.
    by replace (S (length pre) - length pre)%nat with 1%nat by lia. }
  assert (Hy : (pre ++ y :: x :: post) !! length pre = Some y).
  { by apply list_lookup_middle. }
  unfold Swap, at_index. rewrite Hx. cbn [rbind]. rewrite Hy. cbn [rbind].
  f_equal.
  rewrite (insert_app_r_alt pre _ (S (length pre))) by lia.
  replace (S (length pre) - length pre)%nat with 1%nat by lia. cbn [insert list_insert].
  rewrite insert_app_r_alt by lia.
  by replace (length pre - length pre)%nat with 0%nat by lia.
Qed.

(** One pass of the inner loop: the element at the end of a sorted
    prefix either meets an equal version, or sinks to its place. *)
Lemma insert_down_spec (pre : Migrations) : ∀ (x : ptr) (post : Migrations),
  valid_ptrs h (pre ++ x :: post) →
  StronglySorted Z.lt (versions_of h pre) →
  (vkey h x ∈ versions_of h pre →
   is_duplicate_panic (insert_down h (pre ++ x :: post) (length pre)) = true) ∧
  (vkey h x ∉ versions_of h pre →
   ∃ l1 l2, pre = l1 ++ l2 ∧
     insert_down h (pre ++ x :: post) (length pre) = Ok (l1 ++ x :: l2 ++ post) ∧
     Forall (fun p => vkey h p < vkey h x) l1 ∧
     Forall (fun p => vkey h x < vkey h p) l2).
Proof.
  induction pre as [|y pre' IH] using rev_ind; intros x post Hv Hs.
  - split; [intros H; by apply elem_of_nil in H|].
    intros _. exists [], []. simpl. by repeat split.
  - unfold versions_of in *. rewrite fmap_app in *. simpl in *.
    rewrite length_app. simpl.
    replace (length pre' + 1)%nat with (S (length pre')) by lia. simpl.
    rewrite <- app_assoc in *. simpl in *.
    assert (Hy : is_Some (h !! y)).
    { unfold valid_ptrs in Hv. rewrite Forall_app, Forall_cons in Hv. tauto. }
    assert (Hx : is_Some (h !! x)).
    { unfold valid_ptrs in Hv. rewrite Forall_app, !Forall_cons in Hv. tauto. }
    assert (Hlx : (pre' ++ y :: x :: post) !! S (length pre') = Some x).
    { rewrite lookup_app_r by lia.
      by replace (S (length pre') - length pre')%nat with 1%nat by lia. }
    assert (Hly : (pre' ++ y :: x :: post) !! length pre' = Some y).
    { by apply list_lookup_middle. }
    destruct (Less_eval _ _ _ _ _ Hlx Hly Hx Hy) as [Heq Hne].
    apply StronglySorted_app in Hs as (Hlt & Hs1 & _).
    destruct (Z.eq_dec (vkey h x) (vkey h y)) as [E|NE].
    + specialize (Heq E).
      destruct (Less h (pre' ++ y :: x :: post) (S (length pre')) (length pre'))
        as [b|[]]; try done.
      split; [done|]. intros Hn. exfalso. apply Hn.
      rewrite elem_of_app, E. right. apply list_elem_of_singleton. done.
    + rewrite (Hne NE). simpl.
      destruct (Z.ltb_spec (vkey h x) (vkey h y)) as [Hlt'|Hge].
      * rewrite Swap_adjacent. simpl.
        assert (Hv' : valid_ptrs h (pre' ++ x :: y :: post)).
        { unfold valid_ptrs in *. rewrite Forall_app, !Forall_cons in *. tauto. }
        destruct (IH x (y :: post) Hv' Hs1) as [IHdup IHok].
        split.
        -- intros Hin. apply IHdup.
           apply elem_of_app in Hin as [Hin|Hin]; [done|].
           apply list_elem_of_singleton in Hin. done.
        -- intros Hn.
           destruct IHok as (l1 & l2 & -> & Hr & H1 & H2).
           { intros Hin. apply Hn, elem_of_app. by left. }
           exists l1, (l2 ++ [y]). split; [by rewrite app_assoc|].
           split; [by rewrite Hr, <- app_assoc|].
           split; [done|]. apply Forall_app. split; [done|].
           by apply Forall_singleton.
      * split.
        -- intros Hin. exfalso.
           apply elem_of_app in Hin as [Hin|Hin].
           ++ assert (vkey h x < vkey h y); [|lia].
              apply Hlt; [done|by apply list_elem_of_singleton].
           ++ apply list_elem_of_singleton in Hin. done.
        -- intros _. exists (pre' ++ [y]), []. simpl.
           split; [by rewrite app_nil_r|].
           split; [by rewrite <- app_assoc|].
           split; [|done]. apply Forall_app. split.
           ++ apply Forall_forall. intros p Hp.
              assert (vkey h p < vkey h y); [|lia].
              apply Hlt; [by apply list_elem_of_fmap_2|by apply list_elem_of_singleton].
           ++ apply Forall_singleton. lia.
Qed.

Lemma StronglySorted_lt_NoDup (l : list Z) : StronglySorted Z.lt l → NoDup l.
Proof.
  induction 1 as [|a l Hs IH Ha]; constructor; [|done].
  intros Hin. rewrite Forall_forall in Ha. specialize (Ha a Hin). lia.
Qed.

Lemma sunk_sorted (l1 l2 : Migrations) (x : ptr) :
  StronglySorted Z.lt (versions_of h (l1 ++ l2)) →
  Forall (fun p => vkey h p < vkey h x) l1 →
  Forall (fun p => vkey h x < vkey h p) l2 →
  StronglySorted Z.lt (versions_of h (l1 ++ x :: l2)).
Proof.
  unfold versions_of. rewrite !fmap_app, fmap_cons.
  intros Hs H1 H2. apply StronglySorted_app in Hs as (Hlt & Hs1 & Hs2).
  rewrite Forall_forall in H1, H2.
  apply StronglySorted_app_2; [|done|].
  - intros a b Ha Hb. apply list_elem_of_fmap in Ha as (p & -> & Hp).
    apply elem_of_cons in Hb as [->|Hb]; [by apply H1|].
    apply Hlt; [by apply list_elem_of_fmap_2|done].
  - apply StronglySorted_cons. split; [|done].
    apply Forall_forall. intros b Hb.
    apply list_elem_of_fmap in Hb as (p & -> & Hp). by apply H2.
Qed.

Lemma sunk_perm (l1 l2 rest : Migrations) (x : ptr) :
  (l1 ++ x :: l2) ++ rest ≡ₚ (l1 ++ l2) ++ x :: rest.
Proof.
  rewrite <- !app_assoc. apply Permutation_app_head. simpl.
  apply Permutation_middle.
Qed.

(** The outer loop, started behind a sorted prefix. *)
Lemma insertion_from_spec (rest : Migrations) : ∀ (pre : Migrations),
  valid_ptrs h (pre ++ rest) →
  StronglySorted Z.lt (versions_of h pre) →
  (NoDup (versions_of h (pre ++ rest)) →
   ∃ ms', insertion_from h (pre ++ rest) (length pre) (length rest) = Ok ms' ∧
          ms' ≡ₚ pre ++ rest ∧
          StronglySorted Z.lt (versions_of h ms')) ∧
  (¬ NoDup (versions_of h (pre ++ rest)) →
   is_duplicate_panic (insertion_from h (pre ++ rest) (length pre) (length rest)) = true).
Proof.
  induction rest as [|x rest IH]; intros pre Hv Hs.
  - rewrite app_nil_r. simpl. split.
    + intros _. by exists pre.
    + intros Hn. exfalso. by apply Hn, StronglySorted_lt_NoDup.
  - simpl.
    destruct (insert_down_spec pre x rest Hv Hs) as [Hdup Hok].
    destruct (decide (vkey h x ∈ versions_of h pre)) as [Hin|Hnin].
    + specialize (Hdup Hin).
      destruct (insert_down h (pre ++ x :: rest) (length pre)) as [?|[]]; try done.
      split; [|done]. intros Hnd. exfalso.
      unfold versions_of in Hnd. rewrite fmap_app, fmap_cons in Hnd.
      apply NoDup_app in Hnd as (_ & Hd & _).
      apply (Hd _ Hin). by left.
    + destruct (Hok Hnin) as (l1 & l2 & -> & Hr & H1 & H2).
      rewrite Hr. simpl.
      replace (l1 ++ x :: l2 ++ rest) with ((l1 ++ x :: l2) ++ rest)
        by (by rewrite <- app_assoc).
      replace (S (length (l1 ++ l2))) with (length (l1 ++ x :: l2))
        by (rewrite !length_app; simpl; lia).
      pose proof (sunk_perm l1 l2 rest x) as Hp.
      assert (Hv' : valid_ptrs h ((l1 ++ x :: l2) ++ rest)).
      { unfold valid_ptrs. by rewrite Hp. }
      destruct (IH (l1 ++ x :: l2) Hv' (sunk_sorted l1 l2 x Hs H1 H2)) as [IH1 IH2].
      assert (Hpv : versions_of h ((l1 ++ x :: l2) ++ rest)
                    ≡ₚ versions_of h ((l1 ++ l2) ++ x :: rest)).
      { unfold versions_of. by rewrite Hp. }
      split.
      * intros Hnd. rewrite <- Hpv in Hnd.
        destruct (IH1 Hnd) as (ms' & E & Hperm & Hsorted).
        exists ms'. split; [done|]. split; [|done]. by rewrite Hperm.
      * intros Hnd. apply IH2. by rewrite Hpv.
Qed.

(** [sort.Sort] on a slice of valid pointers: with pairwise distinct
    versions it yields the ascending arrangement of the same pointers;
    otherwise [Less] meets two equal versions and panics. *)
Lemma sort_Sort_spec (ms : Migrations) :
  valid_ptrs h ms →
  (NoDup (versions_of h ms) →
   ∃ ms', sort_Sort h ms = Ok ms' ∧ ms' ≡ₚ ms ∧
          StronglySorted Z.lt (versions_of h ms')) ∧
  (¬ NoDup (versions_of h ms) → is_duplicate_panic (sort_Sort h ms) = true).
Proof.
  intros Hv. unfold sort_Sort, Len. destruct ms as [|x rest].
  - simpl. split.
    + intros _. exists []. repeat split; [done|constructor].
    + intros Hn. exfalso. apply Hn. constructor.
  - replace (length (x :: rest) - 1)%nat with (length rest) by (simpl; lia).
    apply (insertion_from_spec rest [x]); [done|].
    unfold versions_of. simpl. repeat constructor.
Qed.

End Sorting.

(** ** Duplicate versions *)

Lemma AddNamedMigration_fresh (filename : string) (up down : option GoFn) (r : Registry) :
  let v := fst (NumericComponent filename) in
  reg_map r !! v = None →
  AddNamedMigration filename up down r
  = Ok (mkRegistry (reg_heap r ++ [mkMigration v (-1) (-1) filename true false up down])
                   (<[v := length (reg_heap r)]> (reg_map r))).
Proof.
  unfold AddNamedMigration. destruct (NumericComponent filename) as [v e]. simpl.
  by intros ->.
Qed.

Lemma AddNamedMigration_Ok_inv (filename : string) (up down : option GoFn) (r r' : Registry) :
  AddNamedMigration filename up down r = Ok r' →
  let v := fst (NumericComponent filename) in
  reg_map r !! v = None ∧
  r' = mkRegistry (reg_heap r ++ [mkMigration v (-1) (-1) filename true false up down])
                  (<[v := length (reg_heap r)]> (reg_map r)).
Proof.
  unfold AddNamedMigration. destruct (NumericComponent filename) as [v e]. simpl.
  destruct (reg_map r !! v) as [q|] eqn:E.
  - destruct (load _ q); discriminate.
  - intros [= <-]. done.
Qed.

Lemma AddNamedMigration_twice (f1 f2 : string) (up1 down1 up2 down2 : option GoFn)
    (r r' : Registry) :
  AddNamedMigration f1 up1 down1 r = Ok r' →
  fst (NumericComponent f2) = fst (NumericComponent f1) →
  AddNamedMigration f2 up2 down2 r' = Panic (PanicConflict f2 f1).
Proof.
  intros H Hv. apply AddNamedMigration_Ok_inv in H as [_ ->].
  unfold AddNamedMigration. destruct (NumericComponent f2) as [v2 e2].
  simpl in *. subst v2. rewrite lookup_insert_eq. unfold load.
  rewrite <- app_assoc. cbn [app]. rewrite list_lookup_middle by done. done.
Qed.

Lemma shared_version_not_NoDup (h : Heap) (ms : Migrations) (i j : nat) (pi pj : ptr) :
  i ≠ j → ms !! i = Some pi → ms !! j = Some pj → vkey h pi = vkey h pj →
  ¬ NoDup (versions_of h ms).
Proof.
  intros Hij Hi Hj Hk Hnd. apply Hij.
  eapply (proj1 (NoDup_alt _) Hnd i j (vkey h pi)); unfold versions_of;
    rewrite list_lookup_fmap; [by rewrite Hi | by rewrite Hj, Hk].
Qed.

(** C5: two migrations that share a version raise a panic, not an error
    value: a second registration whose file name yields the version of an
    earlier one panics in [AddNamedMigration], and ordering a slice in
    which two positions carry the same version panics in [Less], hence
    in [sort.Sort] and in both sequencers. *)
Theorem duplicate_version_panics
    (f1 f2 : string) (up1 down1 up2 down2 : option GoFn) (r r' : Registry)
    (h : Heap) (ms : Migrations) (i j : nat) (pi pj : ptr) (applied : gmap Z bool) :
  (AddNamedMigration f1 up1 down1 r = Ok r' →
   fst (NumericComponent f2) = fst (NumericComponent f1) →
   AddNamedMigration f2 up2 down2 r' = Panic (PanicConflict f2 f1)) ∧
  (valid_ptrs h ms → i ≠ j → ms !! i = Some pi → ms !! j = Some pj →
   vkey h pi = vkey h pj →
   is_duplicate_panic (Less h ms i j) = true ∧
   is_duplicate_panic (sort_Sort h ms) = true ∧
   is_duplicate_panic (sortAndConnectMigrations h ms) = true ∧
   is_duplicate_panic (sortAndConnectAllMigrations h ms applied) = true).
Proof.
  split; [apply AddNamedMigration_twice|].
  intros Hv Hij Hi Hj Hk.
  assert (Hpi : is_Some (h !! pi)).
  { unfold valid_ptrs in Hv. rewrite Forall_forall in Hv.
    apply Hv. by eapply list_elem_of_lookup_2. }
  assert (Hpj : is_Some (h !! pj)).
  { unfold valid_ptrs in Hv. rewrite Forall_forall in Hv.
    apply Hv. by eapply list_elem_of_lookup_2. }
  split; [by apply (Less_eval h ms i j pi pj)|].
  assert (Hs : is_duplicate_panic (sort_Sort h ms) = true).
  { apply sort_Sort_spec; [done|]. by eapply shared_version_not_NoDup. }
  split; [done|].
  unfold sortAndConnectMigrations, sortAndConnectAllMigrations.
  destruct (sort_Sort h ms) as [?|[]]; done.
Qed.

Lemma duplicate_version_panics_witness :
  AddNamedMigration "7_again.go" None None
    (mkRegistry [mkMigration 7 (-1) (-1) "007_first.go" true false None None]
                {[ 7 := 0%nat ]})
  = Panic (PanicConflict "7_again.go" "007_first.go") ∧
  is_duplicate_panic (sort_Sort Sample.heap_dup [0; 1]%nat) = true.
Proof.
  pose proof (duplicate_version_panics "007_first.go" "7_again.go" None None None None
                Sample.empty_registry
                (mkRegistry [mkMigration 7 (-1) (-1) "007_first.go" true false None None]
                            {[ 7 := 0%nat ]})
                Sample.heap_dup [0; 1]%nat 0%nat 1%nat 0%nat 1%nat ∅) as [H1 H2].
  split.
  - apply H1; vm_compute; reflexivity.
  - apply H2; try reflexivity; try lia.
    unfold valid_ptrs, Sample.heap_dup. repeat constructor; eexists; reflexivity.
Defined.

(** ** Reconciling ordering *)

(** C1, at versions 1, 2, 3 with applied-set {1, 3} and with applied-set
    {2, 3}: the returned order is the applied versions ascending followed
    by the unapplied ones, but the applied part is not linked as a simple
    path.  The loop over the applied slice writes through the whole
    sorted slice, so with {1, 3} version 3 keeps previous [-1] instead of
    1, and with {2, 3} version 2 ends with previous 1 and next [-1]
    instead of [-1] and 3. *)
Theorem reconciling_links_interleaved :
  linked_view (sortAndConnectAllMigrations Sample.heap3 Sample.slice3 Sample.applied13)
  = Some [(1, -1, 3); (3, -1, 2); (2, 3, -1)] ∧
  chain [1; 3; 2] = [(1, -1, 3); (3, 1, 2); (2, 3, -1)] ∧
  linked_view (sortAndConnectAllMigrations Sample.heap3 Sample.slice3 Sample.applied23)
  = Some [(2, 1, -1); (3, -1, 1); (1, 3, -1)] ∧
  chain [2; 3; 1] = [(2, -1, 3); (3, 2, 1); (1, 3, -1)].
Proof. repeat split; vm_compute; reflexivity. Qed.

(** Where the applied versions all precede the unapplied ones the same
    input is linked as one simple path. *)
Example reconciling_links_prefix :
  linked_view (sortAndConnectAllMigrations Sample.heap3 Sample.slice3
                 {[ 1 := true; 2 := true ]})
  = Some (chain [1; 2; 3]).
Proof. vm_compute. reflexivity. Qed.

Example simple_links :
  linked_view (sortAndConnectMigrations Sample.heap3 Sample.slice3)
  = Some (chain [1; 2; 3]).
Proof. vm_compute. reflexivity. Qed.

(** *** The order returned by the reconciling sequencer *)

Section Reconciling.

Lemma same_versions_refl (h : Heap) : same_versions h h.
Proof. by split. Qed.

Lemma same_versions_trans (h1 h2 h3 : Heap) :
  same_versions h1 h2 → same_versions h2 h3 → same_versions h1 h3.
Proof.
  intros [L1 V1] [L2 V2]. split; [congruence|].
  intros p. by rewrite V2, V1.
Qed.

Lemma same_versions_valid (h h' : Heap) (p : ptr) :
  same_versions h h' → is_Some (h !! p) → is_Some (h' !! p).
Proof.
  intros [L _] H. apply lookup_lt_is_Some. rewrite L. by apply lookup_lt_is_Some.
Qed.

Lemma same_versions_valid_ptrs (h h' : Heap) (ms : Migrations) :
  same_versions h h' → valid_ptrs h ms → valid_ptrs h' ms.
Proof.
  intros Hs. unfold valid_ptrs. rewrite !Forall_forall.
  intros Hv p Hp. eapply same_versions_valid; [done|]. by apply Hv.
Qed.

Lemma store_ok (h : Heap) (p : ptr) (f : Migration → Migration) :
  is_Some (h !! p) → (∀ m, Version (f m) = Version m) →
  ∃ h', store h p f = Ok h' ∧ same_versions h h'.
Proof.
  intros [m Hm] Hf. unfold store. rewrite Hm. eexists. split; [done|].
  split; [by rewrite length_insert|].
  intros q. unfold vkey. destruct (decide (p = q)) as [<-|Hne].
  - rewrite list_lookup_insert_eq by (by eapply lookup_lt_Some). by rewrite Hm, Hf.
  - by rewrite list_lookup_insert_ne.
Qed.

Lemma at_index_ok (ms : Migrations) (i : nat) :
  (i < length ms)%nat → ∃ p, at_index ms i = Ok p ∧ ms !! i = Some p.
Proof.
  intros [p Hp]%lookup_lt_is_Some. exists p. unfold at_index. by rewrite Hp.
Qed.

Lemma valid_ptrs_lookup (h : Heap) (ms : Migrations) (i : nat) (p : ptr) :
  valid_ptrs h ms → ms !! i = Some p → is_Some (h !! p).
Proof.
  unfold valid_ptrs. rewrite Forall_forall. intros H Hi.
  apply H. by eapply list_elem_of_lookup_2.
Qed.

Lemma partition_applied_spec (h : Heap) (applied : gmap Z bool) (ms : Migrations) :
  ∀ am um, valid_ptrs h ms →
  partition_applied h applied ms am um
  = Ok (am ++ applied_part h applied ms, um ++ unapplied_part h applied ms).
Proof.
  unfold applied_part, unapplied_part.
  induction ms as [|p ms IH]; intros am um Hv; simpl.
  - by rewrite !app_nil_r.
  - apply Forall_cons in Hv as [Hp Hv].
    destruct (load_valid h p Hp) as (m & _ & -> & Hm). simpl. rewrite Hm.
    rewrite !filter_cons.
    destruct (applied_at applied (vkey h p)) eqn:E.
    + rewrite decide_True by done. rewrite decide_False by (by intros ?).
      rewrite IH by done. by rewrite <- app_assoc.
    + rewrite decide_False by done. rewrite decide_True by done.
      rewrite IH by done. by rewrite <- app_assoc.
Qed.

(** The linking loop writes links only: on valid pointers and indices
    within the indexed slice it ends without a panic and leaves every
    version as it was. *)
Lemma connect_loop_ok (indexed ranged : Migrations) : ∀ (h : Heap) (i : nat),
  valid_ptrs h indexed → valid_ptrs h ranged →
  (i + length ranged ≤ length indexed)%nat →
  ∃ h', connect_loop indexed h i ranged = Ok h' ∧ same_versions h h'.
Proof.
  induction ranged as [|m ranged IH]; intros h i Hvi Hvr Hlen.
  - exists h. split; [done|apply same_versions_refl].
  - apply Forall_cons in Hvr as [Hm Hvr]. simpl in Hlen.
    cbn [connect_loop].
    assert (∃ prev h1,
      (if (0 <? i)%nat
       then q ←! at_index indexed (i - 1); mq ←! load h q; mm ←! load h m;
            h' ←! store h q (fun x => set_Next x (Version mm)); Ok (Version mq, h')
       else Ok (-1, h)) = Ok (prev, h1) ∧ same_versions h h1)
      as (prev & h1 & -> & Hs1).
    { destruct (0 <? i)%nat eqn:Ei.
      - destruct (at_index_ok indexed (i - 1)) as (q & -> & Hq); [lia|].
        cbn [rbind].
        pose proof (valid_ptrs_lookup h indexed _ q Hvi Hq) as Hvq.
        destruct (load_valid h q Hvq) as (mq & _ & -> & _). cbn [rbind].
        destruct (load_valid h m Hm) as (mm & _ & -> & _). cbn [rbind].
        destruct (store_ok h q (fun x => set_Next x (Version mm)) Hvq)
          as (h' & -> & Hs); [done|].
        cbn [rbind]. by eexists _, _.
      - eexists _, _. split; [done|apply same_versions_refl]. }
    cbn [rbind].
    destruct (at_index_ok indexed i) as (pi & -> & Hpi); [lia|]. cbn [rbind].
    pose proof (valid_ptrs_lookup h indexed _ pi Hvi Hpi) as Hvpi.
    destruct (store_ok h1 pi (fun x => set_Previous x prev))
      as (h2 & -> & Hs2); [by eapply same_versions_valid|done|].
    cbn [rbind].
    pose proof (same_versions_trans _ _ _ Hs1 Hs2) as Hs.
    destruct (IH h2 (S i)) as (h' & -> & Hs'); [| |lia|].
    + by eapply same_versions_valid_ptrs.
    + by eapply same_versions_valid_ptrs.
    + exists h'. split; [done|]. by eapply same_versions_trans.
Qed.

Lemma filter_valid (h : Heap) (P : ptr → Prop) `{∀ p, Decision (P p)} (ms : Migrations) :
  valid_ptrs h ms → valid_ptrs h (filter P ms).
Proof.
  unfold valid_ptrs. rewrite !Forall_forall. intros Hv p Hp.
  apply list_elem_of_filter in Hp as [_ Hp]. by apply Hv.
Qed.

(** The order returned: the applied pointers in ascending version order,
    then the unapplied ones in ascending version order, with every
    version unchanged in the store. *)
Lemma sortAndConnectAll_order (h : Heap) (ms : Migrations) (applied : gmap Z bool) :
  valid_ptrs h ms → NoDup (versions_of h ms) →
  ∃ h' sorted,
    sort_Sort h ms = Ok sorted ∧ sorted ≡ₚ ms ∧
    StronglySorted Z.lt (versions_of h sorted) ∧
    sortAndConnectAllMigrations h ms applied
    = Ok (h', applied_part h applied sorted ++ unapplied_part h applied sorted) ∧
    same_versions h h'.
Proof.
  intros Hv Hnd.
  destruct (proj1 (sort_Sort_spec h ms Hv) Hnd) as (sorted & Hsort & Hperm & Hss).
  assert (Hvs : valid_ptrs h sorted) by (unfold valid_ptrs; by rewrite Hperm).
  unfold sortAndConnectAllMigrations. rewrite Hsort. simpl.
  rewrite partition_applied_spec by done. simpl.
  set (am := applied_part h applied sorted).
  set (um := unapplied_part h applied sorted).
  assert (Hva : valid_ptrs h am) by (by apply filter_valid).
  assert (Hvu : valid_ptrs h um) by (by apply filter_valid).
  assert (Hla : (length am ≤ length sorted)%nat) by apply length_filter.
  destruct (connect_loop_ok sorted am h 0) as (h1 & -> & Hs1); [done|done|lia|].
  simpl.
  destruct (connect_loop_ok um um h1 0) as (h2 & -> & Hs2);
    [by eapply same_versions_valid_ptrs|by eapply same_versions_valid_ptrs|lia|].
  simpl.
  pose proof (same_versions_trans _ _ _ Hs1 Hs2) as Hs12.
  destruct (length am =? 0)%nat eqn:Ea.
  { apply Nat.eqb_eq, nil_length_inv in Ea.
    exists h2, sorted. fold am um. rewrite Ea. done. }
  apply Nat.eqb_neq in Ea.
  destruct (length um =? 0)%nat eqn:Eu; simpl.
  { by exists h2, sorted. }
  apply Nat.eqb_neq in Eu.
  destruct (at_index_ok um 0) as (u0 & Hu0 & Hlu0); [lia|].
  destruct (at_index_ok am (length am - 1)) as (al & Hal & Hlal); [lia|].
  pose proof (valid_ptrs_lookup h um _ u0 Hvu Hlu0) as Hvu0.
  pose proof (valid_ptrs_lookup h am _ al Hva Hlal) as Hval.
  assert (∃ h3, (if (length um =? 1)%nat
                 then u0 ←! at_index um 0; store h2 u0 (fun x => set_Next x (-1))
                 else Ok h2) = Ok h3 ∧ same_versions h2 h3) as (h3 & -> & Hs3).
  { destruct (length um =? 1)%nat.
    - rewrite Hu0. simpl. apply store_ok; [by eapply same_versions_valid|done].
    - exists h2. split; [done|apply same_versions_refl]. }
  simpl. rewrite Hal, Hu0. simpl.
  pose proof (same_versions_trans _ _ _ Hs12 Hs3) as Hs123.
  destruct (load_valid h3 u0) as (mu & _ & -> & _); [by eapply same_versions_valid|].
  simpl.
  destruct (store_ok h3 al (fun x => set_Next x (Version mu)))
    as (h4 & -> & Hs4); [by eapply same_versions_valid|done|].
  simpl.
  pose proof (same_versions_trans _ _ _ Hs123 Hs4) as Hs1234.
  destruct (load_valid h4 al) as (mal & _ & -> & _); [by eapply same_versions_valid|].
  simpl.
  destruct (store_ok h4 u0 (fun x => set_Previous x (Version mal)))
    as (h5 & -> & Hs5); [by eapply same_versions_valid|done|].
  simpl. exists h5, sorted. repeat split; try done.
  - apply (same_versions_trans _ _ _ Hs1234 Hs5).
  - apply (same_versions_trans _ _ _ Hs1234 Hs5).
Qed.

End Reconciling.

(** ** The current-version scan *)

(** C2, on a history whose only record is a rollback: the scan finds no
    applied record and [EnsureDBVersion] returns version 0 with
    [ErrNoNextVersion], the signal the apply loops read as normal
    termination, not [ErrNoCurrentVersion]; the same on an empty
    history. *)
Theorem EnsureDBVersion_exhausted :
  EnsureDBVersion (QueryRows [ScanOk Sample.rolled_back_row] None) None
  = (0, Some ErrNoNextVersion) ∧
  EnsureDBVersion (QueryRows [] None) None = (0, Some ErrNoNextVersion) ∧
  ErrNoNextVersion ≠ ErrNoCurrentVersion.
Proof. repeat split; done. Qed.

Lemma in_skip_spec (skip : list Z) (v : Z) : in_skip skip v = true ↔ v ∈ skip.
Proof.
  induction skip as [|x skip IH]; simpl.
  - split; [discriminate | by intros ?%elem_of_nil].
  - rewrite elem_of_cons. destruct (Z.eqb_spec x v) as [->|Hne].
    + split; [by left | done].
    + rewrite IH. split; [by right|]. by intros [->|?].
Qed.

Lemma all_superseded_tail (skip : list Z) (a : MigrationRecord) (rows : list MigrationRecord) :
  all_superseded skip (a :: rows) →
  (IsApplied a = false ∨ VersionID a ∈ skip) →
  all_superseded (if in_skip skip (VersionID a) then skip else skip ++ [VersionID a]) rows.
Proof.
  intros H Ha pre1 r1 pre2 -> Hr1.
  destruct (H (a :: pre1) r1 pre2 eq_refl Hr1) as [Hin|(r & Hr & Hv & Hf)].
  - left. destruct (in_skip skip (VersionID a)); [done|].
    apply elem_of_app. by left.
  - apply elem_of_cons in Hr as [->|Hr].
    + left. destruct (in_skip skip (VersionID a)) eqn:E.
      * apply in_skip_spec in E. by rewrite <- Hv.
      * apply elem_of_app. right. apply list_elem_of_singleton. done.
    + right. by exists r.
Qed.

(** The scan returns the version of the first applied record that is
    not superseded. *)
Lemma scan_rows_found (pre : list MigrationRecord) : ∀ (skip : list Z)
    (r : MigrationRecord) (post : list MigrationRecord) (rerr : option error),
  IsApplied r = true →
  VersionID r ∉ skip →
  ¬ rolled_back_in pre (VersionID r) →
  all_superseded skip pre →
  scan_rows (ScanOk <$> (pre ++ r :: post)) rerr skip = (VersionID r, None).
Proof.
  induction pre as [|a pre IH]; intros skip r post rerr Hr Hs Hnb Hsup; simpl.
  - destruct (in_skip skip (VersionID r)) eqn:E; [by apply in_skip_spec in E|].
    by rewrite Hr.
  - assert (Ha : IsApplied a = false ∨ VersionID a ∈ skip).
    { destruct (IsApplied a) eqn:Ea; [|by left].
      destruct (Hsup [] a pre eq_refl Ea) as [?|(x & Hx & _)]; [by right|].
      by apply elem_of_nil in Hx. }
    pose proof (all_superseded_tail skip a pre Hsup Ha) as Htail.
    assert (Hnb' : ¬ rolled_back_in pre (VersionID r)).
    { intros (x & Hx & Hv & Hf). apply Hnb. exists x. split; [by right|done]. }
    destruct (in_skip skip (VersionID a)) eqn:E; [by apply IH|].
    destruct Ha as [Ha|Ha]; [|by apply in_skip_spec in Ha; congruence].
    rewrite Ha. apply IH; try done.
    intros [Hin|Hin%list_elem_of_singleton]%elem_of_app; [done|].
    apply Hnb. exists a. split; [by left|done].
Qed.

(** With every applied record superseded the scan runs to the end. *)
Lemma scan_rows_exhausted (rows : list MigrationRecord) : ∀ (skip : list Z),
  all_superseded skip rows →
  scan_rows (ScanOk <$> rows) None skip = (0, Some ErrNoNextVersion).
Proof.
  induction rows as [|a rows IH]; intros skip Hsup; simpl; [done|].
  assert (Ha : IsApplied a = false ∨ VersionID a ∈ skip).
  { destruct (IsApplied a) eqn:Ea; [|by left].
    destruct (Hsup [] a rows eq_refl Ea) as [?|(x & Hx & _)]; [by right|].
    by apply elem_of_nil in Hx. }
  pose proof (all_superseded_tail skip a rows Hsup Ha) as Htail.
  destruct (in_skip skip (VersionID a)) eqn:E; [by apply IH|].
  destruct Ha as [Ha|Ha]; [|by apply in_skip_spec in Ha; congruence].
  rewrite Ha. by apply IH.
Qed.

(** [EnsureDBVersion] over a history that scans without error: the
    answer is the first applied record with no rollback of its version
    before it; without such a record the answer is [ErrNoNextVersion]. *)
Lemma EnsureDBVersion_scan (pre post : list MigrationRecord) (r : MigrationRecord)
    (rerr created : option error) :
  IsApplied r = true →
  ¬ rolled_back_in pre (VersionID r) →
  all_superseded [] pre →
  EnsureDBVersion (QueryRows (ScanOk <$> (pre ++ r :: post)) rerr) created
  = (VersionID r, None).
Proof.
  intros. simpl. apply scan_rows_found; try done. by intros ?%elem_of_nil.
Qed.

Lemma EnsureDBVersion_no_applied (rows : list MigrationRecord) (created : option error) :
  all_superseded [] rows →
  EnsureDBVersion (QueryRows (ScanOk <$> rows) None) created
  = (0, Some ErrNoNextVersion).
Proof. intros. simpl. by apply scan_rows_exhausted. Qed.

(** ** Registration of names without a version *)

Lemma ParseInt_error_value (s : string) (n : Z) (e : error) :
  Go.ParseInt s = (n, Some e) →
  if is_range_error e then n = int64_max ∨ n = int64_min else n = 0.
Proof.
  unfold Go.ParseInt. destruct (Go.to_bytes s) as [|c rest].
  { intros [= <- <-]. done. }
  destruct (Go.ParseUint _) as [un err].
  intros H.
  destruct err as [[| | | | | | fn num [] |]|];
    repeat match type of H with
           | context [if ?b then _ else _] => destruct b
           end;
    simplify_eq; simpl; unfold int64_max, int64_min; lia.
Qed.

Lemma NumericComponent_error_value (name : string) (e : error) :
  snd (NumericComponent name) = Some e →
  if is_range_error e then
    fst (NumericComponent name) = int64_max ∨ fst (NumericComponent name) = int64_min
  else fst (NumericComponent name) = 0.
Proof.
  unfold NumericComponent.
  destruct (negb _ && negb _); [intros [= <-]; done|].
  destruct (_ <? 0); [intros [= <-]; done|].
  destruct (Go.ParseInt _) as [n [e'|]] eqn:E; simpl.
  - intros [= ->]. by apply ParseInt_error_value in E.
  - destruct (n <=? 0); simpl; [intros [= <-]; done | discriminate].
Qed.

(** ** The version extractor *)

Section Parsing.

Lemma bytes_roundtrip (l : list ascii) : Go.to_bytes (Go.of_bytes l) = l.
Proof. apply list_ascii_of_string_of_list_ascii. Qed.

Lemma ascii_eqb_eq (a b : ascii) : Ascii.eqb a b = true ↔ a = b.
Proof. apply Ascii.eqb_eq. Qed.

Lemma index_from_absent (c : ascii) (l : list ascii) :
  c ∉ l → Go.index_from [c] l = -1.
Proof.
  induction l as [|b l IH]; intros Hn; [done|].
  apply not_elem_of_cons in Hn as [Hne Hn].
  cbn [Go.index_from Go.is_prefix].
  destruct (Ascii.eqb c b) eqn:E; [by apply ascii_eqb_eq in E|].
  cbn [andb]. rewrite (IH Hn). done.
Qed.

Lemma index_from_first (c : ascii) (lead rest : list ascii) :
  c ∉ lead → Go.index_from [c] (lead ++ c :: rest) = Z.of_nat (length lead).
Proof.
  induction lead as [|b lead IH]; intros Hn.
  - cbn [app Go.index_from Go.is_prefix]. by rewrite Ascii.eqb_refl.
  - apply not_elem_of_cons in Hn as [Hne Hn].
    cbn [app Go.index_from Go.is_prefix].
    destruct (Ascii.eqb c b) eqn:E; [by apply ascii_eqb_eq in E|].
    cbn [andb]. rewrite (IH Hn).
    destruct (Z.ltb_spec (Z.of_nat (length lead)) 0); [lia|].
    cbn [length]. lia.
Qed.

(** Where the first separator stands. *)
Lemma index_from_cases (c : ascii) (l : list ascii) :
  ((c ∉ l) ∧ Go.index_from [c] l = -1) ∨
  (∃ lead rest, l = lead ++ c :: rest ∧ (c ∉ lead) ∧
                Go.index_from [c] l = Z.of_nat (length lead)).
Proof.
  destruct (decide (c ∈ l)) as [Hin|Hn].
  - right. apply list_elem_of_split_l in Hin as (lead & rest & -> & Hn).
    exists lead, rest. by rewrite index_from_first.
  - left. by rewrite index_from_absent.
Qed.

Lemma digit_val_range (c : ascii) : Go.is_digit c = true → 0 ≤ Go.digit_val c ≤ 9.
Proof.
  unfold Go.is_digit, Go.digit_val. rewrite andb_true_iff, !Z.leb_le. lia.
Qed.

Lemma dec_from_ge (bs : list ascii) : ∀ n,
  0 ≤ n → all_digits bs → n ≤ dec_from n bs.
Proof.
  induction bs as [|c bs IH]; intros n Hn Hd; [done|].
  apply Forall_cons in Hd as [Hc Hd]. apply digit_val_range in Hc.
  unfold dec_from in *. simpl.
  etransitivity; [|apply IH; [lia|done]]. lia.
Qed.

Lemma cutoff10_value : Go.cutoff10 = 1844674407370955162.
Proof. reflexivity. Qed.

(** The unsigned loop succeeds exactly on digits whose value fits. *)
Lemma parse_uint_loop_ok (s0 : string) (bs : list ascii) : ∀ (n m : Z),
  0 ≤ n ≤ uint64_max →
  (Go.parse_uint_loop s0 bs n = (m, None) ↔
   all_digits bs ∧ m = dec_from n bs ∧ m ≤ uint64_max).
Proof.
  induction bs as [|c bs IH]; intros n m Hn.
  - simpl. unfold dec_from. simpl. split.
    + intros [= <-]. split; [constructor|lia].
    + intros (_ & -> & _). done.
  - cbn [Go.parse_uint_loop]. unfold all_digits. rewrite Forall_cons.
    destruct (Go.is_digit c) eqn:Hc; cbn [negb];
      [|split; [discriminate | intros [[? _] _]; discriminate]].
    pose proof (digit_val_range c Hc) as Hd.
    rewrite cutoff10_value. unfold uint64_mod, uint64_max in *.
    destruct (Z.leb_spec 1844674407370955162 n) as [Hcut|Hcut].
    { split; [discriminate|]. intros (Hall & -> & Hle). exfalso.
      destruct Hall as [_ Hall].
      pose proof (dec_from_ge bs (n * 10 + Go.digit_val c)) as Hge.
      unfold dec_from in *. simpl in Hle. specialize (Hge ltac:(lia) Hall). lia. }
    rewrite (Z.mod_small (n * 10)) by lia.
    destruct (Z.lt_ge_cases (n * 10 + Go.digit_val c) (2 ^ 64)) as [Hfit|Hover].
    + rewrite (Z.mod_small (n * 10 + Go.digit_val c)) by lia.
      destruct (Z.ltb_spec (n * 10 + Go.digit_val c) (n * 10)); [lia|].
      destruct (Z.ltb_spec (2 ^ 64 - 1) (n * 10 + Go.digit_val c)); [lia|].
      cbn [orb]. rewrite IH by lia. unfold dec_from. simpl. tauto.
    + assert (Hw : (n * 10 + Go.digit_val c) mod 2 ^ 64
                   = n * 10 + Go.digit_val c - 2 ^ 64).
      { symmetry. apply (Z.mod_unique _ _ 1); lia. }
      rewrite Hw.
      destruct (Z.ltb_spec (n * 10 + Go.digit_val c - 2 ^ 64) (n * 10)); [|lia].
      cbn [orb]. split; [discriminate|]. intros (Hall & -> & Hle). exfalso.
      destruct Hall as [_ Hall].
      pose proof (dec_from_ge bs (n * 10 + Go.digit_val c)) as Hge.
      unfold dec_from in *. simpl in Hle. specialize (Hge ltac:(lia) Hall). lia.
Qed.

(** A failing unsigned loop reports a syntax error with 0 or a range
    error with the largest value. *)
Lemma parse_uint_loop_err (s0 : string) (bs : list ascii) : ∀ (n m : Z) (e : error),
  Go.parse_uint_loop s0 bs n = (m, Some e) →
  (m = 0 ∧ e = ErrNum "ParseUint" s0 ErrSyntax) ∨
  (m = uint64_max ∧ e = ErrNum "ParseUint" s0 ErrRange).
Proof.
  induction bs as [|c bs IH]; intros n m e; [discriminate|].
  cbn [Go.parse_uint_loop].
  destruct (negb _); [intros [= <- <-]; by left|].
  destruct (_ <=? _); [intros [= <- <-]; by right|].
  destruct (_ || _); [intros [= <- <-]; by right|].
  apply IH.
Qed.

Lemma dec_value_nonneg (bs : list ascii) : all_digits bs → 0 ≤ dec_value bs.
Proof. intros. by apply (dec_from_ge bs 0). Qed.

(** [ParseUint], both outcomes. *)
Lemma ParseUint_spec (s : string) :
  match Go.ParseUint s with
  | (m, None) =>
      Go.to_bytes s ≠ [] ∧ all_digits (Go.to_bytes s) ∧
      m = dec_value (Go.to_bytes s) ∧ 0 ≤ m ≤ uint64_max
  | (m, Some e) =>
      ¬ (Go.to_bytes s ≠ [] ∧ all_digits (Go.to_bytes s) ∧
         dec_value (Go.to_bytes s) ≤ uint64_max) ∧
      ((m = 0 ∧ e = ErrNum "ParseUint" s ErrSyntax) ∨
       (m = uint64_max ∧ e = ErrNum "ParseUint" s ErrRange))
  end.
Proof.
  unfold Go.ParseUint. destruct (Go.to_bytes s) as [|c bs] eqn:E.
  { split; [intros [? _]; done | by left]. }
  assert (H0 : 0 ≤ 0 ≤ uint64_max) by (unfold uint64_max; lia).
  destruct (Go.parse_uint_loop s (c :: bs) 0) as [m [e|]] eqn:P.
  - split; [|by eapply parse_uint_loop_err].
    intros (_ & Hd & Hle).
    assert (Q : Go.parse_uint_loop s (c :: bs) 0 = (dec_value (c :: bs), None)).
    { apply parse_uint_loop_ok; [done|]. by repeat split. }
    congruence.
  - apply parse_uint_loop_ok in P as (Hd & -> & Hle); [|done].
    repeat split; try done. by apply dec_value_nonneg.
Qed.

Lemma digit_not_sign (c : ascii) :
  Go.is_digit c = true → c ≠ "+"%char ∧ c ≠ "-"%char.
Proof. intros H. split; intros ->; discriminate H. Qed.

(** An integer literal, read off its first byte. *)
Lemma int_literal_cases (lead : list ascii) (n : Z) :
  int_literal lead n ↔
  ∃ c rest, lead = c :: rest ∧
    ((c = "+"%char ∧ rest ≠ [] ∧ all_digits rest ∧
      n = dec_value rest ∧ n ≤ int64_max) ∨
     (c = "-"%char ∧ rest ≠ [] ∧ all_digits rest ∧
      n = - dec_value rest ∧ int64_min ≤ n) ∨
     (c ≠ "+"%char ∧ c ≠ "-"%char ∧ all_digits (c :: rest) ∧
      n = dec_value (c :: rest) ∧ n ≤ int64_max)).
Proof.
  unfold int_literal. split.
  - intros (sign & digits & -> & Hsign & Hne & Hd & -> & Hlo & Hhi).
    pose proof (dec_value_nonneg digits Hd) as Hpos.
    destruct Hsign as [-> | [-> | ->]]; simpl in *.
    + destruct digits as [|c rest]; [done|]. exists c, rest. split; [done|].
      right. right. pose proof Hd as Hd'. apply Forall_cons in Hd' as [Hc _].
      apply digit_not_sign in Hc as [? ?]. done.
    + exists "+"%char, digits. split; [done|]. left. done.
    + exists "-"%char, digits. split; [done|]. right. left. done.
  - intros (c & rest & -> & [H|[H|H]]).
    + destruct H as (-> & Hne & Hd & -> & Hhi).
      pose proof (dec_value_nonneg rest Hd).
      exists ["+"%char], rest. simpl. unfold int64_min.
      repeat split; try done; [by right; left | lia].
    + destruct H as (-> & Hne & Hd & -> & Hlo).
      pose proof (dec_value_nonneg rest Hd).
      exists ["-"%char], rest. simpl. unfold int64_max.
      repeat split; try done; [by right; right | lia].
    + destruct H as (Hp & Hm & Hd & -> & Hhi).
      pose proof (dec_value_nonneg _ Hd).
      exists [], (c :: rest). simpl. unfold int64_min.
      repeat split; try done; [by left | lia].
Qed.

(** [ParseInt] succeeds exactly on integer literals, with their value. *)
Lemma ParseInt_spec (s0 : string) :
  match Go.ParseInt s0 with
  | (n, None) => int_literal (Go.to_bytes s0) n
  | (_, Some _) => ∀ n', ¬ int_literal (Go.to_bytes s0) n'
  end.
Proof.
  unfold Go.ParseInt. destruct (Go.to_bytes s0) as [|c rest] eqn:E.
  { intros n' (c & rest & [=] & _)%int_literal_cases. }
  destruct (Ascii.eqb c "+") eqn:Ep.
  - apply ascii_eqb_eq in Ep as ->. cbn [Ascii.eqb Bool.eqb negb andb].
    pose proof (ParseUint_spec (Go.of_bytes rest)) as HU.
    rewrite bytes_roundtrip in HU.
    destruct (Go.ParseUint (Go.of_bytes rest)) as [un [e|]].
    + destruct HU as [Hno Hval].
      assert (Hnolit : ∀ n', ¬ int_literal ("+"%char :: rest) n').
      { intros n' (c & rest' & [= <- <-] & [H|[H|H]])%int_literal_cases.
        - destruct H as (_ & ? & ? & -> & Hhi). apply Hno.
          unfold int64_max, uint64_max in *. repeat split; try done. lia.
        - by destruct H as (? & _).
        - by destruct H as (? & _). }
      destruct Hval as [[-> ->]|[-> ->]]; [done|].
      unfold uint64_max. destruct (Z.leb_spec (2 ^ 63) (2 ^ 64 - 1)); [done|lia].
    + destruct HU as (Hne & Hd & -> & Hlo & Hhi).
      destruct (Z.leb_spec (2 ^ 63) (dec_value rest)) as [Hbig|Hsmall].
      * intros n' (c & rest' & [= <- <-] & [H|[H|H]])%int_literal_cases.
        -- destruct H as (_ & _ & _ & -> & Hmax). unfold int64_max in Hmax. lia.
        -- by destruct H as (? & _).
        -- by destruct H as (? & _).
      * apply int_literal_cases. exists "+"%char, rest. split; [done|].
        left. unfold int64_max. repeat split; try done. lia.
  - destruct (Ascii.eqb c "-") eqn:Em.
    + apply ascii_eqb_eq in Em as ->. cbn [negb andb].
      pose proof (ParseUint_spec (Go.of_bytes rest)) as HU.
      rewrite bytes_roundtrip in HU.
      destruct (Go.ParseUint (Go.of_bytes rest)) as [un [e|]].
      * destruct HU as [Hno Hval].
        assert (Hnolit : ∀ n', ¬ int_literal ("-"%char :: rest) n').
        { intros n' (c & rest' & [= <- <-] & [H|[H|H]])%int_literal_cases.
          - by destruct H as (? & _).
          - destruct H as (_ & ? & ? & -> & Hmin). apply Hno.
            unfold int64_min, uint64_max in *. repeat split; try done. lia.
          - by destruct H as (_ & ? & _). }
        destruct Hval as [[-> ->]|[-> ->]]; [done|].
        unfold uint64_max. destruct (Z.ltb_spec (2 ^ 63) (2 ^ 64 - 1)); [done|lia].
      * destruct HU as (Hne & Hd & -> & Hlo & Hhi).
        destruct (Z.ltb_spec (2 ^ 63) (dec_value rest)) as [Hbig|Hsmall].
        -- intros n' (c & rest' & [= <- <-] & [H|[H|H]])%int_literal_cases.
           ++ by destruct H as (? & _).
           ++ destruct H as (_ & _ & _ & -> & Hmin). unfold int64_min in Hmin. lia.
           ++ by destruct H as (_ & ? & _).
        -- apply int_literal_cases. exists "-"%char, rest. split; [done|].
           right. left. unfold int64_min. repeat split; try done. lia.
    + cbn [negb andb].
      assert (Hp : c ≠ "+"%char) by (intros ->; discriminate Ep).
      assert (Hm : c ≠ "-"%char) by (intros ->; discriminate Em).
      pose proof (ParseUint_spec s0) as HU. rewrite E in HU.
      destruct (Go.ParseUint s0) as [un [e|]].
      * destruct HU as [Hno Hval].
        assert (Hnolit : ∀ n', ¬ int_literal (c :: rest) n').
        { intros n' (c' & rest' & [= <- <-] & [H|[H|H]])%int_literal_cases.
          - by destruct H as (? & _).
          - by destruct H as (? & _).
          - destruct H as (_ & _ & ? & -> & Hhi). apply Hno.
            unfold int64_max, uint64_max in *. repeat split; try done. lia. }
        destruct Hval as [[-> ->]|[-> ->]]; [done|].
        unfold uint64_max. destruct (Z.leb_spec (2 ^ 63) (2 ^ 64 - 1)); [done|lia].
      * destruct HU as (Hne & Hd & -> & Hlo & Hhi).
        destruct (Z.leb_spec (2 ^ 63) (dec_value (c :: rest))) as [Hbig|Hsmall].
        -- intros n' (c' & rest' & [= <- <-] & [H|[H|H]])%int_literal_cases.
           ++ by destruct H as (? & _).
           ++ by destruct H as (? & _).
           ++ destruct H as (_ & _ & _ & -> & Hmax). unfold int64_max in Hmax. lia.
        -- apply int_literal_cases. exists c, rest. split; [done|].
           right. right. unfold int64_max. repeat split; try done. lia.
Qed.

Lemma int_literal_functional (lead : list ascii) (n n' : Z) :
  int_literal lead n → int_literal lead n' → n = n'.
Proof.
  intros (c & rest & -> & H)%int_literal_cases
         (c' & rest' & [= <- <-] & H')%int_literal_cases.
  destruct H as [H|[H|H]], H' as [H'|[H'|H']];
    destruct H as (? & ? & ? & ? & ?), H' as (? & ? & ? & ? & ?); congruence.
Qed.

Lemma NumericComponent_no_ext (name : string) :
  ¬ recognised_ext (Go.Base name) →
  NumericComponent name = (0, Some (ErrNew "not a recognized migration file type")).
Proof.
  intros Hn. unfold NumericComponent.
  assert (Hgo : Go.Ext (Go.Base name) ≠ ".go"%string) by (intros E; apply Hn; by left).
  assert (Hsql : Go.Ext (Go.Base name) ≠ ".sql"%string) by (intros E; apply Hn; by right).
  by rewrite !bool_decide_eq_false_2 by done.
Qed.

Lemma recognised_ext_test (base : string) :
  recognised_ext base →
  negb (bool_decide (Go.Ext base = ".go"%string)) &&
  negb (bool_decide (Go.Ext base = ".sql"%string)) = false.
Proof.
  intros [E|E]; rewrite E; by vm_compute.
Qed.

Lemma NumericComponent_no_separator (name : string) :
  recognised_ext (Go.Base name) →
  underscore ∉ Go.to_bytes (Go.Base name) →
  NumericComponent name = (0, Some (ErrNew "no separator found")).
Proof.
  intros Hr Hn. unfold NumericComponent. rewrite (recognised_ext_test _ Hr).
  unfold Go.Index. change (Go.to_bytes "_") with [underscore].
  by rewrite (index_from_absent _ _ Hn).
Qed.

(** With the first separator located, the extractor is the parser on
    the text before it, followed by the sign test. *)
Lemma NumericComponent_split (name : string) (lead rest : list ascii) :
  recognised_ext (Go.Base name) →
  Go.to_bytes (Go.Base name) = lead ++ underscore :: rest →
  underscore ∉ lead →
  NumericComponent name =
    match Go.ParseInt (Go.of_bytes lead) with
    | (n, None) =>
        if n <=? 0 then (0, Some (ErrNew "migration IDs must be greater than zero"))
        else (n, None)
    | (n, Some e) => (n, Some e)
    end.
Proof.
  intros Hr Hb Hn. unfold NumericComponent. rewrite (recognised_ext_test _ Hr).
  unfold Go.Index, Go.slice_to. change (Go.to_bytes "_") with [underscore].
  rewrite Hb, (index_from_first _ _ _ Hn).
  destruct (Z.ltb_spec (Z.of_nat (length lead)) 0); [lia|].
  rewrite Nat2Z.id, take_app_length.
  by destruct (Go.ParseInt (Go.of_bytes lead)) as [n [e|]].
Qed.

(** Success of the extractor, in terms of the first separator. *)
Lemma NumericComponent_ok_iff (name : string) (n : Z) :
  NumericComponent name = (n, None) ↔
  recognised_ext (Go.Base name) ∧
  ∃ lead rest, Go.to_bytes (Go.Base name) = lead ++ underscore :: rest ∧
               (underscore ∉ lead) ∧ int_literal lead n ∧ 0 < n.
Proof.
  split.
  - intros H. destruct (decide (recognised_ext (Go.Base name))) as [Hr|Hr];
      [|by rewrite NumericComponent_no_ext in H].
    split; [done|].
    destruct (index_from_cases underscore (Go.to_bytes (Go.Base name)))
      as [[Hn _]|(lead & rest & Hb & Hn & _)];
      [by rewrite NumericComponent_no_separator in H|].
    exists lead, rest. split; [done|]. split; [done|].
    rewrite (NumericComponent_split name lead rest Hr Hb Hn) in H.
    pose proof (ParseInt_spec (Go.of_bytes lead)) as HP.
    rewrite bytes_roundtrip in HP.
    destruct (Go.ParseInt (Go.of_bytes lead)) as [n' [e|]]; [done|].
    destruct (Z.leb_spec n' 0); [done|]. injection H as <-. done.
  - intros (Hr & lead & rest & Hb & Hn & Hlit & Hpos).
    rewrite (NumericComponent_split name lead rest Hr Hb Hn).
    pose proof (ParseInt_spec (Go.of_bytes lead)) as HP.
    rewrite bytes_roundtrip in HP.
    destruct (Go.ParseInt (Go.of_bytes lead)) as [n' [e|]]; [by destruct (HP n)|].
    rewrite (int_literal_functional _ _ _ HP Hlit).
    destruct (Z.leb_spec n 0); [lia|done].
Qed.

(** Failure of the extractor, cause by cause. *)
Lemma NumericComponent_error_iff (name : string) :
  (∃ e, snd (NumericComponent name) = Some e) ↔
  ¬ recognised_ext (Go.Base name) ∨
  (underscore ∉ Go.to_bytes (Go.Base name)) ∨
  ∃ lead rest, Go.to_bytes (Go.Base name) = lead ++ underscore :: rest ∧
               (underscore ∉ lead) ∧ ∀ n, int_literal lead n → n ≤ 0.
Proof.
  split.
  - intros [e He].
    destruct (decide (recognised_ext (Go.Base name))) as [Hr|Hr]; [|by left].
    right.
    destruct (index_from_cases underscore (Go.to_bytes (Go.Base name)))
      as [[Hn _]|(lead & rest & Hb & Hn & _)]; [by left|].
    right. exists lead, rest. split; [done|]. split; [done|].
    rewrite (NumericComponent_split name lead rest Hr Hb Hn) in He.
    pose proof (ParseInt_spec (Go.of_bytes lead)) as HP.
    rewrite bytes_roundtrip in HP.
    destruct (Go.ParseInt (Go.of_bytes lead)) as [n' [e'|]].
    + intros n Hlit. by destruct (HP n).
    + intros n Hlit. rewrite (int_literal_functional _ _ _ Hlit HP).
      destruct (Z.leb_spec n' 0); [done|discriminate].
  - intros [Hr|[Hn|(lead & rest & Hb & Hn & Hall)]].
    + rewrite NumericComponent_no_ext by done. by eexists.
    + destruct (decide (recognised_ext (Go.Base name))) as [Hr|Hr].
      * rewrite NumericComponent_no_separator by done. by eexists.
      * rewrite NumericComponent_no_ext by done. by eexists.
    + destruct (decide (recognised_ext (Go.Base name))) as [Hr|Hr];
        [|rewrite NumericComponent_no_ext by done; by eexists].
      rewrite (NumericComponent_split name lead rest Hr Hb Hn).
      pose proof (ParseInt_spec (Go.of_bytes lead)) as HP.
      rewrite bytes_roundtrip in HP.
      destruct (Go.ParseInt (Go.of_bytes lead)) as [n' [e'|]]; [by eexists|].
      specialize (Hall n' HP).
      destruct (Z.leb_spec n' 0); [by eexists|lia].
Qed.

Lemma digits_no_underscore (digits : list ascii) :
  all_digits digits → underscore ∉ digits.
Proof.
  intros Hd Hin. unfold all_digits in Hd. rewrite Forall_forall in Hd.
  specialize (Hd _ Hin). discriminate Hd.
Qed.

Lemma take_while_digits (digits rest : list ascii) :
  all_digits digits →
  Go.take_while Go.is_digit (digits ++ underscore :: rest) = digits.
Proof.
  induction digits as [|c digits IH]; intros Hd; [done|].
  apply Forall_cons in Hd as [Hc Hd]. simpl. rewrite Hc. f_equal. by apply IH.
Qed.

(** A positive literal is a digit run, possibly behind a plus sign. *)
Lemma positive_literal (lead : list ascii) (n : Z) :
  int_literal lead n ∧ 0 < n ↔
  ∃ sign digits, lead = sign ++ digits ∧ (sign = [] ∨ sign = ["+"%char]) ∧
                 digits ≠ [] ∧ all_digits digits ∧ n = dec_value digits ∧
                 0 < n ≤ int64_max.
Proof.
  split.
  - intros [(sign & digits & -> & Hs & Hne & Hd & Hn & Hlo & Hhi) Hpos].
    pose proof (dec_value_nonneg digits Hd).
    exists sign, digits. destruct Hs as [-> | [-> | ->]]; simpl in Hn;
      [|by repeat split; try done; right|lia].
    by repeat split; try done; left.
  - intros (sign & digits & -> & Hs & Hne & Hd & -> & Hpos & Hhi).
    split; [|done]. exists sign, digits. unfold int64_min.
    destruct Hs as [-> | ->]; simpl; repeat split; try done;
      try lia; [by left | by right; left].
Qed.

End Parsing.

(** ** Numbers out of range *)

Lemma dec_from_app (n : Z) (l1 l2 : list ascii) :
  dec_from n (l1 ++ l2) = dec_from (dec_from n l1) l2.
Proof. unfold dec_from. apply fold_left_app. Qed.

Lemma dec_value_prefix (digits tail : list ascii) :
  all_digits (digits ++ tail) → dec_value digits ≤ dec_value (digits ++ tail).
Proof.
  intros [Hd Ht]%Forall_app.
  change (dec_value (digits ++ tail)) with (dec_from 0 (digits ++ tail)).
  rewrite dec_from_app. apply dec_from_ge; [|done].
  by apply dec_value_nonneg.
Qed.

(** The unsigned loop reports a range error exactly when the digits it
    has read, those at the head of the text included, exceed the largest
    unsigned number; what follows them is not looked at. *)
Lemma parse_uint_loop_range (s0 : string) (bs : list ascii) : ∀ (n : Z),
  0 ≤ n ≤ uint64_max →
  (Go.parse_uint_loop s0 bs n = (uint64_max, Some (ErrNum "ParseUint" s0 ErrRange)) ↔
   ∃ digits tail, bs = digits ++ tail ∧ all_digits digits ∧
                  uint64_max < dec_from n digits).
Proof.
  induction bs as [|c bs IH]; intros n Hn.
  - simpl. split; [discriminate|].
    intros (digits & tail & Hb & _ & Hlt). symmetry in Hb.
    apply app_eq_nil in Hb as [-> _]. unfold dec_from in Hlt. simpl in Hlt. lia.
  - cbn [Go.parse_uint_loop].
    assert (Hshape : ∀ digits tail, c :: bs = digits ++ tail → all_digits digits →
              uint64_max < dec_from n digits →
              ∃ digits', digits = c :: digits' ∧ bs = digits' ++ tail ∧
                         Go.is_digit c = true ∧ all_digits digits' ∧
                         uint64_max < dec_from (n * 10 + Go.digit_val c) digits').
    { intros [|d digits'] tail Hb Hd Hlt.
      - unfold dec_from in Hlt. simpl in Hlt. lia.
      - injection Hb as <- ->. apply Forall_cons in Hd as [Hc Hd].
        exists digits'. by repeat split. }
    destruct (Go.is_digit c) eqn:Hc; cbn [negb].
    2:{ split; [discriminate|]. intros (digits & tail & Hb & Hd & Hlt).
        destruct (Hshape digits tail Hb Hd Hlt) as (? & _ & _ & ? & _). congruence. }
    pose proof (digit_val_range c Hc) as Hdv.
    rewrite cutoff10_value. unfold uint64_mod, uint64_max in *.
    destruct (Z.leb_spec 1844674407370955162 n) as [Hcut|Hcut].
    { split; [|done]. intros _. exists [c], bs. split; [done|].
      split; [by repeat constructor|]. unfold dec_from. simpl. lia. }
    rewrite (Z.mod_small (n * 10)) by lia.
    destruct (Z.lt_ge_cases (n * 10 + Go.digit_val c) (2 ^ 64)) as [Hfit|Hover].
    + rewrite (Z.mod_small (n * 10 + Go.digit_val c)) by lia.
      destruct (Z.ltb_spec (n * 10 + Go.digit_val c) (n * 10)); [lia|].
      destruct (Z.ltb_spec (2 ^ 64 - 1) (n * 10 + Go.digit_val c)); [lia|].
      cbn [orb]. rewrite IH by lia. split.
      * intros (digits & tail & -> & Hd & Hlt). exists (c :: digits), tail.
        split; [done|]. split; [by constructor|]. exact Hlt.
      * intros (digits & tail & Hb & Hd & Hlt).
        destruct (Hshape digits tail Hb Hd Hlt) as (digits' & -> & -> & _ & Hd' & Hlt').
        by exists digits', tail.
    + assert (Hw : (n * 10 + Go.digit_val c) mod 2 ^ 64
                   = n * 10 + Go.digit_val c - 2 ^ 64).
      { symmetry. apply (Z.mod_unique _ _ 1); lia. }
      rewrite Hw.
      destruct (Z.ltb_spec (n * 10 + Go.digit_val c - 2 ^ 64) (n * 10)); [|lia].
      cbn [orb]. split; [|done]. intros _. exists [c], bs. split; [done|].
      split; [by repeat constructor|]. unfold dec_from. simpl. lia.
Qed.

Lemma ParseUint_range (s : string) :
  Go.ParseUint s = (uint64_max, Some (ErrNum "ParseUint" s ErrRange)) ↔
  digits_exceed (Go.to_bytes s).
Proof.
  unfold Go.ParseUint, digits_exceed. destruct (Go.to_bytes s) as [|c bs] eqn:E.
  - split; [discriminate|]. intros (digits & tail & Hb & _ & Hlt). symmetry in Hb.
    apply app_eq_nil in Hb as [-> _]. unfold dec_value, uint64_max in Hlt.
    simpl in Hlt. lia.
  - apply parse_uint_loop_range. unfold uint64_max. lia.
Qed.

(** Text out of range starts with a digit. *)
Lemma out_of_range_head (neg : bool) (u : list ascii) :
  out_of_range neg u → ∃ d rest, u = d :: rest ∧ Go.is_digit d = true.
Proof.
  intros [(digits & tail & -> & Hd & Hlt)|[Hd Hlt]].
  - destruct digits as [|d digits]; [unfold dec_value, uint64_max in Hlt; simpl in Hlt; lia|].
    apply Forall_cons in Hd as [Hc _]. by exists d, (digits ++ tail).
  - destruct u as [|d u].
    + unfold dec_value, int64_max in Hlt. simpl in Hlt. destruct neg; lia.
    + apply Forall_cons in Hd as [Hc _]. by exists d, u.
Qed.

(** The unsigned parser on text that is, or is not, out of range. *)
Lemma ParseUint_out_of_range (s : string) (neg : bool) :
  out_of_range neg (Go.to_bytes s) ↔
  match Go.ParseUint s with
  | (un, None) => if neg then 2 ^ 63 < un else 2 ^ 63 ≤ un
  | (un, Some e) => un = uint64_max ∧ e = ErrNum "ParseUint" s ErrRange
  end.
Proof.
  pose proof (ParseUint_spec s) as HU. pose proof (ParseUint_range s) as HR.
  destruct (Go.ParseUint s) as [un [e|]].
  - destruct HU as [Hno Hval]. split.
    + intros [Hex|[Hd Hlt]].
      * apply HR in Hex. by simplify_eq.
      * assert (Hex : digits_exceed (Go.to_bytes s)).
        { exists (Go.to_bytes s), []. rewrite app_nil_r. split; [done|]. split; [done|].
          destruct (Z.lt_ge_cases uint64_max (dec_value (Go.to_bytes s))) as [?|Hle]; [done|].
          exfalso. apply Hno. split; [|split; [done|lia]].
          intros E. rewrite E in Hlt. unfold dec_value, int64_max in Hlt. simpl in Hlt.
          destruct neg; lia. }
        apply HR in Hex. by simplify_eq.
    + intros [-> ->]. left. by apply HR.
  - destruct HU as (Hne & Hd & -> & Hlo & Hhi). split.
    + intros [(digits & tail & Hb & Hdd & Hlt)|[_ Hlt]].
      * exfalso. rewrite Hb in Hd, Hhi. pose proof (dec_value_prefix digits tail Hd). lia.
      * unfold int64_max in Hlt. destruct neg; lia.
    + intros Hlt. right. split; [done|]. unfold int64_max. destruct neg; lia.
Qed.

(** The signed parser returns the nearest bound with a range error
    exactly on text out of range on that side. *)
Lemma ParseInt_out_of_range (s0 : string) (neg : bool) :
  lead_out_of_range neg (Go.to_bytes s0) ↔
  Go.ParseInt s0 = (int64_bound neg, Some (ErrNum "ParseInt" s0 ErrRange)).
Proof.
  unfold Go.ParseInt, lead_out_of_range. destruct (Go.to_bytes s0) as [|c rest] eqn:E.
  { split; [|discriminate]. intros (u & Hu & Hout).
    apply out_of_range_head in Hout as (d & rest & -> & _).
    destruct neg; [done|]. by destruct Hu. }
  assert (Hsplit : ∀ (s : string) (sneg : bool) (Hs : Go.to_bytes s =
                      if Ascii.eqb c "+"%char then rest else if sneg then rest else c :: rest),
            sneg = Ascii.eqb c "-"%char →
            ((∃ u, (if neg then c :: rest = "-"%char :: u
                    else c :: rest = u ∨ c :: rest = "+"%char :: u) ∧ out_of_range neg u)
             ↔ neg = sneg ∧ out_of_range neg (Go.to_bytes s))).
  { intros s sneg Hs ->. rewrite Hs. split.
    - intros (u & Hu & Hout).
      pose proof (out_of_range_head _ _ Hout) as (d & rest' & -> & Hd).
      apply digit_not_sign in Hd as [Hp Hm].
      destruct neg.
      + simplify_eq. by cbn.
      + destruct Hu as [Hu|Hu]; simplify_eq.
        * destruct (Ascii.eqb d "+") eqn:Ep; [by apply ascii_eqb_eq in Ep|].
          destruct (Ascii.eqb d "-") eqn:Em; [by apply ascii_eqb_eq in Em|]. done.
        * by cbn.
    - intros [-> Hout].
      destruct (Ascii.eqb c "+") eqn:Ep.
      + apply ascii_eqb_eq in Ep as ->. cbn. exists rest. split; [by right|done].
      + destruct (Ascii.eqb c "-") eqn:Em.
        * apply ascii_eqb_eq in Em as ->. by exists rest.
        * exists (c :: rest). split; [by left|done]. }
  set (sneg := Ascii.eqb c "-"%char).
  set (s := if Ascii.eqb c "+"%char then Go.of_bytes rest
            else if sneg then Go.of_bytes rest else s0).
  rewrite (Hsplit s sneg); [|subst s; repeat case_match; by rewrite ?bytes_roundtrip|done].
  pose proof (ParseUint_out_of_range s neg) as HO.
  pose proof (ParseUint_spec s) as HU.
  destruct (Go.ParseUint s) as [un [e|]].
  - destruct HU as [_ [[-> ->]|[-> ->]]].
    + split; [|discriminate]. intros [_ Hout]. apply HO in Hout as [_ [=]].
    + unfold uint64_max, int64_bound, int64_min, int64_max.
      destruct sneg, neg; cbn; split; try done; try (intros [? _]; done);
        intros _; (split; [done|]); apply HO; done.
  - unfold int64_bound, int64_min, int64_max.
    destruct HU as (_ & _ & _ & Hlo & Hhi). unfold uint64_max in Hhi.
    destruct sneg, neg; cbn.
    + destruct (Z.ltb_spec (2 ^ 63) un).
      * split; [done|]. intros _. split; [done|]. by apply HO.
      * split; [|discriminate]. intros [_ Hout%HO]. lia.
    + destruct (Z.ltb_spec (2 ^ 63) un); split; try done; try discriminate;
        intros [[=] _].
    + destruct (Z.leb_spec (2 ^ 63) un); split; try done; try discriminate;
        intros [[=] _].
    + destruct (Z.leb_spec (2 ^ 63) un).
      * split; [done|]. intros _. split; [done|]. by apply HO.
      * split; [|discriminate]. intros [_ Hout%HO]. lia.
Qed.

Lemma ParseInt_error_cases (s : string) (n : Z) (e : error) :
  Go.ParseInt s = (n, Some e) →
  (n = 0 ∧ e = ErrNum "ParseInt" s ErrSyntax) ∨
  (e = ErrNum "ParseInt" s ErrRange ∧ (n = int64_max ∨ n = int64_min)).
Proof.
  unfold Go.ParseInt. destruct (Go.to_bytes s) as [|c rest].
  { intros [= <- <-]. by left. }
  destruct (Go.ParseUint _) as [un err].
  intros H.
  destruct err as [[| | | | | | fn num [] |]|];
    repeat match type of H with
           | context [if ?b then _ else _] => destruct b
           end;
    simplify_eq; unfold int64_max, int64_min;
    first [by left | right; split; [done|]; first [by left | by right]].
Qed.

(** The extractor returns a bound of int64 beside its error exactly for
    the names out of range on that side. *)
Lemma NumericComponent_out_of_range (name : string) (neg : bool) :
  name_out_of_range neg name ↔
  ∃ e, NumericComponent name = (int64_bound neg, Some e).
Proof.
  assert (Hnz : int64_bound neg ≠ 0) by (unfold int64_bound; by destruct neg).
  split.
  - intros (Hr & lead & rest & Hb & Hn & Hout).
    rewrite (NumericComponent_split name lead rest Hr Hb Hn).
    rewrite <- (bytes_roundtrip lead) in Hout.
    apply ParseInt_out_of_range in Hout. rewrite Hout. by eexists.
  - intros [e He].
    destruct (decide (recognised_ext (Go.Base name))) as [Hr|Hr];
      [|rewrite NumericComponent_no_ext in He by done; by simplify_eq].
    split; [done|].
    destruct (index_from_cases underscore (Go.to_bytes (Go.Base name)))
      as [[Hn _]|(lead & rest & Hb & Hn & _)];
      [rewrite NumericComponent_no_separator in He by done; by simplify_eq|].
    exists lead, rest. split; [done|]. split; [done|].
    rewrite (NumericComponent_split name lead rest Hr Hb Hn) in He.
    destruct (Go.ParseInt (Go.of_bytes lead)) as [n [e'|]] eqn:EP.
    + injection He as -> ->.
      rewrite <- (bytes_roundtrip lead). apply ParseInt_out_of_range.
      destruct (ParseInt_error_cases _ _ _ EP) as [[? _]|[-> _]]; [done|].
      exact EP.
    + destruct (n <=? 0); by simplify_eq.
Qed.

(** C10, as the code has it: a file name whose version cannot be
    extracted is registered without any report under the number that
    [NumericComponent] returns beside its error, or meets the conflict
    panic when that number is taken.  The number is the largest int64
    exactly for the names out of range above, the least int64 exactly for
    the names out of range below, and 0 for every other name; a name is
    out of range when its base name has a recognised extension and the
    text before its first underscore, behind an optional sign, starts
    with decimal digits beyond 2^64-1 (whatever follows them) or
    consists of decimal digits beyond the int64 bound of the sign.  A
    later registration whose name yields the same number panics as a
    conflict. *)
Theorem AddNamedMigration_unparsable
    (filename filename2 : string) (e : error) (up down up2 down2 : option GoFn)
    (r : Registry) :
  snd (NumericComponent filename) = Some e →
  let v := fst (NumericComponent filename) in
  (v = int64_max ↔ name_out_of_range false filename) ∧
  (v = int64_min ↔ name_out_of_range true filename) ∧
  (v = 0 ↔ ¬ name_out_of_range false filename ∧ ¬ name_out_of_range true filename) ∧
  (if is_range_error e then v = int64_max ∨ v = int64_min else v = 0) ∧
  (reg_map r !! v = None →
   ∃ r', AddNamedMigration filename up down r = Ok r' ∧
         reg_map r' !! v = Some (length (reg_heap r)) ∧
         reg_heap r' !! length (reg_heap r)
           = Some (mkMigration v (-1) (-1) filename true false up down) ∧
         (fst (NumericComponent filename2) = v →
          AddNamedMigration filename2 up2 down2 r'
          = Panic (PanicConflict filename2 filename))) ∧
  (∀ q existing, reg_map r !! v = Some q → reg_heap r !! q = Some existing →
     AddNamedMigration filename up down r
     = Panic (PanicConflict filename (Source existing))).
Proof.
  intros He v.
  assert (Hside : ∀ neg, v = int64_bound neg ↔ name_out_of_range neg filename).
  { intros neg. rewrite NumericComponent_out_of_range. subst v. split.
    - intros Hv. exists e. destruct (NumericComponent filename) as [n o].
      simpl in *. by subst.
    - intros [e' ->]. done. }
  pose proof (NumericComponent_error_value filename e He) as Hval. fold v in Hval.
  split; [exact (Hside false)|]. split; [exact (Hside true)|].
  split; [|split; [exact Hval|split]].
  - rewrite <- (Hside false), <- (Hside true). unfold int64_bound, int64_max, int64_min.
    split; [lia|]. intros [Hmax Hmin].
    destruct (is_range_error e); [|done].
    unfold int64_max, int64_min in Hval. lia.
  - intros Hfree. eexists. split; [by apply AddNamedMigration_fresh|].
    simpl. split; [by rewrite lookup_insert_eq|].
    split; [by apply list_lookup_middle|].
    intros Hv. eapply AddNamedMigration_twice; [by apply AddNamedMigration_fresh|done].
  - intros q existing Hq Hex. unfold AddNamedMigration.
    destruct (NumericComponent filename) as [n o] eqn:EN. subst v. simpl in Hq.
    rewrite Hq. unfold load.
    by rewrite (lookup_app_l_Some _ _ _ _ Hex).
Qed.

Lemma AddNamedMigration_unparsable_witness :
  fst (NumericComponent "notes.txt") = 0 ∧
  ∃ r', AddNamedMigration "notes.txt" None None Sample.empty_registry = Ok r' ∧
        reg_map r' !! 0 = Some 0%nat ∧
        AddNamedMigration "helper.go" None None r'
        = Panic (PanicConflict "helper.go" "notes.txt").
Proof.
  destruct (AddNamedMigration_unparsable "notes.txt" "helper.go"
              (ErrNew "not a recognized migration file type")
              None None None None Sample.empty_registry) as (_ & _ & _ & H0 & H1 & _).
  { vm_compute. reflexivity. }
  split; [exact H0|].
  destruct H1 as (r' & Hr & Hm & _ & Hp); [vm_compute; reflexivity|].
  exists r'. split; [exact Hr|]. split; [exact Hm|].
  apply Hp. vm_compute. reflexivity.
Defined.

(** C10 as stated fails on a leading number beyond the int64 range: the
    version of such a name cannot be extracted, yet it is registered
    under 9223372036854775807 and version 0 stays free. *)
Lemma AddNamedMigration_range_counterexample :
  snd (NumericComponent "9223372036854775808_x.go")
  = Some (ErrNum "ParseInt" "9223372036854775808" ErrRange) ∧
  ∃ r', AddNamedMigration "9223372036854775808_x.go" None None Sample.empty_registry
        = Ok r' ∧
        reg_map r' !! 0 = None ∧
        reg_map r' !! 9223372036854775807 = Some 0%nat.
Proof.
  split; [vm_compute; reflexivity|].
  eexists. split; [vm_compute; reflexivity|].
  split; vm_compute; reflexivity.
Qed.

(** Digits beyond 2^64-1 decide the outcome before the parser reaches
    the letter behind them; a minus sign gives the least int64. *)
Example NumericComponent_out_of_range_names :
  NumericComponent "99999999999999999999999999x_x.go"
  = (int64_max, Some (ErrNum "ParseInt" "99999999999999999999999999x" ErrRange)) ∧
  NumericComponent "-9223372036854775809_x.go"
  = (int64_min, Some (ErrNum "ParseInt" "-9223372036854775809" ErrRange)) ∧
  NumericComponent "123x_x.go" = (0, Some (ErrNum "ParseInt" "123x" ErrSyntax)).
Proof. repeat split; vm_compute; reflexivity. Qed.

(** C7, as the code has it: [NumericComponent] succeeds exactly when the
    base name has extension [.go] or [.sql] and starts with a non-empty
    run of decimal digits, optionally behind one plus sign, that is
    followed by an underscore and denotes a number in 1 .. 2^63-1; it
    then returns that number, which without a sign is the leading digit
    run.  It returns an error exactly when the extension is not
    recognised, the base name has no underscore, or the text before the
    first underscore is not an int64 literal or denotes a number <= 0. *)
Theorem NumericComponent_spec (name : string) (n : Z) :
  (NumericComponent name = (n, None) ↔
   recognised_ext (Go.Base name) ∧
   ∃ sign digits rest,
     Go.to_bytes (Go.Base name) = sign ++ digits ++ underscore :: rest ∧
     ((sign = [] ∧ Go.to_bytes (leading_digits (Go.Base name)) = digits) ∨
      sign = ["+"%char]) ∧
     digits ≠ [] ∧ all_digits digits ∧ n = dec_value digits ∧
     0 < n ≤ int64_max) ∧
  ((∃ e, snd (NumericComponent name) = Some e) ↔
   ¬ recognised_ext (Go.Base name) ∨
   (underscore ∉ Go.to_bytes (Go.Base name)) ∨
   ∃ lead rest, Go.to_bytes (Go.Base name) = lead ++ underscore :: rest ∧
                (underscore ∉ lead) ∧ ∀ n', int_literal lead n' → n' ≤ 0).
Proof.
  split; [|apply NumericComponent_error_iff].
  rewrite NumericComponent_ok_iff. split.
  - intros (Hr & lead & rest & Hb & Hn & Hlit & Hpos). split; [done|].
    destruct (proj1 (positive_literal lead n) (conj Hlit Hpos))
      as (sign & digits & -> & Hs & Hne & Hd & -> & Hrange).
    exists sign, digits, rest. rewrite <- app_assoc in Hb.
    split; [done|]. split; [|done].
    destruct Hs as [-> | ->]; [left|by right]. split; [done|].
    unfold leading_digits. rewrite bytes_roundtrip, Hb. simpl.
    by apply take_while_digits.
  - intros (Hr & sign & digits & rest & Hb & Hs & Hne & Hd & -> & Hrange).
    split; [done|]. exists (sign ++ digits), rest.
    rewrite <- app_assoc. split; [done|].
    assert (Hs' : sign = [] ∨ sign = ["+"%char]) by (destruct Hs as [[-> _] | ->]; auto).
    split.
    + intros [Hin|Hin]%elem_of_app; [|by apply (digits_no_underscore digits)].
      destruct Hs' as [-> | ->]; [by apply elem_of_nil in Hin|].
      apply list_elem_of_singleton in Hin. discriminate Hin.
    + apply positive_literal. by exists sign, digits.
Qed.

(** C7 as stated fails on a base name that starts with a plus sign: the
    extractor returns 5 for [+5_a.sql], whose leading digit run is
    empty. *)
Lemma NumericComponent_plus_counterexample :
  NumericComponent "+5_a.sql" = (5, None) ∧
  leading_digits (Go.Base "+5_a.sql") = ""%string.
Proof. split; vm_compute; reflexivity. Qed.

Example NumericComponent_path : NumericComponent "db/001_init.sql" = (1, None).
Proof. vm_compute. reflexivity. Qed.

Example NumericComponent_other_ext :
  NumericComponent "x.txt" = (0, Some (ErrNew "not a recognized migration file type")).
Proof. vm_compute. reflexivity. Qed.

Example NumericComponent_negative :
  NumericComponent "-5_a.sql" = (0, Some (ErrNew "migration IDs must be greater than zero")).
Proof. vm_compute. reflexivity. Qed.

Example NumericComponent_letters :
  NumericComponent "12ab_x.sql" = (0, Some (ErrNum "ParseInt" "12ab" ErrSyntax)).
Proof. vm_compute. reflexivity. Qed.

(** ** Executing a registered Go migration *)

Section Execution.

Lemma to_bytes_app (a b : string) :
  Go.to_bytes (a +:+ b) = Go.to_bytes a ++ Go.to_bytes b.
Proof.
  unfold Go.to_bytes. induction a as [|c a IH]; [done|].
  simpl. by rewrite IH.
Qed.

Lemma is_prefix_app (sub post : list ascii) : Go.is_prefix sub (sub ++ post) = true.
Proof.
  induction sub as [|c sub IH]; [done|].
  simpl. by rewrite Ascii.eqb_refl, IH.
Qed.

Lemma index_from_nonneg_cons (sub l : list ascii) (a : ascii) :
  0 ≤ Go.index_from sub l → 0 ≤ Go.index_from sub (a :: l).
Proof.
  intros H. cbn [Go.index_from].
  destruct (Go.is_prefix sub (a :: l)); [done|].
  destruct (Z.ltb_spec (Go.index_from sub l) 0); lia.
Qed.

Lemma index_from_inside (sub pre post : list ascii) :
  0 ≤ Go.index_from sub (pre ++ sub ++ post).
Proof.
  induction pre as [|a pre IH].
  - simpl. pose proof (is_prefix_app sub post) as Hp.
    destruct (sub ++ post); cbn [Go.index_from]; by rewrite Hp.
  - simpl. by apply index_from_nonneg_cons.
Qed.

Lemma contains_middle (a b c : string) : contains (a +:+ b +:+ c) b = true.
Proof.
  unfold contains, Go.Index. apply Z.leb_le.
  rewrite !to_bytes_app. apply index_from_inside.
Qed.

Lemma byte_of_byte (c : ascii) : Go.of_byte (Go.byte c) = c.
Proof.
  unfold Go.of_byte, Go.byte.
  pose proof (nat_ascii_bounded c) as Hb.
  rewrite Z.mod_small by lia. rewrite Nat2Z.id. apply ascii_nat_embedding.
Qed.

Lemma byte_inj (c c' : ascii) : Go.byte c = Go.byte c' → c = c'.
Proof.
  intros H. rewrite <- (byte_of_byte c), <- (byte_of_byte c'). by rewrite H.
Qed.

(** On plain text the loop of [Quote] copies every byte. *)
Lemma quote_loop_plain (tables : Z → bool) (bs : list ascii) :
  Forall (fun c => 32 ≤ Go.byte c ≤ 126 ∧ c ≠ Go.quote_char ∧ c ≠ Go.backslash) bs →
  Go.quote_loop tables bs 0 = bs.
Proof.
  induction 1 as [|c bs (Hr & Hq & Hb) _ IH]; [done|].
  cbn [Go.quote_loop]. unfold Go.RuneSelf.
  destruct (Z.ltb_spec (Go.byte c) 128); [|lia].
  unfold Go.RuneError. destruct (Z.eqb_spec (Go.byte c) 65533); [lia|].
  rewrite andb_false_r. unfold Go.appendEscapedRune.
  destruct (Z.eqb_spec (Go.byte c) (Go.byte Go.quote_char)) as [E|_];
    [by apply byte_inj in E|].
  destruct (Z.eqb_spec (Go.byte c) (Go.byte Go.backslash)) as [E|_];
    [by apply byte_inj in E|].
  cbn [orb]. unfold Go.IsPrint.
  destruct (Z.leb_spec (Go.byte c) 255); [|lia].
  destruct (Z.leb_spec 32 (Go.byte c)); [|lia].
  destruct (Z.leb_spec (Go.byte c) 126); [|lia].
  cbn [andb]. unfold Go.AppendRune.
  destruct (Z.leb_spec (Go.byte c) 127); [|lia].
  rewrite byte_of_byte. simpl. by rewrite IH.
Qed.

(** Plain text is quoted by putting it between two double quotes. *)
Lemma Quote_plain (tables : Z → bool) (s : string) :
  plain_text s →
  Go.to_bytes (Go.Quote tables s) = Go.quote_char :: Go.to_bytes s ++ [Go.quote_char].
Proof.
  intros Hp. unfold Go.Quote. rewrite bytes_roundtrip.
  by rewrite (quote_loop_plain tables _ Hp).
Qed.

(** A quoted plain text within a longer text shows the text itself. *)
Lemma contains_quoted_plain (tables : Z → bool) (a s c : string) :
  plain_text s → contains (a +:+ Go.Quote tables s +:+ c) s = true.
Proof.
  intros Hp. unfold contains, Go.Index. apply Z.leb_le.
  rewrite !to_bytes_app, (Quote_plain tables s Hp).
  replace (Go.to_bytes a ++ (Go.quote_char :: Go.to_bytes s ++ [Go.quote_char])
           ++ Go.to_bytes c)
    with ((Go.to_bytes a ++ [Go.quote_char]) ++ Go.to_bytes s
          ++ ([Go.quote_char] ++ Go.to_bytes c)).
  - apply index_from_inside.
  - rewrite <- !app_assoc. simpl. by rewrite <- !app_assoc.
Qed.

End Execution.

(** C4, as the code has it.  A registered [.go] migration whose
    transaction opens runs its forward or backward function, when it has
    one, inside that transaction; only after the function succeeds is the
    history record inserted (forward) or deleted (backward), and commit
    follows.  It returns no error exactly when all three steps succeed,
    and then the committed table is the written one.  On any failure the
    committed history is unchanged.  A failing function is followed by a
    rollback and an error whose text carries the base name of the source
    as [%q] renders it: always in its quoted form, and as it stands when
    the name is plain text, which the quoting copies.  A failing history
    write is followed by a rollback and the error
    [failed to execute transaction] around the cause; a failing commit is
    followed by no further call and the error
    [failed to commit transaction] around the cause. *)
Theorem run_registered_go (d : Driver) (m : Migration) (w w' : World)
    (direction : bool) (r : option error) :
  Go.Ext (Source m) = ".go"%string →
  Registered m = true →
  begin_result d = None →
  run d m w direction = (w', r) →
  let fn := if direction then UpFn m else DownFn m in
  let ran := match fn with Some f => f (committed w) | None => (committed w, None) end in
  let opened := events w ++ [EvBegin] ++
                match fn with Some _ => [EvCallFn direction] | None => [] end in
  let write := if direction then EvInsertVersion (Version m) true
               else EvDeleteVersion (Version m) in
  let written := if direction then insertVersionSQL d (Version m) true (fst ran)
                 else deleteVersionSQL d (Version m) (fst ran) in
  (r = None ↔ snd ran = None ∧ exec_result d = None ∧ commit_result d = None) ∧
  (r = None → w' = mkWorld written (opened ++ [write; EvCommit])) ∧
  (r ≠ None → committed w' = committed w) ∧
  (∀ e, snd ran = Some e →
     events w' = opened ++ [EvRollback] ∧
     r = Some (ErrWrapf e "failed to run Go migration " (Go.Base (Source m))) ∧
     (∀ tables e', r = Some e' →
        contains (Error tables e') (Go.Quote tables (Go.Base (Source m))) = true ∧
        (plain_text (Go.Base (Source m)) → names_source tables e' m = true))) ∧
  (∀ e, snd ran = None → exec_result d = Some e →
     events w' = opened ++ [write; EvRollback] ∧
     r = Some (ErrWrap e "failed to execute transaction")) ∧
  (∀ e, snd ran = None → exec_result d = None → commit_result d = Some e →
     events w' = opened ++ [write; EvCommit] ∧
     r = Some (ErrWrap e "failed to commit transaction")).
Proof.
  intros Hext Hreg Hbegin Hrun. unfold run in Hrun.
  rewrite Hext, Hreg, Hbegin in Hrun. simpl in Hrun.
  destruct direction, w as [t evs]; simpl in *.
  - destruct (UpFn m) as [f|]; [destruct (f t) as [t' [e|]] eqn:Ef|]; simpl in *;
      destruct (exec_result d) as [ee|]; try destruct (commit_result d) as [ce|];
      simplify_eq; simpl; rewrite <- ?app_assoc; simpl;
      repeat split; try done; try (intros; simplify_eq; done);
      try (intros (? & ? & ?); done);
      intros; simplify_eq; try done;
      try (repeat split; try done; intros; simplify_eq;
           unfold names_source; cbn [Error];
           first [apply contains_middle | by apply contains_quoted_plain]).
  - destruct (DownFn m) as [f|]; [destruct (f t) as [t' [e|]] eqn:Ef|]; simpl in *;
      destruct (exec_result d) as [ee|]; try destruct (commit_result d) as [ce|];
      simplify_eq; simpl; rewrite <- ?app_assoc; simpl;
      repeat split; try done; try (intros; simplify_eq; done);
      try (intros (? & ? & ?); done);
      intros; simplify_eq; try done;
      try (repeat split; try done; intros; simplify_eq;
           unfold names_source; cbn [Error];
           first [apply contains_middle | by apply contains_quoted_plain]).
Qed.

Lemma run_registered_go_witness :
  committed (fst (run Sample.driver_commit_fails Sample.go_migration Sample.world0 true))
  = committed Sample.world0.
Proof.
  destruct (run_registered_go Sample.driver_commit_fails Sample.go_migration
              Sample.world0
              (fst (run Sample.driver_commit_fails Sample.go_migration Sample.world0 true))
              true
              (snd (run Sample.driver_commit_fails Sample.go_migration Sample.world0 true)))
    as (_ & _ & H & _).
  - vm_compute. reflexivity.
  - reflexivity.
  - reflexivity.
  - vm_compute. reflexivity.
  - apply H. vm_compute. discriminate.
Defined.

(** C4 as stated fails where the history write fails: the transaction is
    rolled back and the history is unchanged, but the error returned,
    [failed to execute transaction: boom], does not show the migration's
    source. *)
Lemma run_exec_failure_counterexample :
  run Sample.driver_exec_fails Sample.go_migration Sample.world0 true
  = (mkWorld (committed Sample.world0)
             [EvBegin; EvCallFn true; EvInsertVersion 1 true; EvRollback],
     Some (ErrWrap (ErrDriver "boom") "failed to execute transaction")) ∧
  (∀ tables,
     Error tables (ErrWrap (ErrDriver "boom") "failed to execute transaction")
     = "failed to execute transaction: boom"%string ∧
     names_source tables (ErrWrap (ErrDriver "boom") "failed to execute transaction")
                  Sample.go_migration = false).
Proof. repeat split; vm_compute; reflexivity. Qed.

(** A failing commit is not followed by a rollback call, and its error
    does not show the source either. *)
Example run_commit_failure :
  run Sample.driver_commit_fails Sample.go_migration Sample.world0 true
  = (mkWorld (committed Sample.world0)
             [EvBegin; EvCallFn true; EvInsertVersion 1 true; EvCommit],
     Some (ErrWrap (ErrDriver "gone") "failed to commit transaction")) ∧
  (∀ tables,
     names_source tables (ErrWrap (ErrDriver "gone") "failed to commit transaction")
                  Sample.go_migration = false).
Proof. repeat split; vm_compute; reflexivity. Qed.

(** A failing function: the text of the error shows the base name
    between double quotes. *)
Example run_function_failure :
  run Sample.driver_ok Sample.go_failing Sample.world0 true
  = (mkWorld (committed Sample.world0) [EvBegin; EvCallFn true; EvRollback],
     Some (ErrWrapf (ErrNew "boom") "failed to run Go migration " "3_c.go")) ∧
  Error Sample.no_tables (ErrWrapf (ErrNew "boom") "failed to run Go migration " "3_c.go")
  = "failed to run Go migration " +:+ String Go.quote_char "3_c.go"
    +:+ String Go.quote_char ": boom" ∧
  names_source Sample.no_tables
    (ErrWrapf (ErrNew "boom") "failed to run Go migration " "3_c.go") Sample.go_failing
  = true.
Proof. repeat split; vm_compute; reflexivity. Qed.

(** With a backslash in the base name the quoting doubles it, and the
    text of the error no longer shows the base name as it stands. *)
Example run_function_failure_escaped :
  snd (run Sample.driver_ok Sample.go_failing_backslash Sample.world0 true)
  = Some (ErrWrapf (ErrNew "boom") "failed to run Go migration " "3_c\d.go") ∧
  Error Sample.no_tables
        (ErrWrapf (ErrNew "boom") "failed to run Go migration " "3_c\d.go")
  = "failed to run Go migration " +:+ String Go.quote_char "3_c\\d.go"
    +:+ String Go.quote_char ": boom" ∧
  names_source Sample.no_tables
    (ErrWrapf (ErrNew "boom") "failed to run Go migration " "3_c\d.go")
    Sample.go_failing_backslash
  = false.
Proof. repeat split; vm_compute; reflexivity. Qed.

Example run_success :
  run Sample.driver_ok Sample.go_migration Sample.world0 true
  = (mkWorld [mkRecord 1 0 0 true; mkRecord 2 1 0 true]
             [EvBegin; EvCallFn true; EvInsertVersion 1 true; EvCommit],
     None).
Proof. vm_compute. reflexivity. Qed.

(** * Further properties *)

(** ** Filters *)

(** X1: [versionFilter] does not depend on the order of its two bounds:
    the versions selected to go from one version to another are those
    selected to go back. *)
Theorem versionFilter_symmetric (v current target : Z) :
  versionFilter v current target = versionFilter v target current.
Proof.
  unfold versionFilter.
  destruct (Z.ltb_spec current target), (Z.ltb_spec target current); try lia; try done.
  all: apply andb_comm.
Qed.

(** ** Sorting and the reconciling order *)

(** X2: sorting a slice of valid pointers through [Len], [Swap] and
    [Less] returns the same pointers in strictly ascending version order
    exactly when the versions are pairwise distinct, and panics with the
    duplicate-version message exactly when they are not. *)
Theorem sort_Sort_ascending_iff (h : Heap) (ms : Migrations) :
  valid_ptrs h ms →
  ((∃ ms', sort_Sort h ms = Ok ms' ∧ ms' ≡ₚ ms ∧
           StronglySorted Z.lt (versions_of h ms')) ↔ NoDup (versions_of h ms)) ∧
  (is_duplicate_panic (sort_Sort h ms) = true ↔ ¬ NoDup (versions_of h ms)).
Proof.
  intros Hv. destruct (sort_Sort_spec h ms Hv) as [Hok Hdup].
  destruct (decide (NoDup (versions_of h ms))) as [Hnd|Hnd].
  - destruct (Hok Hnd) as (ms' & E & Hp & Hs). split; split; try done.
    rewrite E. discriminate.
  - specialize (Hdup Hnd). split; split; try done.
    intros (ms' & E & _). rewrite E in Hdup. discriminate.
Qed.

Lemma sort_Sort_ascending_iff_witness :
  (∃ ms', sort_Sort Sample.heap3 Sample.slice3 = Ok ms' ∧ ms' ≡ₚ Sample.slice3 ∧
          StronglySorted Z.lt (versions_of Sample.heap3 ms')) ↔
  NoDup (versions_of Sample.heap3 Sample.slice3).
Proof.
  apply (sort_Sort_ascending_iff Sample.heap3 Sample.slice3).
  unfold valid_ptrs, Sample.slice3, Sample.heap3.
  repeat constructor; eexists; reflexivity.
Defined.

(** X3: on valid pointers with pairwise distinct versions the
    reconciling sequencer does not panic; it returns the applied pointers
    in ascending version order followed by the unapplied ones in
    ascending version order, and leaves every version in the store as it
    was. *)
Theorem reconciling_order (h : Heap) (ms : Migrations) (applied : gmap Z bool) :
  valid_ptrs h ms → NoDup (versions_of h ms) →
  ∃ h' sorted,
    sorted ≡ₚ ms ∧
    StronglySorted Z.lt (versions_of h sorted) ∧
    sortAndConnectAllMigrations h ms applied
    = Ok (h', applied_part h applied sorted ++ unapplied_part h applied sorted) ∧
    same_versions h h'.
Proof.
  intros Hv Hnd.
  destruct (sortAndConnectAll_order h ms applied Hv Hnd)
    as (h' & sorted & _ & Hp & Hs & Hr & Hsv).
  by exists h', sorted.
Qed.

Lemma reconciling_order_witness :
  ∃ h' sorted,
    sorted ≡ₚ Sample.slice3 ∧
    StronglySorted Z.lt (versions_of Sample.heap3 sorted) ∧
    sortAndConnectAllMigrations Sample.heap3 Sample.slice3 Sample.applied13
    = Ok (h', applied_part Sample.heap3 Sample.applied13 sorted ++
              unapplied_part Sample.heap3 Sample.applied13 sorted) ∧
    same_versions Sample.heap3 h'.
Proof.
  apply (reconciling_order Sample.heap3 Sample.slice3 Sample.applied13).
  - unfold valid_ptrs, Sample.slice3, Sample.heap3.
    repeat constructor; eexists; reflexivity.
  - unfold versions_of, Sample.slice3, Sample.heap3. simpl. unfold vkey. simpl.
    repeat constructor; rewrite ?elem_of_cons, ?elem_of_nil; intros H;
      repeat destruct H as [H|H]; try discriminate H; done.
Defined.

(** ** The two scans of the history *)

Section Scans.

Lemma all_superseded_cons (skip : list Z) (a : MigrationRecord)
    (rows : list MigrationRecord) :
  (IsApplied a = true → VersionID a ∈ skip) →
  all_superseded (if IsApplied a then skip else skip ++ [VersionID a]) rows →
  all_superseded skip (a :: rows).
Proof.
  intros Ha Hrows pre1 r1 pre2 E Hr1.
  destruct pre1 as [|b pre1]; simpl in E; simplify_eq; [left; by apply Ha|].
  destruct (Hrows pre1 r1 pre2 eq_refl Hr1) as [Hin|(x & Hx & Hv & Hf)].
  - destruct (IsApplied b) eqn:Eb; [by left|].
    apply elem_of_app in Hin as [Hin|Hin%list_elem_of_singleton]; [by left|].
    right. exists b. split; [by left|done].
  - right. exists x. split; [by right|done].
Qed.

(** What the scan can return on rows that all scan, read backwards. *)
Lemma scan_rows_inv (rows : list MigrationRecord) : ∀ (skip : list Z) (v : Z)
    (e : option error),
  scan_rows (ScanOk <$> rows) None skip = (v, e) →
  (e = None ∧ ∃ pre r post, rows = pre ++ r :: post ∧ VersionID r = v ∧
      IsApplied r = true ∧ (v ∉ skip) ∧ ¬ rolled_back_in pre v ∧
      all_superseded skip pre) ∨
  (e = Some ErrNoNextVersion ∧ v = 0 ∧ all_superseded skip rows).
Proof.
  induction rows as [|a rows IH]; intros skip v e H; simpl in H.
  - right. simplify_eq. repeat split. intros [|??] ?? E; discriminate E.
  - destruct (in_skip skip (VersionID a)) eqn:Es.
    + apply in_skip_spec in Es.
      assert (Hc : all_superseded (if IsApplied a then skip else skip ++ [VersionID a]) rows
                   → all_superseded skip (a :: rows)).
      { apply all_superseded_cons. done. }
      destruct (IH _ _ _ H) as [(-> & pre & r & post & -> & Hv & Hr & Hn & Hnb & Hsup)
                               |(-> & -> & Hsup)].
      * left. split; [done|]. exists (a :: pre), r, post.
        repeat split; try done.
        -- intros (x & [->|Hx]%elem_of_cons & Hxv & Hxf); [congruence|].
           apply Hnb. by exists x.
        -- apply all_superseded_cons; [done|].
           destruct (IsApplied a); [done|].
           intros p1 r1 p2 E1 Hr1. destruct (Hsup p1 r1 p2 E1 Hr1) as [?|?]; [|by right].
           left. apply elem_of_app. by left.
      * right. repeat split; try done. apply all_superseded_cons; [done|].
        destruct (IsApplied a); [done|].
        intros p1 r1 p2 E1 Hr1. destruct (Hsup p1 r1 p2 E1 Hr1) as [?|?]; [|by right].
        left. apply elem_of_app. by left.
    + assert (Hns : VersionID a ∉ skip).
      { intros Hin%in_skip_spec. congruence. }
      destruct (IsApplied a) eqn:Ea.
      * simplify_eq. left. split; [done|]. exists [], a, rows.
        repeat split; try done.
        -- intros (x & Hx%elem_of_nil & _). done.
        -- intros [|??] ?? E; discriminate E.
      * destruct (IH _ _ _ H) as [(-> & pre & r & post & -> & Hv & Hr & Hn & Hnb & Hsup)
                                 |(-> & -> & Hsup)].
        -- left. split; [done|]. exists (a :: pre), r, post.
           repeat split; try done.
           ++ intros Hin. apply Hn, elem_of_app. by left.
           ++ intros (x & [->|Hx]%elem_of_cons & Hxv & Hxf).
              ** apply Hn, elem_of_app. right. apply list_elem_of_singleton. done.
              ** apply Hnb. by exists x.
           ++ apply all_superseded_cons; [congruence|]. by rewrite Ea.
        -- right. repeat split; try done.
           apply all_superseded_cons; [congruence|]. by rewrite Ea.
Qed.

(** The record the scan answers with is the first record of its version. *)
Lemma found_is_first (pre : list MigrationRecord) (v : Z) :
  ¬ rolled_back_in pre v → all_superseded [] pre →
  ∀ r', r' ∈ pre → VersionID r' ≠ v.
Proof.
  intros Hnb Hsup r' Hin Hv.
  apply list_elem_of_split in Hin as (p1 & p2 & ->).
  destruct (IsApplied r') eqn:Er.
  - destruct (Hsup p1 r' p2 eq_refl Er) as [Hin%elem_of_nil|(x & Hx & Hxv & Hxf)]; [done|].
    apply Hnb. exists x. split; [|by rewrite <- Hv].
    apply elem_of_app. by left.
  - apply Hnb. exists r'. split; [|done].
    apply elem_of_app. right. by left.
Qed.

Lemma first_record_applied_cons (a : MigrationRecord) (rows : list MigrationRecord) (v : Z) :
  first_record_applied (a :: rows) v ↔
  (VersionID a = v ∧ IsApplied a = true) ∨
  (VersionID a ≠ v ∧ first_record_applied rows v).
Proof.
  unfold first_record_applied. split.
  - intros (pre & r & post & E & Hv & Hr & Hfirst).
    destruct pre as [|b pre]; simpl in E; simplify_eq; [by left|].
    right. split; [apply Hfirst; by left|].
    exists pre, r, post. repeat split; try done.
    intros r' Hr'. apply Hfirst. by right.
  - intros [[Hv Ha]|[Hne (pre & r & post & -> & Hv & Hr & Hfirst)]].
    + exists [], a, rows. repeat split; try done. by intros ? ?%elem_of_nil.
    + exists (a :: pre), r, post. repeat split; try done.
      intros r' [->|Hr']%elem_of_cons; [done|by apply Hfirst].
Qed.

Lemma applied_at_insert (m : gmap Z bool) (u v : Z) :
  applied_at (<[u := true]> m) v = if decide (u = v) then true else applied_at m v.
Proof.
  unfold applied_at. destruct (decide (u = v)) as [->|Hne].
  - by rewrite lookup_insert_eq.
  - by rewrite lookup_insert_ne.
Qed.

(** The loop of [AppliedDBVersions], from any state of its two maps. *)
Lemma applied_scan_spec (rows : list MigrationRecord) : ∀ (A F : gmap Z bool),
  ∃ a, applied_scan (ScanOk <$> rows) A F = Some a ∧
       (∀ v, applied_at a v = true ↔
             applied_at A v = true ∨
             (applied_at F v = false ∧ first_record_applied rows v)) ∧
       (∀ v b, a !! v = Some b → b = true ∨ A !! v = Some b).
Proof.
  induction rows as [|r rows IH]; intros A F; [simpl|rewrite fmap_cons; cbn [applied_scan]].
  - exists A. split; [done|]. split; [|by right].
    intros v. split; [by left|]. intros [?|[_ (pre & ? & ? & E & _)]]; [done|].
    by destruct pre.
  - destruct (IsApplied r && negb (applied_at F (VersionID r))) eqn:Eb.
    + apply andb_true_iff in Eb as [Hr HF]. apply negb_true_iff in HF.
      destruct (IH (<[VersionID r := true]> A) F) as (a & -> & Hiff & Hval).
      exists a. split; [done|]. split.
      * intros v. rewrite Hiff, applied_at_insert, first_record_applied_cons.
        destruct (decide (VersionID r = v)) as [<-|Hne]; [|tauto].
        split; [|by left]. intros _. right. split; [done|]. by left.
      * intros v b Hb. destruct (Hval v b Hb) as [?|Hl]; [by left|].
        destruct (decide (VersionID r = v)) as [<-|Hne].
        -- rewrite lookup_insert_eq in Hl. left. congruence.
        -- rewrite lookup_insert_ne in Hl by done. by right.
    + destruct (IH A (<[VersionID r := true]> F)) as (a & -> & Hiff & Hval).
      exists a. split; [done|]. split; [|done].
      intros v. rewrite Hiff, applied_at_insert, first_record_applied_cons.
      destruct (decide (VersionID r = v)) as [<-|Hne]; [|tauto].
      apply andb_false_iff in Eb. rewrite negb_false_iff in Eb.
      split; [intros [?|[? _]]; [by left|done]|].
      intros [?|[HF [[_ Hr]|[? _]]]]; [by left| |done].
      destruct Eb; congruence.
Qed.

End Scans.

(** X4: on a history that scans without error, [EnsureDBVersion] returns
    version [v] without error exactly when some applied record of version
    [v] has no rollback of [v] before it in query order and every applied
    record before it has an earlier rollback of its own version. *)
Theorem EnsureDBVersion_found_iff (rows : list MigrationRecord) (v : Z)
    (created : option error) :
  EnsureDBVersion (QueryRows (ScanOk <$> rows) None) created = (v, None) ↔
  ∃ pre r post, rows = pre ++ r :: post ∧ VersionID r = v ∧ IsApplied r = true ∧
                ¬ rolled_back_in pre v ∧ all_superseded [] pre.
Proof.
  simpl. split.
  - intros H. apply scan_rows_inv in H
      as [(_ & pre & r & post & -> & Hv & Hr & _ & Hnb & Hsup)|(? & _)]; [|done].
    by exists pre, r, post.
  - intros (pre & r & post & -> & <- & Hr & Hnb & Hsup).
    apply scan_rows_found; try done. by intros ?%elem_of_nil.
Qed.

(** X5: on a history that scans without error, [AppliedDBVersions]
    returns without error a map that holds [true] for exactly the
    versions whose first record in query order is applied, and never
    holds [false]. *)
Theorem AppliedDBVersions_first_record (rows : list MigrationRecord)
    (rows_err created : option error) :
  ∃ a, AppliedDBVersions (QueryRows (ScanOk <$> rows) rows_err) created = Some (a, None) ∧
       (∀ v, a !! v = Some true ↔ first_record_applied rows v) ∧
       (∀ v, a !! v ≠ Some false).
Proof.
  destruct (applied_scan_spec rows ∅ ∅) as (a & E & Hiff & Hval).
  exists a. simpl. rewrite E. split; [done|].
  assert (Htrue : ∀ v b, a !! v = Some b → b = true).
  { intros v b Hb. destruct (Hval v b Hb) as [?|Hl]; [done|].
    by rewrite lookup_empty in Hl. }
  split.
  - intros v. specialize (Hiff v). unfold applied_at in Hiff at 1 2 3.
    rewrite !lookup_empty in Hiff. simpl in Hiff. split.
    + intros Hv. rewrite Hv in Hiff. simpl in Hiff.
      destruct (proj1 Hiff eq_refl) as [?|[_ ?]]; done.
    + intros Hf. destruct (a !! v) as [b|] eqn:Eb.
      * by rewrite (Htrue v b Eb).
      * simpl in Hiff.
        pose proof (proj2 Hiff (or_intror (conj eq_refl Hf))) as Habs.
        discriminate Habs.
  - intros v Hv. by specialize (Htrue v false Hv).
Qed.

(** X6: the two scans agree.  On a history that scans without error, a
    version that [EnsureDBVersion] returns is marked in the map of
    [AppliedDBVersions], and when [EnsureDBVersion] ends with
    [ErrNoNextVersion] that map is empty. *)
Theorem current_version_is_applied (rows : list MigrationRecord) (v : Z)
    (e created : option error) :
  EnsureDBVersion (QueryRows (ScanOk <$> rows) None) created = (v, e) →
  ∃ a, AppliedDBVersions (QueryRows (ScanOk <$> rows) None) created = Some (a, None) ∧
       match e with
       | None => a !! v = Some true
       | Some err => err = ErrNoNextVersion ∧ a = ∅
       end.
Proof.
  intros H.
  destruct (AppliedDBVersions_first_record rows None created) as (a & Ea & Hiff & Hnf).
  exists a. split; [done|]. simpl in H.
  apply scan_rows_inv in H
    as [(-> & pre & r & post & -> & Hv & Hr & _ & Hnb & Hsup)|(-> & -> & Hsup)].
  - apply Hiff. exists pre, r, post. repeat split; try done.
    by apply found_is_first.
  - split; [done|]. apply map_eq. intros u. rewrite lookup_empty.
    destruct (a !! u) as [[]|] eqn:Eu; [|by destruct (Hnf u)|done].
    apply Hiff in Eu as (pre & r & post & -> & Hv & Hr & Hfirst).
    destruct (Hsup pre r post eq_refl Hr) as [Hin%elem_of_nil|(x & Hx & Hxv & _)]; [done|].
    destruct (Hfirst x Hx). congruence.
Qed.

Lemma current_version_is_applied_witness :
  ∃ a, AppliedDBVersions
         (QueryRows (ScanOk <$> [mkRecord 3 2 0 false; mkRecord 2 2 0 true;
                                 mkRecord 1 1 0 true]) None) None
       = Some (a, None) ∧ a !! 1 = Some true.
Proof.
  apply (current_version_is_applied
           [mkRecord 3 2 0 false; mkRecord 2 2 0 true; mkRecord 1 1 0 true]
           1 None None).
  reflexivity.
Defined.

(** ** The registry *)

(** X7: [AddNamedMigration] on a well-formed registry returns normally
    exactly when the version of the file name is free, and panics with
    the conflict message naming the earlier source otherwise.  When it
    returns, the registry is again well-formed, the new version points to
    the new record, and every other version and every earlier record is
    as before. *)
Theorem AddNamedMigration_registry (filename : string) (up down : option GoFn)
    (r : Registry) :
  registry_wf r →
  let v := fst (NumericComponent filename) in
  match reg_map r !! v with
  | Some q =>
      ∃ existing, reg_heap r !! q = Some existing ∧
        AddNamedMigration filename up down r
        = Panic (PanicConflict filename (Source existing))
  | None =>
      ∃ r', AddNamedMigration filename up down r = Ok r' ∧
        registry_wf r' ∧
        (∃ p, reg_map r' !! v = Some p ∧
              reg_heap r' !! p
              = Some (mkMigration v (-1) (-1) filename true false up down)) ∧
        (∀ u, u ≠ v → reg_map r' !! u = reg_map r !! u) ∧
        (∀ p m, reg_heap r !! p = Some m → reg_heap r' !! p = Some m)
  end.
Proof.
  intros Hwf v. destruct (reg_map r !! v) as [q|] eqn:E.
  - destruct (Hwf v q E) as (m & Hm & _). exists m. split; [done|].
    unfold AddNamedMigration. fold v.
    destruct (NumericComponent filename) as [v' e]. simpl in v. subst v.
    rewrite E. unfold load. rewrite lookup_app_l by (by eapply lookup_lt_Some).
    by rewrite Hm.
  - eexists. split; [by apply AddNamedMigration_fresh|]. simpl. fold v.
    split; [|split; [|split]].
    + intros u p Hu. simpl in *. destruct (decide (v = u)) as [<-|Hne].
      * rewrite lookup_insert_eq in Hu. simplify_eq.
        eexists. split; [by apply list_lookup_middle|done].
      * rewrite lookup_insert_ne in Hu by done.
        destruct (Hwf u p Hu) as (m & Hm & Hv & Hr). exists m.
        split; [|done]. rewrite lookup_app_l by (by eapply lookup_lt_Some). done.
    + eexists. split; [by rewrite lookup_insert_eq|]. by apply list_lookup_middle.
    + intros u Hne. by rewrite lookup_insert_ne.
    + intros p m Hm. rewrite lookup_app_l by (by eapply lookup_lt_Some). done.
Qed.

Lemma AddNamedMigration_registry_witness :
  ∃ r', AddNamedMigration "00002_users.go" None None Sample.empty_registry = Ok r' ∧
        registry_wf r' ∧
        (∃ p, reg_map r' !! 2 = Some p ∧
              reg_heap r' !! p
              = Some (mkMigration 2 (-1) (-1) "00002_users.go" true false None None)) ∧
        (∀ u, u ≠ 2 → reg_map r' !! u = reg_map Sample.empty_registry !! u) ∧
        (∀ p m, reg_heap Sample.empty_registry !! p = Some m → reg_heap r' !! p = Some m).
Proof.
  apply (AddNamedMigration_registry "00002_users.go" None None Sample.empty_registry).
  intros v p H. unfold Sample.empty_registry in H. simpl in H.
  rewrite lookup_empty in H. discriminate H.
Defined.

(** ** Executing script migrations and unregistered Go migrations *)

(** X8: a [.sql] migration is handed to the script runner in one call,
    with its source, its version and the direction; the engine opens no
    transaction and writes no history record of its own, the database is
    left as the runner leaves it, and a failure of the runner comes back
    wrapped in an error whose text carries the base name of the script as
    [%q] renders it: always in its quoted form, and as it stands when the
    name is plain text. *)
Theorem run_script (d : Driver) (m : Migration) (w : World) (direction : bool) :
  Go.Ext (Source m) = ".sql"%string →
  let ran := runSQLMigration d (committed w) (Source m) (Version m) direction in
  fst (run d m w direction)
  = mkWorld (fst ran) (events w ++ [EvRunSQL (Source m) (Version m) direction]) ∧
  (snd (run d m w direction) = None ↔ snd ran = None) ∧
  (∀ e, snd ran = Some e →
        snd (run d m w direction)
        = Some (ErrWrapf e "failed to run SQL migration " (Go.Base (Source m))) ∧
        ∀ tables e', snd (run d m w direction) = Some e' →
          contains (Error tables e') (Go.Quote tables (Go.Base (Source m))) = true ∧
          (plain_text (Go.Base (Source m)) → names_source tables e' m = true)).
Proof.
  intros Hext ran. unfold run. rewrite Hext. simpl. fold ran.
  destruct ran as [t [e|]]; simpl.
  - split; [done|]. split; [done|]. intros e0 [= <-]. split; [done|].
    intros tables e' [= <-]. split.
    + apply contains_middle.
    + intros Hp. unfold names_source. cbn [Error]. by apply contains_quoted_plain.
  - split; [done|]. split; [done|]. intros e0 [=].
Qed.

Lemma run_script_witness :
  fst (run Sample.driver_ok (Sample.script 1 "db/1_a.sql") Sample.world0 true)
  = mkWorld (committed Sample.world0) [EvRunSQL "db/1_a.sql" 1 true].
Proof.
  apply (run_script Sample.driver_ok (Sample.script 1 "db/1_a.sql") Sample.world0 true).
  vm_compute. reflexivity.
Defined.

(** A failing script: the text of the error shows the base name between
    double quotes. *)
Example run_script_failure :
  snd (run Sample.driver_script_fails (Sample.script 1 "db/1_a.sql") Sample.world0 true)
  = Some (ErrWrapf (ErrDriver "syntax error") "failed to run SQL migration " "1_a.sql") ∧
  Error Sample.no_tables
        (ErrWrapf (ErrDriver "syntax error") "failed to run SQL migration " "1_a.sql")
  = "failed to run SQL migration " +:+ String Go.quote_char "1_a.sql"
    +:+ String Go.quote_char ": syntax error".
Proof. split; vm_compute; reflexivity. Qed.

(** X9: a [.go] migration that was discovered as a file but never
    registered is not executed: no call is issued, the database is as
    before, and the text of the error returned carries the source of the
    migration as [%q] renders it: always in its quoted form, and as it
    stands when the source is plain text. *)
Theorem run_unregistered_go (d : Driver) (m : Migration) (w : World) (direction : bool) :
  Go.Ext (Source m) = ".go"%string →
  Registered m = false →
  let e := ErrErrorf unregistered_before (Source m) unregistered_after in
  run d m w direction = (w, Some e) ∧
  ∀ tables,
    contains (Error tables e) (Go.Quote tables (Source m)) = true ∧
    (plain_text (Source m) → contains (Error tables e) (Source m) = true).
Proof.
  intros Hext Hreg e. unfold run. rewrite Hext, Hreg. simpl. split; [done|].
  intros tables. subst e. cbn [Error]. split.
  - apply contains_middle.
  - intros Hp. by apply contains_quoted_plain.
Qed.

Lemma run_unregistered_go_witness :
  run Sample.driver_ok (Sample.script 9 "db/9_z.go") Sample.world0 true
  = (Sample.world0,
     Some (ErrErrorf unregistered_before "db/9_z.go" unregistered_after)) ∧
  contains (Error Sample.no_tables
              (ErrErrorf unregistered_before "db/9_z.go" unregistered_after))
           "db/9_z.go" = true.
Proof.
  destruct (run_unregistered_go Sample.driver_ok (Sample.script 9 "db/9_z.go")
              Sample.world0 true) as [Hrun Htext].
  - vm_compute. reflexivity.
  - reflexivity.
  - split; [exact Hrun|].
    apply (Htext Sample.no_tables). by apply (bool_decide_unpack _).
Defined.

(** ** Simple ordering *)

Section SimpleOrdering.

Lemma links_of_valid (h : Heap) (p : ptr) :
  is_Some (h !! p) → links_of h p = Some (vkey h p, pkey h p, nkey h p).
Proof.
  intros [m Hm]. unfold links_of, vkey, pkey, nkey. by rewrite Hm.
Qed.

Lemma store_Next_spec (h : Heap) (q : ptr) (v : Z) :
  is_Some (h !! q) →
  ∃ h', store h q (fun x => set_Next x v) = Ok h' ∧ same_versions h h' ∧
        (∀ p, pkey h' p = pkey h p) ∧
        (∀ p, nkey h' p = if decide (p = q) then v else nkey h p).
Proof.
  intros Hq. destruct (store_ok h q (fun x => set_Next x v) Hq) as (h' & E & Hs); [done|].
  exists h'. split; [done|]. split; [done|].
  destruct Hq as [m Hm]. unfold store in E. rewrite Hm in E. simplify_eq.
  split; intros p; unfold pkey, nkey; destruct (decide (p = q)) as [->|Hne].
  - rewrite list_lookup_insert_eq by (by eapply lookup_lt_Some). by rewrite Hm.
  - by rewrite list_lookup_insert_ne.
  - by rewrite list_lookup_insert_eq by (by eapply lookup_lt_Some).
  - by rewrite list_lookup_insert_ne.
Qed.

Lemma store_Previous_spec (h : Heap) (q : ptr) (v : Z) :
  is_Some (h !! q) →
  ∃ h', store h q (fun x => set_Previous x v) = Ok h' ∧ same_versions h h' ∧
        (∀ p, nkey h' p = nkey h p) ∧
        (∀ p, pkey h' p = if decide (p = q) then v else pkey h p).
Proof.
  intros Hq. destruct (store_ok h q (fun x => set_Previous x v) Hq) as (h' & E & Hs); [done|].
  exists h'. split; [done|]. split; [done|].
  destruct Hq as [m Hm]. unfold store in E. rewrite Hm in E. simplify_eq.
  split; intros p; unfold pkey, nkey; destruct (decide (p = q)) as [->|Hne].
  - rewrite list_lookup_insert_eq by (by eapply lookup_lt_Some). by rewrite Hm.
  - by rewrite list_lookup_insert_ne.
  - by rewrite list_lookup_insert_eq by (by eapply lookup_lt_Some).
  - by rewrite list_lookup_insert_ne.
Qed.

(** The version that precedes position [i] of a slice, or the sentinel. *)
Lemma NoDup_lookup_ne (ms : Migrations) (i j : nat) (p q : ptr) :
  NoDup ms → ms !! i = Some p → ms !! j = Some q → i ≠ j → p ≠ q.
Proof.
  intros Hnd Hi Hj Hij ->. apply Hij. by eapply NoDup_lookup.
Qed.

(** The linking loop over the slice it indexes, from position [i]. *)
Lemma connect_loop_chain (ranged : Migrations) : ∀ (h : Heap) (pre : Migrations),
  valid_ptrs h (pre ++ ranged) → NoDup (pre ++ ranged) →
  Forall (fun p => nkey h p = -1) ranged →
  ∃ h', connect_loop (pre ++ ranged) h (length pre) ranged = Ok h' ∧
        same_versions h h' ∧
        omap (links_of h') ranged
        = chain_from (match last pre with Some q => vkey h q | None => -1 end)
                     (versions_of h ranged) ∧
        (∀ k p, pre !! k = Some p →
                pkey h' p = pkey h p ∧
                ((S k < length pre)%nat → nkey h' p = nkey h p)) ∧
        (∀ q, last pre = Some q →
              nkey h' q = match ranged with [] => nkey h q | m :: _ => vkey h m end).
Proof.
  induction ranged as [|m ranged IH]; intros h pre Hv Hnd Hn.
  - exists h. split; [done|]. split; [apply same_versions_refl|]. by repeat split.
  - set (ms := pre ++ m :: ranged) in *.
    assert (Hm : ms !! length pre = Some m) by (by apply list_lookup_middle).
    assert (Hvm : is_Some (h !! m)) by (by eapply valid_ptrs_lookup).
    apply Forall_cons in Hn as [Hnm Hn].
    cbn [connect_loop].
    set (prev := match last pre with Some q => vkey h q | None => -1 end).
    assert (∃ h1,
      (if (0 <? length pre)%nat
       then q ←! at_index ms (length pre - 1); mq ←! load h q; mm ←! load h m;
            h' ←! store h q (fun x => set_Next x (Version mm)); Ok (Version mq, h')
       else Ok (-1, h)) = Ok (prev, h1) ∧ same_versions h h1 ∧
      (∀ p, pkey h1 p = pkey h p) ∧
      (∀ p, nkey h1 p = if decide (last pre = Some p) then vkey h m else nkey h p))
      as (h1 & -> & Hs1 & Hp1 & Hn1).
    { destruct pre as [|a pre'] using rev_ind.
      - exists h. simpl. split; [done|]. split; [apply same_versions_refl|].
        by split.
      - clear IHpre'. rewrite length_app. simpl.
        replace (0 <? length pre' + 1)%nat with true by (symmetry; apply Nat.ltb_lt; lia).
        replace (length pre' + 1 - 1)%nat with (length pre') by lia.
        assert (Ha : ms !! length pre' = Some a).
        { unfold ms. rewrite <- app_assoc. by apply list_lookup_middle. }
        unfold at_index. rewrite Ha. cbn [rbind].
        assert (Hva : is_Some (h !! a)) by (by eapply valid_ptrs_lookup).
        destruct (load_valid h a Hva) as (ma & _ & -> & Hma). cbn [rbind].
        destruct (load_valid h m Hvm) as (mm & _ & -> & Hmm). cbn [rbind].
        destruct (store_Next_spec h a (Version mm) Hva) as (h1 & -> & Hs & Hp & Hnx).
        cbn [rbind]. exists h1. unfold prev. rewrite last_snoc, Hma.
        split; [done|]. split; [done|]. split; [done|].
        intros p. rewrite Hnx, Hmm.
        destruct (decide (p = a)) as [->|Hne].
        + by rewrite decide_True.
        + rewrite decide_False; [done|]. by intros [= ->]. }
    cbn [rbind]. unfold at_index. rewrite Hm. cbn [rbind].
    destruct (store_Previous_spec h1 m prev) as (h2 & -> & Hs2 & Hn2 & Hp2);
      [by eapply same_versions_valid|].
    cbn [rbind].
    pose proof (same_versions_trans _ _ _ Hs1 Hs2) as Hs12.
    assert (Hms : ms = (pre ++ [m]) ++ ranged) by (unfold ms; by rewrite <- app_assoc).
    assert (Hlen : S (length pre) = length (pre ++ [m]))
      by (rewrite length_app; simpl; lia).
    rewrite Hlen. fold ms. rewrite Hms.
    assert (Hnotlast : ∀ p, p ∈ ranged → last pre ≠ Some p).
    { intros p Hp Hl. apply list_elem_of_lookup in Hp as [k Hk].
      destruct pre as [|a pre'] using rev_ind; [done|]. clear IHpre'.
      rewrite last_snoc in Hl. injection Hl as ->.
      assert (ms !! length pre' = Some p).
      { unfold ms. rewrite <- app_assoc. by apply list_lookup_middle. }
      assert (ms !! (length (pre' ++ [p]) + S k)%nat = Some p).
      { unfold ms. rewrite lookup_app_r by lia.
        replace (length (pre' ++ [p]) + S k - length (pre' ++ [p]))%nat with (S k) by lia.
        done. }
      assert (length pre' = (length (pre' ++ [p]) + S k)%nat)
        by (by eapply (NoDup_lookup ms)).
      rewrite length_app in *. simpl in *. lia. }
    destruct (IH h2 (pre ++ [m])) as (h' & -> & Hs' & Hchain & Hpre & Hlast).
    { rewrite <- Hms. by eapply same_versions_valid_ptrs. }
    { by rewrite <- Hms. }
    { rewrite Forall_forall in Hn. apply Forall_forall. intros p Hp.
      rewrite Hn2, Hn1. rewrite decide_False by (by apply Hnotlast). by apply Hn. }
    exists h'. split; [done|].
    pose proof (same_versions_trans _ _ _ Hs12 Hs') as Hs.
    split; [done|].
    assert (Hvk2 : ∀ p, vkey h2 p = vkey h p) by apply Hs12.
    assert (Hmne : last pre ≠ Some m).
    { intros Hl. destruct pre as [|a pre'] using rev_ind; [done|]. clear IHpre'.
      rewrite last_snoc in Hl. injection Hl as ->.
      assert (ms !! length pre' = Some m).
      { unfold ms. rewrite <- app_assoc. by apply list_lookup_middle. }
      assert (length pre' = length (pre' ++ [m])) by (by eapply (NoDup_lookup ms)).
      rewrite length_app in *. simpl in *. lia. }
    split; [|split].
    + cbn [omap list_omap]. fold (omap (links_of h') ranged).
      rewrite links_of_valid by (by eapply same_versions_valid).
      cbn [versions_of fmap list_fmap chain_from]. fold (versions_of h ranged).
      rewrite Hchain, last_snoc.
      replace (versions_of h2 ranged) with (versions_of h ranged)
        by (unfold versions_of; apply list_fmap_ext; intros; by rewrite Hvk2).
      rewrite Hvk2. f_equal. f_equal; [f_equal|].
      * apply Hs.
      * destruct (Hpre (length pre) m) as [-> _].
        { by apply list_lookup_middle. }
        rewrite Hp2. by rewrite decide_True.
      * rewrite (Hlast m) by apply last_snoc.
        destruct ranged as [|m' ranged']; [|by rewrite Hvk2].
        rewrite Hn2, Hn1. by rewrite decide_False.
    + intros k p Hk.
      assert (Hk' : (pre ++ [m]) !! k = Some p) by (by apply lookup_app_l_Some).
      destruct (Hpre k p Hk') as [Hpp Hnn].
      assert (Hpm : p ≠ m).
      { eapply (NoDup_lookup_ne ms k (length pre)); try done.
        - unfold ms. by apply lookup_app_l_Some.
        - apply lookup_lt_Some in Hk. lia. }
      split.
      * rewrite Hpp, Hp2, Hp1. by rewrite decide_False.
      * intros Hlt. rewrite Hnn by (rewrite <- Hlen; lia).
        rewrite Hn2, Hn1. rewrite decide_False; [done|].
        intros Hl. destruct pre as [|a pre'] using rev_ind; [done|]. clear IHpre'.
        rewrite last_snoc in Hl. injection Hl as ->.
        assert (k = length pre'); [|rewrite length_app in Hlt; simpl in Hlt; lia].
        eapply (NoDup_lookup ms); [done| |].
        -- unfold ms. by apply lookup_app_l_Some.
        -- unfold ms. rewrite <- app_assoc. by apply list_lookup_middle.
    + intros q Hq.
      destruct pre as [|a pre'] using rev_ind; [done|]. clear IHpre'.
      rewrite last_snoc in Hq. injection Hq as ->.
      destruct (Hpre (length pre') q) as [_ ->].
      * rewrite <- app_assoc. by apply list_lookup_middle.
      * rewrite Hn2, Hn1. rewrite decide_True by apply last_snoc. done.
      * rewrite !length_app. simpl. lia.
Qed.

End SimpleOrdering.

(** X10: simple ordering.  On valid pointers with pairwise distinct
    versions whose next links are all [-1], as the collectors create
    them, [sortAndConnectMigrations] returns the pointers in ascending
    version order, linked as one simple path: each element's previous is
    the version before it, each element's next the version after it, with
    [-1] at both ends; no version in the store changes. *)
Theorem simple_ordering_chain (h : Heap) (ms : Migrations) :
  valid_ptrs h ms → NoDup (versions_of h ms) →
  Forall (fun p => nkey h p = -1) ms →
  ∃ h' sorted,
    sortAndConnectMigrations h ms = Ok (h', sorted) ∧
    sorted ≡ₚ ms ∧
    StronglySorted Z.lt (versions_of h sorted) ∧
    same_versions h h' ∧
    linked_view (sortAndConnectMigrations h ms) = Some (chain (versions_of h sorted)).
Proof.
  intros Hv Hnd Hn.
  destruct (proj1 (sort_Sort_spec h ms Hv) Hnd) as (sorted & Hsort & Hperm & Hss).
  assert (Hvs : valid_ptrs h sorted) by (unfold valid_ptrs; by rewrite Hperm).
  assert (Hnds : NoDup sorted).
  { apply (NoDup_fmap_1 (vkey h)). apply StronglySorted_lt_NoDup. exact Hss. }
  assert (Hns : Forall (fun p => nkey h p = -1) sorted) by (by rewrite Hperm).
  destruct (connect_loop_chain sorted h [] Hvs Hnds Hns)
    as (h' & Hc & Hs & Hchain & _ & _).
  simpl in Hc, Hchain.
  unfold sortAndConnectMigrations. rewrite Hsort. cbn [rbind]. rewrite Hc. cbn [rbind].
  exists h', sorted. repeat split; try done; try apply Hs.
  simpl. by rewrite Hchain.
Qed.

Lemma simple_ordering_chain_witness :
  ∃ h' sorted,
    sortAndConnectMigrations Sample.heap3 Sample.slice3 = Ok (h', sorted) ∧
    sorted ≡ₚ Sample.slice3 ∧
    StronglySorted Z.lt (versions_of Sample.heap3 sorted) ∧
    same_versions Sample.heap3 h' ∧
    linked_view (sortAndConnectMigrations Sample.heap3 Sample.slice3)
    = Some (chain (versions_of Sample.heap3 sorted)).
Proof.
  apply (simple_ordering_chain Sample.heap3 Sample.slice3).
  - unfold valid_ptrs, Sample.slice3, Sample.heap3.
    repeat constructor; eexists; reflexivity.
  - unfold versions_of, Sample.slice3, Sample.heap3. simpl. unfold vkey. simpl.
    repeat constructor; rewrite ?elem_of_cons, ?elem_of_nil; intros H;
      repeat destruct H as [H|H]; try discriminate H; done.
  - unfold Sample.slice3, Sample.heap3. repeat constructor.
Defined.

(** ** Navigation over a linked slice *)

Section Navigation.

Lemma chain_from_lookup (vs : list Z) : ∀ (prev : Z) (i : nat) (v : Z),
  vs !! i = Some v →
  chain_from prev vs !! i
  = Some (v, match i with O => prev | S j => default 0 (vs !! j) end,
          default (-1) (vs !! S i)).
Proof.
  induction vs as [|x vs IH]; intros prev i v Hi; [done|].
  destruct i as [|i]; simpl in *.
  - simplify_eq. by destruct vs.
  - rewrite (IH x i v Hi). destruct i as [|i]; [done|]. done.
Qed.

Lemma omap_links_valid (h : Heap) (ms : Migrations) :
  valid_ptrs h ms →
  omap (links_of h) ms = (fun p => (vkey h p, pkey h p, nkey h p)) <$> ms.
Proof.
  induction ms as [|p ms IH]; intros Hv; [done|].
  apply Forall_cons in Hv as [Hp Hv]. simpl.
  rewrite links_of_valid by done. simpl. f_equal. by apply IH.
Qed.

(** With distinct versions [Current] finds the element of a version. *)
Lemma Current_found (h : Heap) (ms : Migrations) : ∀ (i : nat) (p : ptr),
  valid_ptrs h ms → NoDup (versions_of h ms) → ms !! i = Some p →
  Current h ms (vkey h p) = Ok (inl p).
Proof.
  induction ms as [|q ms IH]; intros i p Hv Hnd Hi; [done|].
  apply Forall_cons in Hv as [Hq Hv].
  unfold versions_of in Hnd. rewrite fmap_cons in Hnd.
  apply NoDup_cons in Hnd as [Hnin Hnd].
  destruct (load_valid h q Hq) as (mq & _ & Hl & Hmq).
  simpl. rewrite Hl. cbn [rbind]. rewrite Hmq.
  destruct i as [|i]; simpl in Hi.
  - simplify_eq. by rewrite Z.eqb_refl.
  - destruct (Z.eqb_spec (vkey h q) (vkey h p)) as [E|_].
    + exfalso. apply Hnin. rewrite E. apply list_elem_of_fmap_2.
      by eapply list_elem_of_lookup_2.
    + by apply (IH i).
Qed.

End Navigation.

(** [Next] and [Previous] at the element of position [i] of a slice
    linked as one simple path. *)
Lemma walk_on_chain (h : Heap) (ms : Migrations) (i : nat) (p : ptr) :
  valid_ptrs h ms → NoDup (versions_of h ms) →
  Forall (fun v => v ≠ -1) (versions_of h ms) →
  omap (links_of h) ms = chain (versions_of h ms) →
  ms !! i = Some p →
  (vkey h p ≠ 0 →
   MNext h ms (vkey h p)
   = Ok (match ms !! S i with Some q => inl q | None => inr ErrNoNextVersion end)) ∧
  MPrevious h ms (vkey h p)
  = Ok (match i with
        | O => inr ErrNoNextVersion
        | S j => match ms !! j with Some q => inl q | None => inr ErrNoCurrentVersion end
        end).
Proof.
  intros Hv Hnd Hne Hchain Hi.
  assert (Hp : is_Some (h !! p)) by (by eapply valid_ptrs_lookup).
  rewrite omap_links_valid in Hchain by done.
  assert (Hlinks : (vkey h p, pkey h p, nkey h p)
                   = (vkey h p,
                      match i with O => -1 | S j => default 0 (versions_of h ms !! j) end,
                      default (-1) (versions_of h ms !! S i))).
  { assert (Hvi : versions_of h ms !! i = Some (vkey h p)).
    { unfold versions_of. by rewrite list_lookup_fmap, Hi. }
    pose proof (chain_from_lookup _ (-1) i _ Hvi) as Hc.
    unfold chain in Hchain. rewrite <- Hchain, list_lookup_fmap, Hi in Hc.
    simpl in Hc. congruence. }
  injection Hlinks as Hpk Hnk.
  destruct (load_valid h p Hp) as (mp & Hmp & Hl & _).
  assert (Hnext : Next mp = nkey h p) by (unfold nkey; by rewrite Hmp).
  assert (Hprev : Previous mp = pkey h p) by (unfold pkey; by rewrite Hmp).
  rewrite Forall_forall in Hne.
  split.
  - intros Hz. unfold MNext.
    destruct (Z.eqb_spec (vkey h p) 0) as [|_]; [done|].
    rewrite (Current_found h ms i p) by done. cbn [rbind].
    rewrite Hl. cbn [rbind]. rewrite Hnext, Hnk.
    unfold versions_of. rewrite list_lookup_fmap.
    destruct (ms !! S i) as [q|] eqn:Eq; simpl; [|done].
    destruct (Z.eqb_spec (vkey h q) (-1)) as [E|_].
    + exfalso. apply (Hne (vkey h q)); [|done].
      apply list_elem_of_fmap_2. by eapply list_elem_of_lookup_2.
    + by rewrite (Current_found h ms (S i) q).
  - unfold MPrevious.
    rewrite (Current_found h ms i p) by done. cbn [rbind].
    rewrite Hl. cbn [rbind]. rewrite Hprev, Hpk.
    destruct i as [|j]; [done|].
    unfold versions_of. rewrite list_lookup_fmap.
    destruct (ms !! j) as [q|] eqn:Eq; simpl.
    + destruct (Z.eqb_spec (vkey h q) (-1)) as [E|_].
      * exfalso. apply (Hne (vkey h q)); [|done].
        apply list_elem_of_fmap_2. by eapply list_elem_of_lookup_2.
      * by rewrite (Current_found h ms j q).
    + exfalso. apply lookup_lt_Some in Hi. apply lookup_ge_None in Eq. lia.
Qed.

(** X11: walking a linked slice.  Let the slice hold valid pointers to
    pairwise distinct versions, none of them [-1], linked as one simple
    path.  For the element at position [i], [Next] at its version (when
    that is not 0) returns the element at position [i+1], and
    [ErrNoNextVersion] at the last position; [Previous] at its version
    returns the element at position [i-1], and [ErrNoNextVersion] at the
    first position. *)
Theorem chain_navigation (h : Heap) (ms : Migrations) (i : nat) (p : ptr) :
  valid_ptrs h ms → NoDup (versions_of h ms) →
  Forall (fun v => v ≠ -1) (versions_of h ms) →
  omap (links_of h) ms = chain (versions_of h ms) →
  ms !! i = Some p →
  (vkey h p ≠ 0 →
   MNext h ms (vkey h p)
   = Ok (match ms !! S i with Some q => inl q | None => inr ErrNoNextVersion end)) ∧
  MPrevious h ms (vkey h p)
  = Ok (match i with
        | O => inr ErrNoNextVersion
        | S j => match ms !! j with Some q => inl q | None => inr ErrNoCurrentVersion end
        end).
Proof.
  intros Hv Hnd Hne Hchain Hi.
  destruct (walk_on_chain h ms i p Hv Hnd Hne Hchain Hi) as [HN HP].
  split; [exact HN | exact HP].
Qed.

Lemma chain_navigation_witness :
  MNext Sample.linked3 Sample.sorted3 2 = Ok (inl 1%nat) ∧
  MPrevious Sample.linked3 Sample.sorted3 2 = Ok (inl 2%nat).
Proof.
  destruct (chain_navigation Sample.linked3 Sample.sorted3 1%nat 0%nat) as [HN HP].
  - unfold valid_ptrs, Sample.sorted3, Sample.linked3.
    repeat constructor; eexists; reflexivity.
  - unfold versions_of, Sample.sorted3, Sample.linked3. simpl. unfold vkey. simpl.
    repeat constructor; rewrite ?elem_of_cons, ?elem_of_nil; intros H;
      repeat destruct H as [H|H]; try discriminate H; done.
  - unfold versions_of, Sample.sorted3, Sample.linked3. simpl. unfold vkey. simpl.
    repeat constructor; discriminate.
  - reflexivity.
  - reflexivity.
  - split; [apply HN; discriminate | exact HP].
Defined.

(** X12: [Current] is the lookup by version.  On valid pointers with
    pairwise distinct versions it returns the element that carries the
    version asked for, and [ErrNoCurrentVersion] exactly when no element
    carries it. *)
Theorem Current_lookup (h : Heap) (ms : Migrations) (v : Z) :
  valid_ptrs h ms → NoDup (versions_of h ms) →
  (∀ i p, ms !! i = Some p → Current h ms (vkey h p) = Ok (inl p)) ∧
  (Current h ms v = Ok (inr ErrNoCurrentVersion) ↔ v ∉ versions_of h ms).
Proof.
  intros Hv Hnd. split; [intros i p; by apply Current_found|].
  split.
  - intros Hc Hin. apply list_elem_of_fmap in Hin as (p & -> & Hp).
    apply list_elem_of_lookup in Hp as [i Hi].
    rewrite (Current_found h ms i p) in Hc by done. discriminate Hc.
  - by apply Current_absent.
Qed.

Lemma Current_lookup_witness :
  Current Sample.heap3 Sample.slice3 9 = Ok (inr ErrNoCurrentVersion) ↔
  9 ∉ versions_of Sample.heap3 Sample.slice3.
Proof.
  apply (Current_lookup Sample.heap3 Sample.slice3 9).
  - unfold valid_ptrs, Sample.slice3, Sample.heap3.
    repeat constructor; eexists; reflexivity.
  - unfold versions_of, Sample.slice3, Sample.heap3. simpl. unfold vkey. simpl.
    repeat constructor; rewrite ?elem_of_cons, ?elem_of_nil; intros H;
      repeat destruct H as [H|H]; try discriminate H; done.
Defined.

(** ** The history repairer *)

Section Repair.

Variable rd : RepairDriver.

Lemma fixUp_loop_consistent (rows : list MigrationRecord) :
  ∀ (st : RepairState) (prev : option MigrationRecord),
  adjacent_consistent (match prev with Some p => p :: rows | None => rows end) →
  fixUp_loop rd (ScanOk <$> rows) st prev = Returned (st, None).
Proof.
  induction rows as [|row rows IH]; intros st prev Hc; [done|].
  rewrite fmap_cons. cbn [fixUp_loop]. destruct prev as [prev|].
  - destruct (Hc 0%nat prev row eq_refl eq_refl) as [H1 H2].
    replace ((ID row <? ID prev) && (VersionID prev <? VersionID row)) with false.
    2:{ symmetry. apply andb_false_iff.
        destruct (Z.ltb_spec (ID row) (ID prev)); [|by left].
        destruct (Z.ltb_spec (VersionID prev) (VersionID row)); [|by right].
        destruct H1. done. }
    replace ((ID prev <? ID row) && (VersionID row <? VersionID prev)) with false.
    2:{ symmetry. apply andb_false_iff.
        destruct (Z.ltb_spec (ID prev) (ID row)); [|by left].
        destruct (Z.ltb_spec (VersionID row) (VersionID prev)); [|by right].
        destruct H2. done. }
    apply IH. intros i a b Ha Hb. by apply (Hc (S i)).
  - apply IH. exact Hc.
Qed.

End Repair.

(** X13: a history whose rows, in query order, never have row
    identifiers and versions ordered against each other from one row to
    the next is left alone by [fixUp]: with the transaction open it
    issues no update, commits, leaves the table as it was and returns
    what the commit returns. *)
Theorem fixUp_consistent_history (rd : RepairDriver) (rows : list MigrationRecord)
    (rows_err : option error) (t : Table) :
  rd_begin rd = None →
  adjacent_consistent rows →
  fixUp rd (QueryRows (ScanOk <$> rows) rows_err) t
  = Returned (t, [RBegin; RCommit], rd_commit rd).
Proof.
  intros Hb Hc. unfold fixUp.
  rewrite (fixUp_loop_consistent rd rows _ None Hc). rewrite Hb.
  by destruct (rd_commit rd).
Qed.

Lemma fixUp_consistent_history_witness :
  fixUp Sample.repair_ok
        (QueryRows (ScanOk <$> [mkRecord 2 3 20 true; mkRecord 1 1 10 true]) None)
        Sample.table_in_order
  = Returned (Sample.table_in_order, [RBegin; RCommit], None).
Proof.
  apply (fixUp_consistent_history Sample.repair_ok
           [mkRecord 2 3 20 true; mkRecord 1 1 10 true] None Sample.table_in_order).
  - reflexivity.
  - intros [|[|i]] a b Ha Hb; simpl in *; simplify_eq.
    split; simpl; lia.
Defined.

(** The example of two rows inserted out of version order: the payloads
    are exchanged between the two identifiers. *)
Example fixUp_two_rows :
  fixUp Sample.repair_ok
        (QueryRows (ScanOk <$> [mkRecord 2 1 20 true; mkRecord 1 3 10 true]) None)
        Sample.table_out_of_order
  = Returned ([mkRecord 1 1 20 true; mkRecord 2 3 10 true],
              [RBegin; RUpdate 1 1 true 20; RUpdate 2 3 true 10; RCommit], None).
Proof. vm_compute. reflexivity. Qed.

(** One pass does not order every history: three rows in fully reversed
    order end with identifier 2 on version 3 and identifier 3 on
    version 2. *)
Example fixUp_three_rows :
  fixUp Sample.repair_ok
        (QueryRows (ScanOk <$> [mkRecord 3 1 0 true; mkRecord 2 2 0 true;
                                mkRecord 1 3 0 true]) None)
        [mkRecord 1 3 0 true; mkRecord 2 2 0 true; mkRecord 3 1 0 true]
  = Returned ([mkRecord 1 1 0 true; mkRecord 2 3 0 true; mkRecord 3 2 0 true],
              [RBegin; RUpdate 2 1 true 0; RUpdate 3 2 true 0;
               RUpdate 1 1 true 0; RUpdate 2 3 true 0; RCommit], None).
Proof. vm_compute. reflexivity. Qed.

Section RepairPayloads.

Variable rd : RepairDriver.
Hypothesis Hbegin : rd_begin rd = None.
Hypothesis Hexec : ∀ n, rd_exec rd n = None.

Lemma update_row_ids (t : Table) (id v : Z) (a : bool) (ts : Z) :
  ID <$> update_row rd t id v a ts = ID <$> t.
Proof.
  unfold update_row. rewrite <- list_fmap_compose. apply list_fmap_ext.
  intros i r _. simpl. by destruct (decide (ID r = id)).
Qed.

Lemma update_row_unchanged (l : Table) (id v : Z) (a : bool) (ts : Z) :
  (∀ r, r ∈ l → ID r ≠ id) → update_row rd l id v a ts = l.
Proof.
  intros H. unfold update_row. rewrite <- (list_fmap_id l) at 2.
  apply list_fmap_ext. intros i r Hi. simpl.
  rewrite decide_False; [done|]. apply H. by eapply list_elem_of_lookup_2.
Qed.

Lemma update_row_app (l1 l2 : Table) (id v : Z) (a : bool) (ts : Z) :
  update_row rd (l1 ++ l2) id v a ts
  = update_row rd l1 id v a ts ++ update_row rd l2 id v a ts.
Proof. unfold update_row. by rewrite fmap_app. Qed.

Lemma update_row_cons_hit (r : MigrationRecord) (l : Table) (v : Z) (a : bool) (ts : Z) :
  update_row rd (r :: l) (ID r) v a ts
  = mkRecord (ID r) v (rd_tstamp rd ts) a :: update_row rd l (ID r) v a ts.
Proof. unfold update_row. rewrite fmap_cons. by rewrite decide_True. Qed.

Lemma update_row_cons_miss (r : MigrationRecord) (l : Table) (id v : Z) (a : bool) (ts : Z) :
  ID r ≠ id →
  update_row rd (r :: l) id v a ts = r :: update_row rd l id v a ts.
Proof. intros H. unfold update_row. rewrite fmap_cons. by rewrite decide_False. Qed.

Lemma exec_update_ok (st : RepairState) (row : MigrationRecord) :
  exec_update rd st row
  = Ok (mkRepairState
          (update_row rd (rs_table st) (ID row) (VersionID row) (IsApplied row) (TStamp row))
          (rs_log st ++ [RUpdate (ID row) (VersionID row) (IsApplied row) (TStamp row)])
          (S (rs_execs st)),
        None).
Proof. unfold exec_update. by rewrite Hbegin, Hexec. Qed.

Lemma swapRows_ok (st : RepairState) (a b : MigrationRecord) :
  ∃ st', swapRows rd st a b = Ok (st', set_ID a (ID b), set_ID b (ID a), None) ∧
         rs_table st' = swapped rd (rs_table st) a b.
Proof.
  unfold swapRows. rewrite exec_update_ok. cbn [rbind].
  rewrite exec_update_ok. cbn [rbind]. eexists. split; [done|]. done.
Qed.

Lemma swapped_ids (t : Table) (a b : MigrationRecord) :
  ID <$> swapped rd t a b = ID <$> t.
Proof. unfold swapped. by rewrite !update_row_ids. Qed.

(** With distinct identifiers, a table that holds [x] before [y]. *)
Lemma swapped_split (l1 l2 l3 : Table) (x y a b : MigrationRecord) :
  NoDup (ID <$> (l1 ++ x :: l2 ++ y :: l3)) →
  (ID x = ID a ∧ ID y = ID b) ∨ (ID x = ID b ∧ ID y = ID a) →
  ∃ x' y', swapped rd (l1 ++ x :: l2 ++ y :: l3) a b = l1 ++ x' :: l2 ++ y' :: l3 ∧
    ID x' = ID x ∧ ID y' = ID y ∧
    ((ID x = ID a ∧ payload x' = payload b ∧ payload y' = payload a) ∨
     (ID x = ID b ∧ payload x' = payload a ∧ payload y' = payload b)).
Proof.
  intros Hnd Hxy.
  rewrite fmap_app, fmap_cons, fmap_app, fmap_cons in Hnd.
  apply NoDup_app in Hnd as (_ & H1 & Hnd).
  apply NoDup_cons in Hnd as (Hx & Hnd).
  apply NoDup_app in Hnd as (_ & H2 & Hnd).
  apply NoDup_cons in Hnd as (Hy & _).
  assert (Hxy' : ID x ≠ ID y).
  { intros E. apply Hx. rewrite E. apply elem_of_app. right. by left. }
  assert (Hl1 : ∀ r, r ∈ l1 → ID r ≠ ID x ∧ ID r ≠ ID y).
  { intros r Hr. pose proof (list_elem_of_fmap_2 ID _ _ Hr) as Hi.
    split; intros E; apply (H1 _ Hi); rewrite E.
    - by left.
    - right. apply elem_of_app. right. by left. }
  assert (Hl2 : ∀ r, r ∈ l2 → ID r ≠ ID x ∧ ID r ≠ ID y).
  { intros r Hr. pose proof (list_elem_of_fmap_2 ID _ _ Hr) as Hi. split; intros E.
    - apply Hx. rewrite <- E. apply elem_of_app. by left.
    - apply (H2 _ Hi). rewrite E. by left. }
  assert (Hl3 : ∀ r, r ∈ l3 → ID r ≠ ID x ∧ ID r ≠ ID y).
  { intros r Hr. pose proof (list_elem_of_fmap_2 ID _ _ Hr) as Hi. split; intros E.
    - apply Hx. rewrite <- E. apply elem_of_app. right. by right.
    - apply Hy. by rewrite <- E. }
  unfold swapped.
  destruct Hxy as [[Ex Ey]|[Ex Ey]]; rewrite <- Ex, <- Ey.
  - rewrite (update_row_app l1), (update_row_cons_miss x) by done.
    rewrite (update_row_app l2), update_row_cons_hit.
    rewrite (update_row_unchanged l1), (update_row_unchanged l2), (update_row_unchanged l3)
      by (intros r Hr; first [by destruct (Hl1 r Hr)|by destruct (Hl2 r Hr)|by destruct (Hl3 r Hr)]).
    rewrite (update_row_app l1), update_row_cons_hit.
    rewrite (update_row_app l2), update_row_cons_miss by (simpl; congruence).
    rewrite (update_row_unchanged l1), (update_row_unchanged l2), (update_row_unchanged l3)
      by (intros r Hr; first [by destruct (Hl1 r Hr)|by destruct (Hl2 r Hr)|by destruct (Hl3 r Hr)]).
    eexists _, _. split; [done|]. split; [done|]. split; [done|]. left. done.
  - rewrite (update_row_app l1), update_row_cons_hit.
    rewrite (update_row_app l2), (update_row_cons_miss y) by congruence.
    rewrite (update_row_unchanged l1), (update_row_unchanged l2), (update_row_unchanged l3)
      by (intros r Hr; first [by destruct (Hl1 r Hr)|by destruct (Hl2 r Hr)|by destruct (Hl3 r Hr)]).
    rewrite (update_row_app l1), update_row_cons_miss by (simpl; congruence).
    rewrite (update_row_app l2), update_row_cons_hit.
    rewrite (update_row_unchanged l1), (update_row_unchanged l2), (update_row_unchanged l3)
      by (intros r Hr; first [by destruct (Hl1 r Hr)|by destruct (Hl2 r Hr)|by destruct (Hl3 r Hr)]).
    eexists _, _. split; [done|]. split; [done|]. split; [done|]. right. done.
Qed.

Lemma payload_exchange (l1 l2 l3 : Table) (x y x' y' : MigrationRecord) :
  payload x' = payload y → payload y' = payload x →
  payload <$> (l1 ++ x' :: l2 ++ y' :: l3) ≡ₚ payload <$> (l1 ++ x :: l2 ++ y :: l3).
Proof.
  intros Hx Hy. rewrite !fmap_app, !fmap_cons, !fmap_app, !fmap_cons, Hx, Hy.
  apply Permutation_app_head.
  rewrite <- !Permutation_middle. apply perm_swap.
Qed.

(** What one exchange does to a table with distinct identifiers. *)
Lemma swapped_facts (t : Table) (a b : MigrationRecord) :
  NoDup (ID <$> t) → mirrors t a → mirrors t b → ID a ≠ ID b →
  payload <$> swapped rd t a b ≡ₚ payload <$> t ∧
  mirrors (swapped rd t a b) (set_ID a (ID b)) ∧
  mirrors (swapped rd t a b) (set_ID b (ID a)) ∧
  (∀ r, mirrors t r → ID r ≠ ID a → ID r ≠ ID b → mirrors (swapped rd t a b) r).
Proof.
  intros Hnd (ra & Hra & Hia & Hpa) (rb & Hrb & Hib & Hpb) Hab.
  assert (Hne : ra ≠ rb) by (intros ->; congruence).
  apply list_elem_of_split in Hra as (l1 & l2' & ->).
  apply elem_of_app in Hrb as [Hrb|Hrb].
  - apply list_elem_of_split in Hrb as (l1a & l1b & ->).
    rewrite <- app_assoc in *. simpl in *.
    destruct (swapped_split l1a l1b l2' rb ra a b Hnd) as (x' & y' & -> & Hix & Hiy & Hp);
      [right; by split|].
    destruct Hp as [[E _]|(_ & Hpx & Hpy)]; [congruence|].
    split; [|split; [|split]].
    + apply payload_exchange; congruence.
    + exists x'. split; [|split; [simpl; congruence|by rewrite Hpx]].
      apply elem_of_app. right. by left.
    + exists y'. split; [|split; [simpl; congruence|by rewrite Hpy]].
      apply elem_of_app. right. right. apply elem_of_app. right. by left.
    + intros r (r' & Hr' & Hi & Hp) Hna Hnb. exists r'. split; [|done].
      rewrite !elem_of_app, !elem_of_cons, !elem_of_app, !elem_of_cons in *.
      destruct Hr' as [?|[->|[?|[->|?]]]]; try tauto; congruence.
  - apply elem_of_cons in Hrb as [->|Hrb]; [done|].
    apply list_elem_of_split in Hrb as (l2 & l3 & ->).
    destruct (swapped_split l1 l2 l3 ra rb a b Hnd) as (x' & y' & -> & Hix & Hiy & Hp);
      [left; by split|].
    destruct Hp as [(_ & Hpx & Hpy)|[E _]]; [|congruence].
    split; [|split; [|split]].
    + apply payload_exchange; congruence.
    + exists y'. split; [|split; [simpl; congruence|by rewrite Hpy]].
      apply elem_of_app. right. right. apply elem_of_app. right. by left.
    + exists x'. split; [|split; [simpl; congruence|by rewrite Hpx]].
      apply elem_of_app. right. by left.
    + intros r (r' & Hr' & Hi & Hp) Hna Hnb. exists r'. split; [|done].
      rewrite !elem_of_app, !elem_of_cons, !elem_of_app, !elem_of_cons in *.
      destruct Hr' as [?|[->|[?|[->|?]]]]; try tauto; congruence.
Qed.

(** The loop keeps the identifiers of the table and permutes its
    payloads, as long as the records in memory show what the table
    holds under their identifiers. *)
Lemma fixUp_loop_payloads (rows : list MigrationRecord) :
  ∀ (st : RepairState) (prev : option MigrationRecord),
  NoDup (ID <$> rs_table st) →
  NoDup (ID <$> (match prev with Some p => p :: rows | None => rows end)) →
  Forall (mirrors (rs_table st)) (match prev with Some p => p :: rows | None => rows end) →
  ∃ st', fixUp_loop rd (ScanOk <$> rows) st prev = Returned (st', None) ∧
         ID <$> rs_table st' = ID <$> rs_table st ∧
         payload <$> rs_table st' ≡ₚ payload <$> rs_table st.
Proof.
  induction rows as [|row rows IH]; intros st prev Hnd Hmem Hmir.
  - exists st. by repeat split.
  - rewrite fmap_cons. cbn [fixUp_loop]. destruct prev as [p|]; [|by apply IH].
    rewrite !fmap_cons in Hmem.
    apply NoDup_cons in Hmem as [Hp Hmem].
    apply NoDup_cons in Hmem as [Hrow Hrows].
    apply Forall_cons in Hmir as [Hmp Hmir].
    apply Forall_cons in Hmir as [Hmrow Hmrows].
    assert (Hpr : ID p ≠ ID row).
    { intros E. apply Hp. rewrite E. by left. }
    destruct (swapRows_ok st p row) as (st1 & Hsw & Ht1).
    destruct (swapped_facts (rs_table st) p row Hnd Hmp Hmrow Hpr)
      as (Hperm & Hm1 & Hm2 & Hother).
    assert (Hids1 : ID <$> rs_table st1 = ID <$> rs_table st)
      by (rewrite Ht1; apply swapped_ids).
    assert (Hrest : Forall (mirrors (rs_table st1)) rows).
    { rewrite Forall_forall in Hmrows. apply Forall_forall. intros r Hr.
      rewrite Ht1. apply Hother; [by apply Hmrows| |].
      - intros E. apply Hp. rewrite <- E. right. by apply list_elem_of_fmap_2.
      - intros E. apply Hrow. rewrite <- E. by apply list_elem_of_fmap_2. }
    destruct ((ID row <? ID p) && (VersionID p <? VersionID row)).
    { rewrite Hsw.
      destruct (IH st1 (Some (set_ID p (ID row)))) as (st' & -> & Hi & Hpl).
      - by rewrite Hids1.
      - rewrite fmap_cons. simpl. by apply NoDup_cons.
      - apply Forall_cons. split; [by rewrite Ht1|done].
      - exists st'. split; [done|]. split; [congruence|].
        by rewrite Hpl, Ht1. }
    destruct ((ID p <? ID row) && (VersionID row <? VersionID p)).
    { rewrite Hsw.
      destruct (IH st1 (Some (set_ID row (ID p)))) as (st' & -> & Hi & Hpl).
      - by rewrite Hids1.
      - rewrite fmap_cons. simpl. apply NoDup_cons. split; [|done].
        intros Hin. apply Hp. by right.
      - apply Forall_cons. split; [by rewrite Ht1|done].
      - exists st'. split; [done|]. split; [congruence|].
        by rewrite Hpl, Ht1. }
    apply IH; [done| |].
    + rewrite fmap_cons. by apply NoDup_cons.
    + by apply Forall_cons.
Qed.

End RepairPayloads.

(** X14: the repair only moves payloads.  When the query returns the
    rows of the table (in any order), row identifiers are distinct and
    every call succeeds, [fixUp] returns without error a table with the
    same row identifiers in the same places whose (version, applied)
    payloads are a rearrangement of the old ones: no such pair is added
    or dropped, pairs only move to other row identifiers. *)
Theorem fixUp_permutes_payloads (rd : RepairDriver) (rows : list MigrationRecord)
    (rows_err : option error) (t : Table) :
  rd_begin rd = None → (∀ n, rd_exec rd n = None) → rd_commit rd = None →
  NoDup (ID <$> t) → rows ≡ₚ t →
  ∃ t' log, fixUp rd (QueryRows (ScanOk <$> rows) rows_err) t = Returned (t', log, None) ∧
            ID <$> t' = ID <$> t ∧
            payload <$> t' ≡ₚ payload <$> t.
Proof.
  intros Hb He Hc Hnd Hperm. unfold fixUp.
  destruct (fixUp_loop_payloads rd Hb He rows (mkRepairState t [RBegin] 0) None)
    as (st' & -> & Hi & Hp); simpl.
  - done.
  - by rewrite Hperm.
  - apply Forall_forall. intros r Hr. exists r. split; [by rewrite <- Hperm|done].
  - rewrite Hb, Hc. by eexists _, _.
Qed.

Lemma fixUp_permutes_payloads_witness :
  ∃ t' log,
    fixUp Sample.repair_ok
          (QueryRows (ScanOk <$> [mkRecord 2 1 20 true; mkRecord 1 3 10 true]) None)
          Sample.table_out_of_order
    = Returned (t', log, None) ∧
    ID <$> t' = ID <$> Sample.table_out_of_order ∧
    payload <$> t' ≡ₚ payload <$> Sample.table_out_of_order.
Proof.
  apply (fixUp_permutes_payloads Sample.repair_ok
           [mkRecord 2 1 20 true; mkRecord 1 3 10 true] None Sample.table_out_of_order).
  - reflexivity.
  - reflexivity.
  - reflexivity.
  - unfold Sample.table_out_of_order. simpl.
    repeat constructor; rewrite ?elem_of_cons, ?elem_of_nil; intros H;
      repeat destruct H as [H|H]; try discriminate H; done.
  - unfold Sample.table_out_of_order. apply perm_swap.
Defined.

(** The rearrangement can change which record of a version carries the
    highest row identifier: with the rows returned in the order 3, 1, 2,
    the rollback of version 1 moves from identifier 3 to identifier 1,
    below the applied record of that version. *)
Example fixUp_moves_rollback_down :
  ∃ log,
    fixUp Sample.repair_ok
          (QueryRows (ScanOk <$> [mkRecord 3 1 0 false; mkRecord 1 2 0 true;
                                  mkRecord 2 1 0 true]) None)
          [mkRecord 1 2 0 true; mkRecord 2 1 0 true; mkRecord 3 1 0 false]
    = Returned ([mkRecord 1 1 0 false; mkRecord 2 1 0 true; mkRecord 3 2 0 true],
                log, None).
Proof. eexists. vm_compute. reflexivity. Qed.

(** ** Collecting migrations *)

Section Collect.

Variable keep : Z → bool.

Lemma collect_sql_app (l1 l2 : list string) : ∀ (h : Heap) (ms : Migrations),
  collect_sql keep (l1 ++ l2) h ms
  = match collect_sql keep l1 h ms with
    | inr e => inr e
    | inl (h', ms') => collect_sql keep l2 h' ms'
    end.
Proof.
  induction l1 as [|f l1 IH]; intros h ms; [done|].
  simpl. destruct (NumericComponent f) as [v [e|]]; [done|].
  destruct (keep v); apply IH.
Qed.

(** The script loop on names that all parse: it extends the store and
    the slice, and what was in the store stays. *)
Lemma collect_sql_parses (files : list string) : ∀ (h : Heap) (ms : Migrations),
  Forall parses files →
  ∃ ext new, collect_sql keep files h ms = inl (h ++ ext, ms ++ new) ∧
    Forall (fun p => ∃ m, (h ++ ext) !! p = Some m ∧ (length h ≤ p)%nat ∧
                          keep (Version m) = true ∧ Registered m = false) new.
Proof.
  induction files as [|f files IH]; intros h ms Hp.
  - exists [], []. by rewrite !app_nil_r.
  - apply Forall_cons in Hp as [Hf Hp]. unfold parses in Hf. simpl.
    destruct (NumericComponent f) as [v [e|]]; [done|].
    destruct (keep v) eqn:Ek.
    + destruct (IH (h ++ [file_migration v f]) (ms ++ [length h]) Hp)
        as (ext & new & -> & Hnew).
      exists (file_migration v f :: ext), (length h :: new).
      rewrite <- !app_assoc. split; [done|].
      apply Forall_cons. split.
      * exists (file_migration v f). split; [by apply list_lookup_middle|].
        by repeat split.
      * eapply Forall_impl; [exact Hnew|]. simpl.
        intros p (m & Hm & Hl & Hk & Hr). exists m. rewrite length_app in Hl. simpl in Hl.
        rewrite <- app_assoc in Hm. repeat split; try done. lia.
    + by apply IH.
Qed.

Lemma collect_go_app (reg : gmap Z ptr) (l1 l2 : list string) :
  ∀ (h : Heap) (ms : Migrations),
  collect_go keep reg (l1 ++ l2) h ms
  = let '(h', ms') := collect_go keep reg l1 h ms in collect_go keep reg l2 h' ms'.
Proof.
  induction l1 as [|f l1 IH]; intros h ms; [done|].
  simpl. destruct (NumericComponent f) as [v [e|]]; [apply IH|].
  destruct (reg !! v); [apply IH|]. destruct (keep v); apply IH.
Qed.

Lemma collect_go_ext (reg : gmap Z ptr) (files : list string) :
  ∀ (h : Heap) (ms : Migrations),
  ∃ ext new, collect_go keep reg files h ms = (h ++ ext, ms ++ new) ∧
    Forall (fun p => ∃ m, (h ++ ext) !! p = Some m ∧ (length h ≤ p)%nat ∧
                          keep (Version m) = true ∧ Registered m = false) new.
Proof.
  induction files as [|f files IH]; intros h ms.
  - exists [], []. by rewrite !app_nil_r.
  - simpl. destruct (NumericComponent f) as [v [e|]]; [apply IH|].
    destruct (reg !! v); [apply IH|].
    destruct (keep v) eqn:Ek; [|apply IH].
    destruct (IH (h ++ [file_migration v f]) (ms ++ [length h]))
      as (ext & new & -> & Hnew).
    exists (file_migration v f :: ext), (length h :: new).
    rewrite <- !app_assoc. split; [done|].
    apply Forall_cons. split.
    + exists (file_migration v f). split; [by apply list_lookup_middle|].
      by repeat split.
    + eapply Forall_impl; [exact Hnew|]. simpl.
      intros p (m & Hm & Hl & Hk & Hr). exists m. rewrite length_app in Hl. simpl in Hl.
      rewrite <- app_assoc in Hm. repeat split; try done. lia.
Qed.

(** The registry loop on valid pointers: it ends with the error of the
    first source without a version, or with the kept pointers added. *)
Lemma collect_registered_spec (order : list ptr) : ∀ (h : Heap) (ms : Migrations),
  Forall (fun p => is_Some (h !! p)) order →
  (∃ e, collect_registered keep order h ms = Ok (inr e) ∧
        ∃ p m, p ∈ order ∧ h !! p = Some m ∧ snd (NumericComponent (Source m)) = Some e) ∨
  (∃ new, collect_registered keep order h ms = Ok (inl (h, ms ++ new)) ∧
          Forall (fun p => ∃ m, h !! p = Some m ∧ parses (Source m)) order ∧
          Forall (fun p => p ∈ order ∧
                  ∃ m, h !! p = Some m ∧ keep (fst (NumericComponent (Source m))) = true) new).
Proof.
  induction order as [|p order IH]; intros h ms Hv.
  - right. exists []. rewrite app_nil_r. by repeat split.
  - apply Forall_cons in Hv as [[m Hm] Hv]. simpl. unfold load. rewrite Hm. cbn [rbind].
    destruct (NumericComponent (Source m)) as [v [e|]] eqn:En.
    + left. exists e. split; [done|]. exists p, m. rewrite En. repeat split; [by left|done].
    + assert (Hparse : ∃ m0, h !! p = Some m0 ∧ parses (Source m0)).
      { exists m. split; [done|]. unfold parses. by rewrite En. }
      destruct (keep v) eqn:Ek.
      * destruct (IH h (ms ++ [p]) Hv) as [(e & -> & q & mq & Hq & Hmq & He)
                                         |(new & -> & Hall & Hnew)].
        -- left. exists e. split; [done|]. exists q, mq. repeat split; [by right|done..].
        -- right. exists (p :: new). rewrite <- app_assoc. split; [done|].
           split; [by apply Forall_cons|]. apply Forall_cons. split.
           ++ split; [by left|]. exists m. rewrite En. by split.
           ++ eapply Forall_impl; [exact Hnew|]. simpl. intros q [Hq ?]. split; [by right|done].
      * destruct (IH h ms Hv) as [(e & -> & q & mq & Hq & Hmq & He)
                                 |(new & -> & Hall & Hnew)].
        -- left. exists e. split; [done|]. exists q, mq. repeat split; [by right|done..].
        -- right. exists new. split; [done|].
           split; [by apply Forall_cons|].
           eapply Forall_impl; [exact Hnew|]. simpl. intros q [Hq ?]. split; [by right|done].
Qed.

End Collect.

(** X15: scripts are held to their names, Go files are not.  With the
    directory present, a script whose name yields no version, behind
    scripts that all parse, ends the collection with the error of
    [NumericComponent] for that name; a Go file whose name yields no
    version is skipped, the collection being the same with and without
    it.  This holds for both collectors. *)
Theorem collect_strictness (keep : Z → bool)
    (sequence : Heap → Migrations → result (Heap * Migrations))
    (dirpath : string) (r : Registry) (order : list ptr)
    (good rest gos1 gos2 : list string) (bad : string) (sqls : list string + error)
    (gos : list string + error) (e : error) :
  Forall parses good →
  snd (NumericComponent bad) = Some e →
  collect keep sequence dirpath (mkDir false (inl (good ++ bad :: rest)) gos) r order
  = Ok (inr e) ∧
  collect keep sequence dirpath (mkDir false sqls (inl (gos1 ++ bad :: gos2))) r order
  = collect keep sequence dirpath (mkDir false sqls (inl (gos1 ++ gos2))) r order.
Proof.
  intros Hgood Hbad. split.
  - unfold collect. simpl. rewrite collect_sql_app.
    destruct (collect_sql_parses keep good (reg_heap r) [] Hgood) as (ext & new & -> & _).
    simpl. destruct (NumericComponent bad) as [v [e'|]]; simpl in Hbad; by simplify_eq.
  - unfold collect. simpl. destruct sqls as [sqlFiles|err]; [|done].
    destruct (collect_sql keep sqlFiles (reg_heap r) []) as [[h ms]|err]; [|done].
    destruct (collect_registered keep order h ms) as [[[h' ms']|err]|p]; try done.
    cbn [rbind]. rewrite !collect_go_app.
    destruct (collect_go keep (reg_map r) gos1 h' ms') as [h1 ms1]. simpl.
    by destruct (NumericComponent bad) as [v [e'|]]; simpl in Hbad; simplify_eq.
Qed.

Lemma collect_strictness_witness :
  CollectMigrations "db" Sample.dir_bad_script Sample.empty_registry [] 0 MaxVersion
  = Ok (inr (ErrNew "no separator found")) ∧
  CollectMigrations "db" (mkDir false (inl ["db/1_a.sql"]) (inl ([] ++ "db/readme.sql" :: [])))
                    Sample.empty_registry [] 0 MaxVersion
  = CollectMigrations "db" (mkDir false (inl ["db/1_a.sql"]) (inl ([] ++ [])))
                      Sample.empty_registry [] 0 MaxVersion.
Proof.
  apply (collect_strictness (fun v => versionFilter v 0 MaxVersion) sortAndConnectMigrations
           "db" Sample.empty_registry [] ["db/1_a.sql"] ["db/2_b.sql"] [] []
           "db/readme.sql" (inl ["db/1_a.sql"]) (inl []) (ErrNew "no separator found")).
  - repeat constructor.
  - vm_compute. reflexivity.
Defined.

(** X16: a function registered from a file whose name yields no version
    blocks every collection.  With the directory present, scripts that
    all parse and an iteration over valid registry pointers that meets a
    record with such a source, both collectors return an error and no
    migrations: the extraction error of some registered source. *)
Theorem registered_unparsable_blocks (keep : Z → bool)
    (sequence : Heap → Migrations → result (Heap * Migrations))
    (dirpath : string) (r : Registry) (order : list ptr)
    (sqlFiles : list string) (gos : list string + error) (p : ptr) (m : Migration)
    (e : error) :
  Forall parses sqlFiles →
  Forall (fun q => is_Some (reg_heap r !! q)) order →
  p ∈ order → reg_heap r !! p = Some m →
  snd (NumericComponent (Source m)) = Some e →
  ∃ e' q mq, collect keep sequence dirpath (mkDir false (inl sqlFiles) gos) r order
             = Ok (inr e') ∧
             q ∈ order ∧ reg_heap r !! q = Some mq ∧
             snd (NumericComponent (Source mq)) = Some e'.
Proof.
  intros Hsql Hv Hp Hm He. unfold collect. simpl.
  destruct (collect_sql_parses keep sqlFiles (reg_heap r) [] Hsql) as (ext & new & -> & _).
  assert (Hv' : Forall (fun q => is_Some ((reg_heap r ++ ext) !! q)) order).
  { eapply Forall_impl; [exact Hv|]. simpl. intros q [mq Hq]. exists mq.
    by apply lookup_app_l_Some. }
  destruct (collect_registered_spec keep order (reg_heap r ++ ext) ([] ++ new) Hv')
    as [(e' & -> & q & mq & Hq & Hmq & He')|(new' & _ & Hall & _)].
  - exists e', q, mq. cbn [rbind]. repeat split; try done.
    rewrite Forall_forall in Hv. destruct (Hv q Hq) as [m0 Hm0].
    rewrite (lookup_app_l_Some _ _ _ _ Hm0) in Hmq. by simplify_eq.
  - exfalso. rewrite Forall_forall in Hall.
    destruct (Hall p Hp) as (m0 & Hm0 & Hparse).
    rewrite (lookup_app_l_Some _ _ _ _ Hm) in Hm0. simplify_eq.
    unfold parses in Hparse. congruence.
Qed.

Lemma registered_unparsable_blocks_witness :
  ∃ e' q mq,
    CollectMigrations "db" Sample.dir2 Sample.registry_unparsable [0%nat] 0 MaxVersion
    = Ok (inr e') ∧
    q ∈ [0%nat] ∧ reg_heap Sample.registry_unparsable !! q = Some mq ∧
    snd (NumericComponent (Source mq)) = Some e'.
Proof.
  apply (registered_unparsable_blocks (fun v => versionFilter v 0 MaxVersion)
           sortAndConnectMigrations "db" Sample.registry_unparsable [0%nat]
           ["db/1_a.sql"; "db/2_b.sql"] (inl ["db/helpers.go"]) 0%nat
           (mkMigration 0 (-1) (-1) "helpers.go" true false None None)
           (ErrNew "no separator found")).
  - repeat constructor.
  - repeat constructor. eexists. reflexivity.
  - by left.
  - reflexivity.
  - vm_compute. reflexivity.
Defined.

Section CollectRange.

Variable keep : Z → bool.

(** Every pointer of the slice refers to a record whose version the
    filter keeps. *)
Lemma collect_sql_inv (files : list string) : ∀ (h h' : Heap) (ms ms' : Migrations),
  collect_sql keep files h ms = inl (h', ms') →
  ∃ ext new, h' = h ++ ext ∧ ms' = ms ++ new ∧
    Forall (fun p => ∃ m, (h ++ ext) !! p = Some m ∧ keep (Version m) = true) new.
Proof.
  induction files as [|f files IH]; intros h h' ms ms' H; simpl in H.
  - simplify_eq. exists [], []. by rewrite !app_nil_r.
  - destruct (NumericComponent f) as [v [e|]]; [done|].
    destruct (keep v) eqn:Ek; [|by apply IH].
    apply IH in H as (ext & new & -> & -> & Hnew).
    exists (file_migration v f :: ext), (length h :: new).
    rewrite <- !app_assoc. split; [done|]. split; [done|].
    apply Forall_cons. split.
    + exists (file_migration v f). split; [by apply list_lookup_middle|done].
    + eapply Forall_impl; [exact Hnew|]. simpl.
      intros p (m & Hm & Hk). exists m. by rewrite <- app_assoc in Hm.
Qed.

Lemma kept_extend (h ext : Heap) (ms : Migrations) :
  Forall (fun p => ∃ m, h !! p = Some m ∧ keep (Version m) = true) ms →
  Forall (fun p => ∃ m, (h ++ ext) !! p = Some m ∧ keep (Version m) = true) ms.
Proof.
  intros H. eapply Forall_impl; [exact H|]. simpl. intros p (m & Hm & Hk). exists m.
  split; [by apply lookup_app_l_Some|done].
Qed.

(** The three loops together. *)
Lemma collect_loops_kept (r : Registry) (order : list ptr) (sqlFiles goFiles : list string)
    (h1 h2 h3 : Heap) (ms1 ms2 ms3 : Migrations) :
  sources_agree (reg_heap r) order →
  collect_sql keep sqlFiles (reg_heap r) [] = inl (h1, ms1) →
  collect_registered keep order h1 ms1 = Ok (inl (h2, ms2)) →
  collect_go keep (reg_map r) goFiles h2 ms2 = (h3, ms3) →
  Forall (fun p => ∃ m, h3 !! p = Some m ∧ keep (Version m) = true) ms3.
Proof.
  intros Hagree H1 H2 H3.
  apply collect_sql_inv in H1 as (ext1 & new1 & -> & -> & Hnew1). simpl in *.
  assert (Hv : Forall (fun p => is_Some ((reg_heap r ++ ext1) !! p)) order).
  { eapply Forall_impl; [exact Hagree|]. simpl. intros p (m & Hm & _).
    exists m. by apply lookup_app_l_Some. }
  destruct (collect_registered_spec keep order (reg_heap r ++ ext1) new1 Hv)
    as [(e & E & _)|(new2 & E & _ & Hnew2)]; rewrite E in H2; [done|].
  simplify_eq.
  destruct (collect_go_ext keep (reg_map r) goFiles (reg_heap r ++ ext1) (new1 ++ new2))
    as (ext3 & new3 & E3 & Hnew3).
  rewrite E3 in H3. simplify_eq.
  apply Forall_app. split; [apply Forall_app; split|].
  - by apply kept_extend.
  - apply kept_extend. unfold sources_agree in Hagree.
    rewrite Forall_forall in Hnew2, Hagree. apply Forall_forall.
    intros p Hp. destruct (Hnew2 p Hp) as (Hin & m & Hm & Hk).
    exists m. split; [done|].
    destruct (Hagree p Hin) as (m0 & Hm0 & Hver).
    rewrite (lookup_app_l_Some _ _ _ _ Hm0) in Hm. simplify_eq. by rewrite Hver.
  - eapply Forall_impl; [exact Hnew3|]. simpl. intros p (m & Hm & _ & Hk & _).
    by exists m.
Qed.

End CollectRange.

(** Collection through the simple sequencer, for any filter. *)
Lemma collected_kept_sorted (keep : Z → bool) (dirpath : string) (dir : Dir)
    (r : Registry) (order : list ptr) (h' : Heap) (ms' : Migrations) :
  sources_agree (reg_heap r) order →
  collect keep sortAndConnectMigrations dirpath dir r order = Ok (inl (h', ms')) →
  valid_ptrs h' ms' ∧
  Forall (fun p => keep (vkey h' p) = true) ms' ∧
  StronglySorted Z.lt (versions_of h' ms').
Proof.
  intros Hagree H. unfold collect in H.
  destruct (dir_missing dir); [done|].
  destruct (sql_glob dir) as [sqlFiles|?]; [|done].
  destruct (collect_sql _ sqlFiles (reg_heap r) []) as [[h1 ms1]|?] eqn:E1; [|done].
  destruct (collect_registered _ order h1 ms1) as [[[h2 ms2]|?]|?] eqn:E2; try done.
  cbn [rbind] in H.
  destruct (go_glob dir) as [goFiles|?]; [|done].
  destruct (collect_go _ (reg_map r) goFiles h2 ms2) as [h3 ms3] eqn:E3.
  pose proof (collect_loops_kept _ r order sqlFiles goFiles _ _ _ _ _ _ Hagree E1 E2 E3)
    as Hkept.
  assert (Hv3 : valid_ptrs h3 ms3).
  { eapply Forall_impl; [exact Hkept|]. simpl. intros p (m & Hm & _). by exists m. }
  unfold sortAndConnectMigrations in H.
  destruct (sort_Sort_spec h3 ms3 Hv3) as [Hok Hdup].
  destruct (decide (NoDup (versions_of h3 ms3))) as [Hnd|Hnd].
  2:{ specialize (Hdup Hnd). destruct (sort_Sort h3 ms3) as [?|[]]; done. }
  destruct (Hok Hnd) as (sorted & Es & Hperm & Hsorted). rewrite Es in H. cbn [rbind] in H.
  assert (Hvs : valid_ptrs h3 sorted) by (unfold valid_ptrs; by rewrite Hperm).
  destruct (connect_loop_ok sorted sorted h3 0 Hvs Hvs) as (h4 & Ec & Hsv); [simpl; lia|].
  rewrite Ec in H. cbn [rbind] in H. simplify_eq.
  split; [by eapply same_versions_valid_ptrs|]. split.
  - rewrite Hperm. eapply Forall_impl; [exact Hkept|]. simpl.
    intros p (m & Hm & Hk). destruct Hsv as [_ Hsv]. rewrite Hsv.
    unfold vkey. by rewrite Hm.
  - replace (versions_of h' ms') with (versions_of h3 ms'); [done|].
    unfold versions_of. apply list_fmap_ext. intros i p _. symmetry. apply Hsv.
Qed.

(** X17: what [CollectMigrations] returns.  When the registry pointers
    visited are valid and each registered record carries the version that
    its source yields, every slice that [CollectMigrations] returns holds
    valid pointers whose versions all pass [versionFilter] for the given
    bounds and stand in strictly ascending order. *)
Theorem CollectMigrations_in_range (dirpath : string) (dir : Dir) (r : Registry)
    (order : list ptr) (current target : Z) (h' : Heap) (ms' : Migrations) :
  sources_agree (reg_heap r) order →
  CollectMigrations dirpath dir r order current target = Ok (inl (h', ms')) →
  valid_ptrs h' ms' ∧
  Forall (fun p => versionFilter (vkey h' p) current target = true) ms' ∧
  StronglySorted Z.lt (versions_of h' ms').
Proof.
  intros Hagree H. unfold CollectMigrations in H.
  exact (collected_kept_sorted (fun v => versionFilter v current target)
           dirpath dir r order h' ms' Hagree H).
Qed.

Lemma CollectMigrations_in_range_witness :
  ∃ h' ms',
    CollectMigrations "db" Sample.dir2 Sample.empty_registry [] 0 1 = Ok (inl (h', ms')) ∧
    valid_ptrs h' ms' ∧
    Forall (fun p => versionFilter (vkey h' p) 0 1 = true) ms' ∧
    StronglySorted Z.lt (versions_of h' ms').
Proof.
  eexists _, _. split; [vm_compute; reflexivity|].
  eapply (CollectMigrations_in_range "db" Sample.dir2 Sample.empty_registry [] 0 1).
  - constructor.
  - vm_compute. reflexivity.
Defined.

(** ** The apply loops *)

(** X18: nothing left to do.  When the database is at a non-zero version
    whose migration has no next, [UpTo] returns nil without executing
    anything, while [UpByOne] returns [ErrNoNextVersion] as its error. *)
Theorem nothing_left_to_do (fuel : nat) (db : Database) (ds : nat → Driver) (d : Driver)
    (h : Heap) (ms : Migrations) (w : World) (c : Z) (i : nat) (p : ptr) :
  GetDBVersion_on db w = (w, (c, None)) →
  valid_ptrs h ms → NoDup (versions_of h ms) →
  ms !! i = Some p → vkey h p = c → c ≠ 0 → nkey h p = -1 →
  UpTo_collected (S fuel) db ds h ms w = Some (Ok (w, None)) ∧
  UpByOne_collected db d h ms w = Ok (w, Some ErrNoNextVersion).
Proof.
  intros Hg Hv Hnd Hi Hc Hz Hn.
  assert (Hnext : MNext h ms c = Ok (inr ErrNoNextVersion)).
  { unfold MNext. destruct (Z.eqb_spec c 0); [done|].
    rewrite <- Hc, (Current_found h ms i p) by done. cbn [rbind].
    destruct (load_valid h p) as (m & Hm & -> & _); [by eapply valid_ptrs_lookup|].
    cbn [rbind]. unfold nkey in Hn. rewrite Hm in Hn. by rewrite Hn. }
  split.
  - unfold UpTo_collected. cbn [apply_loop]. rewrite Hg, Hnext. done.
  - unfold UpByOne_collected. rewrite Hg, Hnext. done.
Qed.

Lemma nothing_left_to_do_witness :
  UpTo_collected 1 (Sample.db_at 3) (fun _ => Sample.driver_ok)
                 Sample.linked3 Sample.sorted3 Sample.world0
  = Some (Ok (Sample.world0, None)) ∧
  UpByOne_collected (Sample.db_at 3) Sample.driver_ok
                    Sample.linked3 Sample.sorted3 Sample.world0
  = Ok (Sample.world0, Some ErrNoNextVersion).
Proof.
  apply (nothing_left_to_do 0 (Sample.db_at 3) (fun _ => Sample.driver_ok) Sample.driver_ok
           Sample.linked3 Sample.sorted3 Sample.world0 3 2%nat 1%nat).
  - reflexivity.
  - unfold valid_ptrs, Sample.sorted3, Sample.linked3.
    repeat constructor; eexists; reflexivity.
  - unfold versions_of, Sample.sorted3, Sample.linked3. simpl. unfold vkey. simpl.
    repeat constructor; rewrite ?elem_of_cons, ?elem_of_nil; intros H;
      repeat destruct H as [H|H]; try discriminate H; done.
  - reflexivity.
  - reflexivity.
  - discriminate.
  - reflexivity.
Defined.

(** X19: nothing collected on a fresh database.  With the database at
    version 0 and an empty collection, [UpTo] and [UpByOne] do not
    return: [Next] takes the first element of the empty slice, and both
    panic with an index out of range, without executing anything. *)
Theorem apply_on_empty_panics (fuel : nat) (db : Database) (ds : nat → Driver) (d : Driver)
    (h : Heap) (w : World) :
  GetDBVersion_on db w = (w, (0, None)) →
  UpTo_collected (S fuel) db ds h [] w = Some (Panic PanicIndex) ∧
  UpByOne_collected db d h [] w = Panic PanicIndex.
Proof.
  intros Hg. unfold UpTo_collected, UpByOne_collected. cbn [apply_loop].
  rewrite Hg. done.
Qed.

Lemma apply_on_empty_panics_witness :
  UpTo_collected 1 (Sample.db_at 0) (fun _ => Sample.driver_ok) [] [] Sample.world0
  = Some (Panic PanicIndex) ∧
  UpByOne_collected (Sample.db_at 0) Sample.driver_ok [] [] Sample.world0
  = Panic PanicIndex.
Proof.
  apply (apply_on_empty_panics 0 (Sample.db_at 0) (fun _ => Sample.driver_ok)
           Sample.driver_ok [] Sample.world0); reflexivity.
Defined.

(** X20: a database ahead of the collection.  With the database at a
    non-zero version that no collected migration carries, [UpTo] and
    [UpByOne] both return [ErrNoCurrentVersion], execute nothing and
    leave the database as it was. *)
Theorem apply_unknown_current (fuel : nat) (db : Database) (ds : nat → Driver) (d : Driver)
    (h : Heap) (ms : Migrations) (w : World) (c : Z) :
  GetDBVersion_on db w = (w, (c, None)) →
  c ≠ 0 → valid_ptrs h ms → c ∉ versions_of h ms →
  UpTo_collected (S fuel) db ds h ms w = Some (Ok (w, Some ErrNoCurrentVersion)) ∧
  UpByOne_collected db d h ms w = Ok (w, Some ErrNoCurrentVersion).
Proof.
  intros Hg Hz Hv Hn.
  assert (Hnext : MNext h ms c = Ok (inr ErrNoCurrentVersion)).
  { unfold MNext. destruct (Z.eqb_spec c 0); [done|]. by rewrite Current_absent. }
  unfold UpTo_collected, UpByOne_collected. cbn [apply_loop].
  rewrite Hg, Hnext. done.
Qed.

Lemma apply_unknown_current_witness :
  UpTo_collected 1 (Sample.db_at 7) (fun _ => Sample.driver_ok)
                 Sample.linked3 Sample.sorted3 Sample.world0
  = Some (Ok (Sample.world0, Some ErrNoCurrentVersion)) ∧
  UpByOne_collected (Sample.db_at 7) Sample.driver_ok
                    Sample.linked3 Sample.sorted3 Sample.world0
  = Ok (Sample.world0, Some ErrNoCurrentVersion).
Proof.
  apply (apply_unknown_current 0 (Sample.db_at 7) (fun _ => Sample.driver_ok)
           Sample.driver_ok Sample.linked3 Sample.sorted3 Sample.world0 7).
  - reflexivity.
  - discriminate.
  - unfold valid_ptrs, Sample.sorted3, Sample.linked3.
    repeat constructor; eexists; reflexivity.
  - unfold versions_of, Sample.sorted3, Sample.linked3. simpl. unfold vkey. simpl.
    rewrite !elem_of_cons, elem_of_nil. intros H.
    repeat destruct H as [H|H]; try discriminate H; done.
Defined.

(** X21: a target below the current version.  When [UpTo] is asked for a
    version above [minVersion] but below the non-zero version the
    database is at, and the collection succeeds, no collected migration
    carries the current version, so [UpTo] executes nothing and returns
    [ErrNoCurrentVersion]. *)
Theorem UpTo_below_current (minVersion : Z) (fuel : nat) (db : Database)
    (ds : nat → Driver) (dirpath : string) (dir : Dir) (r : Registry)
    (order : list ptr) (version c : Z) (w : World) (h : Heap) (ms : Migrations) :
  sources_agree (reg_heap r) order →
  CollectMigrations dirpath dir r order minVersion version = Ok (inl (h, ms)) →
  GetDBVersion_on db w = (w, (c, None)) →
  minVersion < version → version < c → c ≠ 0 →
  UpTo minVersion (S fuel) db ds dirpath dir r order version w
  = Some (Ok (w, Some ErrNoCurrentVersion)).
Proof.
  intros Hagree Hcol Hg Hmin Hlt Hz.
  destruct (collected_kept_sorted (fun v => versionFilter v minVersion version)
              dirpath dir r order h ms Hagree Hcol) as (Hv & Hkeep & _).
  assert (Hn : c ∉ versions_of h ms).
  { intros (p & -> & Hp)%list_elem_of_fmap. rewrite Forall_forall in Hkeep.
    specialize (Hkeep p Hp). unfold versionFilter in Hkeep.
    destruct (Z.ltb_spec minVersion version); [|lia].
    apply andb_true_iff in Hkeep as [_ Hle%Z.leb_le]. lia. }
  unfold UpTo. rewrite Hcol. unfold UpTo_collected. cbn [apply_loop]. rewrite Hg.
  unfold MNext. destruct (Z.eqb_spec c 0); [done|]. by rewrite Current_absent.
Qed.

Lemma UpTo_below_current_witness :
  UpTo 0 1 (Sample.db_at 5) (fun _ => Sample.driver_ok) "db" Sample.dir2
       Sample.empty_registry [] 2 Sample.world0
  = Some (Ok (Sample.world0, Some ErrNoCurrentVersion)).
Proof.
  eapply (UpTo_below_current 0 0 (Sample.db_at 5) (fun _ => Sample.driver_ok) "db"
            Sample.dir2 Sample.empty_registry [] 2 5 Sample.world0).
  - constructor.
  - vm_compute. reflexivity.
  - reflexivity.
  - lia.
  - lia.
  - discriminate.
Defined.

Lemma default_last_cons (a c : Z) (l : list Z) :
  default a (last l) = default c (last (a :: l)).
Proof.
  destruct l as [|x l]; [done|].
  rewrite last_cons_cons.
  destruct (last (x :: l)) eqn:E; [done|].
  by apply last_None in E.
Qed.

Section FullRun.

Variable db : Database.
Variable ds : nat → Driver.
Variable h : Heap.
Variable ms : Migrations.

Hypothesis Hquery : query_newest_first db.
Hypothesis Hdrivers : ∀ n, driver_succeeds (ds n) ∧ fresh_insert (ds n).
Hypothesis Hvalid : valid_ptrs h ms.
Hypothesis Hnodup : NoDup (versions_of h ms).
Hypothesis Hpos : Forall (fun v => 0 < v) (versions_of h ms).
Hypothesis Hchain : omap (links_of h) ms = chain (versions_of h ms).
Hypothesis Hgo : Forall (fun p => ∃ m, h !! p = Some m ∧ runnable_go m) ms.

Lemma inserted_app (l1 l2 : list Event) : inserted (l1 ++ l2) = inserted l1 ++ inserted l2.
Proof. unfold inserted. apply omap_app. Qed.

(** After an insert of an applied record of version [v], the database
    is at version [v]. *)
Lemma current_after_insert (w : World) (r : MigrationRecord) (t : Table) :
  committed w ≡ₚ r :: t → IsApplied r = true → Forall (fun x => ID x < ID r) t →
  GetDBVersion_on db w = (w, (VersionID r, None)).
Proof.
  intros Hperm Hr Hnew.
  destruct (Hquery w) as (rows & Hq & Hrows & Hsorted).
  unfold GetDBVersion_on. rewrite Hq.
  assert (Hhead : ∃ rows', rows = r :: rows').
  { destruct rows as [|x rows'].
    - rewrite Hperm in Hrows. by apply Permutation_nil_cons in Hrows.
    - exists rows'. f_equal.
      assert (Hx : x ∈ r :: t) by (rewrite <- Hperm, <- Hrows; by left).
      apply elem_of_cons in Hx as [->|Hx]; [done|].
      exfalso. rewrite Forall_forall in Hnew. specialize (Hnew x Hx).
      assert (Hrin : r ∈ x :: rows') by (rewrite Hrows, Hperm; by left).
      apply elem_of_cons in Hrin as [->|Hrin]; [lia|].
      apply StronglySorted_cons in Hsorted as [Hall _].
      rewrite Forall_forall in Hall. specialize (Hall r Hrin). simpl in Hall. lia. }
  destruct Hhead as (rows' & ->).
  unfold GetDBVersion, EnsureDBVersion. rewrite fmap_cons. cbn [scan_rows in_skip].
  by rewrite Hr.
Qed.

(** One execution of a runnable Go migration with a driver that
    succeeds. *)
Lemma Up_runnable (n : nat) (m : Migration) (w : World) :
  runnable_go m →
  ∃ w', Up (ds n) m w = (w', None) ∧
        inserted (events w') = inserted (events w) ++ [Version m] ∧
        GetDBVersion_on db w' = (w', (Version m, None)).
Proof.
  intros (Hext & Hreg & Hfn).
  destruct (Hdrivers n) as [(Hb & He & Hc) Hfresh].
  unfold Up, run. rewrite Hext, Hreg, Hb, He, Hc. simpl.
  destruct w as [t evs]. simpl.
  destruct (UpFn m) as [f|].
  - specialize (Hfn t). destruct (f t) as [t' r]. simpl in Hfn. subst r. simpl.
    eexists. split; [done|]. simpl.
    destruct (Hfresh (Version m) true t') as (rec & Hperm & Hv & Ha & Hnew).
    split.
    + rewrite <- !app_assoc, !inserted_app. done.
    + match goal with
      | |- GetDBVersion_on _ ?w1 = _ =>
          pose proof (current_after_insert w1 rec t' Hperm Ha Hnew) as Hcur
      end.
      by rewrite Hv in Hcur.
  - eexists. split; [done|]. simpl.
    destruct (Hfresh (Version m) true t) as (rec & Hperm & Hv & Ha & Hnew).
    split.
    + rewrite <- !app_assoc, !inserted_app. done.
    + match goal with
      | |- GetDBVersion_on _ ?w1 = _ =>
          pose proof (current_after_insert w1 rec t Hperm Ha Hnew) as Hcur
      end.
      by rewrite Hv in Hcur.
Qed.

Lemma apply_loop_step (fuel n : nat) (w w1 : World) (c : Z) (p : ptr) (m : Migration) :
  GetDBVersion_on db w = (w, (c, None)) → MNext h ms c = Ok (inl p) →
  h !! p = Some m → Up (ds n) m w = (w1, None) →
  apply_loop (S fuel) db ds n h ms w = apply_loop fuel db ds (S n) h ms w1.
Proof.
  intros Hg Hn Hm Hu. cbn [apply_loop]. rewrite Hg, Hn. unfold load. by rewrite Hm, Hu.
Qed.

(** The loop from any point of the path. *)
Lemma apply_loop_rest (rest : Migrations) : ∀ (done : Migrations) (w : World) (n : nat) (c : Z),
  ms = done ++ rest →
  GetDBVersion_on db w = (w, (c, None)) →
  (done = [] ∧ c = 0 ∧ rest ≠ []) ∨ (∃ p, last done = Some p ∧ vkey h p = c) →
  ∃ w', apply_loop (S (length rest)) db ds n h ms w = Some (Ok (w', NothingLeft)) ∧
        inserted (events w') = inserted (events w) ++ versions_of h rest ∧
        GetDBVersion_on db w' = (w', (default c (last (versions_of h rest)), None)).
Proof.
  assert (Hne1 : Forall (fun v => v ≠ -1) (versions_of h ms)).
  { eapply Forall_impl; [exact Hpos|]. simpl. lia. }
  induction rest as [|m rest IH]; intros done w n c Hms Hg Hstart.
  - destruct Hstart as [(_ & _ & ?)|(p & Hlast & Hc)]; [done|].
    rewrite app_nil_r in Hms. subst done.
    apply last_Some in Hlast as (l' & Hl').
    assert (Hi : ms !! length l' = Some p) by (rewrite Hl'; by apply list_lookup_middle).
    assert (Hz : vkey h p ≠ 0).
    { rewrite Forall_forall in Hpos. assert (0 < vkey h p); [|lia].
      apply Hpos. apply list_elem_of_fmap_2. by eapply list_elem_of_lookup_2. }
    destruct (walk_on_chain h ms (length l') p Hvalid Hnodup Hne1 Hchain Hi) as [HN _].
    specialize (HN Hz). rewrite Hc in HN.
    replace (ms !! S (length l')) with (@None nat) in HN.
    2:{ symmetry. apply lookup_ge_None. rewrite Hl', length_app. simpl. lia. }
    exists w. cbn [apply_loop length]. rewrite Hg, HN. simpl.
    split; [done|]. split; [by rewrite app_nil_r|done].
  - assert (Him : ms !! length done = Some m) by (rewrite Hms; by apply list_lookup_middle).
    assert (Hnext : MNext h ms c = Ok (inl m)).
    { destruct Hstart as [(-> & -> & _)|(p & Hlast & Hc)].
      - unfold MNext, at_index. simpl in Him. by rewrite Him.
      - apply last_Some in Hlast as (l' & ->).
        assert (Hi : ms !! length l' = Some p).
        { rewrite Hms, <- app_assoc. by apply list_lookup_middle. }
        assert (Hz : vkey h p ≠ 0).
        { rewrite Forall_forall in Hpos. assert (0 < vkey h p); [|lia].
          apply Hpos. apply list_elem_of_fmap_2. by eapply list_elem_of_lookup_2. }
        destruct (walk_on_chain h ms (length l') p Hvalid Hnodup Hne1 Hchain Hi) as [HN _].
        specialize (HN Hz). rewrite Hc in HN. rewrite HN.
        rewrite length_app in Him. simpl in Him.
        replace (S (length l')) with (length l' + 1)%nat by lia. by rewrite Him. }
    assert (Hrun : ∃ mm, h !! m = Some mm ∧ runnable_go mm).
    { rewrite Forall_forall in Hgo. apply Hgo. by eapply list_elem_of_lookup_2. }
    destruct Hrun as (mm & Hmm & Hrunnable).
    destruct (Up_runnable n mm w Hrunnable) as (w1 & HUp & Hins1 & Hg1).
    assert (Hvm : Version mm = vkey h m) by (unfold vkey; by rewrite Hmm).
    destruct (IH (done ++ [m]) w1 (S n) (vkey h m)) as (w' & Hloop & Hins & Hg').
    { by rewrite <- app_assoc. }
    { by rewrite <- Hvm. }
    { right. exists m. split; [apply last_snoc|done]. }
    exists w'. cbn [length].
    rewrite (apply_loop_step _ n w w1 c m mm Hg Hnext Hmm HUp), Hloop.
    split; [done|]. split.
    + rewrite Hins, Hins1, Hvm, <- app_assoc. done.
    + rewrite Hg'. unfold versions_of. rewrite fmap_cons.
      by rewrite (default_last_cons _ c).
Qed.

End FullRun.

Lemma newer_first_transitive : Transitive newer_first.
Proof. intros a b c. unfold newer_first. lia. Qed.

Lemma newer_first_total : Total newer_first.
Proof. intros a b. unfold newer_first. lia. Qed.

Lemma spec_db_newest_first : query_newest_first Sample.spec_db.
Proof.
  intros w. exists (merge_sort newer_first (committed w)).
  split; [done|]. split; [apply merge_sort_Permutation|].
  exact (@StronglySorted_merge_sort _ newer_first _
           newer_first_transitive newer_first_total (committed w)).
Qed.

Lemma next_id_above (t : Table) : Forall (fun x => ID x < next_id t) t.
Proof.
  unfold next_id. induction t as [|r t IH]; constructor; simpl; [lia|].
  eapply Forall_impl; [exact IH|]. simpl. intros x Hx. lia.
Qed.

Lemma spec_insertVersion_fresh : fresh_insert Sample.driver_ok.
Proof.
  intros v a t. exists (mkRecord (next_id t) v 0 a). simpl.
  split; [|split; [done|split; [done|apply next_id_above]]].
  unfold spec_insertVersion. symmetry. apply Permutation_cons_append.
Qed.

(** X22: the loop of [UpTo] runs to the end of the collected slice.
    On a slice of runnable registered Go migrations with distinct
    positive versions and path links, read through a history query that
    answers newest row first, with drivers that succeed and insert under
    fresh row identifiers: starting from an empty history (current
    version 0) or from the version of any element of the slice, the loop
    applies exactly the migrations after that element, in slice order,
    returns no error, and leaves the database at the version of the last
    one (or where it was when nothing was left). *)
Theorem UpTo_applies_remaining (db : Database) (ds : nat → Driver) (h : Heap)
    (done rest : Migrations) (w : World) (c : Z) :
  query_newest_first db →
  (∀ n, driver_succeeds (ds n) ∧ fresh_insert (ds n)) →
  valid_ptrs h (done ++ rest) →
  NoDup (versions_of h (done ++ rest)) →
  Forall (fun v => 0 < v) (versions_of h (done ++ rest)) →
  omap (links_of h) (done ++ rest) = chain (versions_of h (done ++ rest)) →
  Forall (fun p => ∃ m, h !! p = Some m ∧ runnable_go m) (done ++ rest) →
  GetDBVersion_on db w = (w, (c, None)) →
  (done = [] ∧ c = 0 ∧ rest ≠ []) ∨ (∃ p, last done = Some p ∧ vkey h p = c) →
  ∃ w', UpTo_collected (S (length rest)) db ds h (done ++ rest) w = Some (Ok (w', None)) ∧
        inserted (events w') = inserted (events w) ++ versions_of h rest ∧
        GetDBVersion_on db w' = (w', (default c (last (versions_of h rest)), None)).
Proof.
  intros Hq Hd Hv Hn Hp Hc Hg Hcur Hstart.
  destruct (apply_loop_rest db ds h (done ++ rest) Hq Hd Hv Hn Hp Hc Hg
              rest done w 0%nat c eq_refl Hcur Hstart) as (w' & Hloop & Hins & Hend).
  exists w'. unfold UpTo_collected. by rewrite Hloop.
Qed.

Lemma UpTo_applies_remaining_witness :
  ∃ w', UpTo_collected 3 Sample.spec_db (fun _ => Sample.driver_ok)
          Sample.go_linked2 Sample.go_slice2 Sample.world0 = Some (Ok (w', None)) ∧
        inserted (events w') = [1; 2] ∧
        GetDBVersion_on Sample.spec_db w' = (w', (2, None)).
Proof.
  apply (UpTo_applies_remaining Sample.spec_db (fun _ => Sample.driver_ok)
           Sample.go_linked2 [] Sample.go_slice2 Sample.world0 0).
  - exact spec_db_newest_first.
  - intros _. split; [done|exact spec_insertVersion_fresh].
  - repeat constructor; vm_compute; eauto.
  - by apply (bool_decide_unpack _).
  - vm_compute. repeat constructor.
  - reflexivity.
  - repeat constructor; eexists; (split; [reflexivity|]); repeat split; done.
  - reflexivity.
  - left. done.
Defined.

(** X23: a history without a current version stops the apply functions.
    When the history query answers, every row scans and every applied
    record is superseded by an earlier rollback of its version (an empty
    table included), [GetDBVersion] returns -1 with [ErrNoNextVersion],
    and [UpTo] and [UpByOne] both hand that error back as their own
    result, executing nothing: [UpTo] reads [ErrNoNextVersion] as the
    normal end only when it comes from [Next]. *)
Theorem apply_without_current_version (fuel : nat) (db : Database) (ds : nat → Driver)
    (d : Driver) (h : Heap) (ms : Migrations) (w : World) (rows : list MigrationRecord) :
  db_query db w = QueryRows (ScanOk <$> rows) None →
  all_superseded [] rows →
  GetDBVersion_on db w = (w, (-1, Some ErrNoNextVersion)) ∧
  UpTo_collected (S fuel) db ds h ms w = Some (Ok (w, Some ErrNoNextVersion)) ∧
  UpByOne_collected db d h ms w = Ok (w, Some ErrNoNextVersion).
Proof.
  intros Hq Hsup.
  assert (Hg : GetDBVersion_on db w = (w, (-1, Some ErrNoNextVersion))).
  { unfold GetDBVersion_on, GetDBVersion, EnsureDBVersion. rewrite Hq.
    by rewrite (scan_rows_exhausted rows [] Hsup). }
  split; [exact Hg|].
  unfold UpTo_collected, UpByOne_collected. cbn [apply_loop]. by rewrite Hg.
Qed.

Lemma apply_without_current_version_witness :
  GetDBVersion_on Sample.spec_db (mkWorld [] []) = (mkWorld [] [], (-1, Some ErrNoNextVersion)) ∧
  UpTo_collected 1 Sample.spec_db (fun _ => Sample.driver_ok)
                 Sample.go_linked2 Sample.go_slice2 (mkWorld [] [])
  = Some (Ok (mkWorld [] [], Some ErrNoNextVersion)) ∧
  UpByOne_collected Sample.spec_db Sample.driver_ok
                    Sample.go_linked2 Sample.go_slice2 (mkWorld [] [])
  = Ok (mkWorld [] [], Some ErrNoNextVersion).
Proof.
  apply (apply_without_current_version 0 Sample.spec_db (fun _ => Sample.driver_ok)
           Sample.driver_ok Sample.go_linked2 Sample.go_slice2 (mkWorld [] []) []).
  - reflexivity.
  - intros pre1 r1 pre2 Hrows. by destruct pre1.
Defined.

(** X24: [Last] after sorting is the newest migration.  On a non-empty
    slice of valid pointers with pairwise distinct versions,
    [sortAndConnectMigrations] returns a slice whose [Last] is an element
    of the given slice that carries the greatest version; on the empty
    slice [Last] returns [ErrNoNextVersion]. *)
Theorem Last_after_sorting (h : Heap) (ms : Migrations) :
  valid_ptrs h ms → NoDup (versions_of h ms) → ms ≠ [] →
  Last [] = inr ErrNoNextVersion ∧
  ∃ h' sorted p,
    sortAndConnectMigrations h ms = Ok (h', sorted) ∧
    Last sorted = inl p ∧ p ∈ ms ∧
    ∀ q, q ∈ ms → vkey h' q ≤ vkey h' p.
Proof.
  intros Hv Hnd Hne. split; [done|].
  destruct (proj1 (sort_Sort_spec h ms Hv) Hnd) as (sorted & Hsort & Hperm & Hss).
  assert (Hvs : valid_ptrs h sorted) by (unfold valid_ptrs; by rewrite Hperm).
  destruct (connect_loop_ok sorted sorted h 0 Hvs Hvs) as (h' & Hc & _ & Hsame); [simpl; lia|].
  unfold sortAndConnectMigrations. rewrite Hsort. cbn [rbind]. rewrite Hc. cbn [rbind].
  destruct (last sorted) as [p|] eqn:Hlast.
  - exists h', sorted, p. split; [done|]. unfold Last. rewrite Hlast. split; [done|].
    apply last_Some in Hlast as (l' & ->). split.
    + rewrite <- Hperm. set_solver.
    + intros q Hq. rewrite !Hsame. rewrite <- Hperm in Hq.
      apply elem_of_app in Hq as [Hq|Hq%list_elem_of_singleton]; [|subst; lia].
      unfold versions_of in Hss. rewrite fmap_app in Hss.
      assert (vkey h q < vkey h p); [|lia].
      eapply (StronglySorted_app_1_elem_of _ _ _ _ _ Hss).
      * by apply list_elem_of_fmap_2.
      * simpl. set_solver.
  - apply last_None in Hlast. subst sorted. apply Permutation_nil_l in Hperm. done.
Qed.

Lemma Last_after_sorting_witness :
  Last [] = inr ErrNoNextVersion ∧
  ∃ h' sorted p,
    sortAndConnectMigrations Sample.heap3 Sample.slice3 = Ok (h', sorted) ∧
    Last sorted = inl p ∧ p ∈ Sample.slice3 ∧
    ∀ q, q ∈ Sample.slice3 → vkey h' q ≤ vkey h' p.
Proof.
  apply (Last_after_sorting Sample.heap3 Sample.slice3).
  - unfold valid_ptrs, Sample.slice3, Sample.heap3.
    repeat constructor; eexists; reflexivity.
  - by apply (bool_decide_unpack _).
  - discriminate.
Defined.
